(** * FragToPre: ion-mobility binning and adaptive peak picking

    A shallow embedding of [im_binning.py] and [peak_picker_im.py].

    Numbers.  The program computes on Python floats.  Finite sample values
    (retention time, m/z, intensity, ion mobility, positions) are modelled as
    exact rationals in canonical form ([Qc], with Leibniz equality), so the
    statements below are about the arithmetic the program approximates; the
    non-finite floats the program itself introduces ([float('inf')] as the
    initial minimum and as the default window) are kept as the special values
    of [pyfloat].  Exceptions raised by the Python run time (division by
    zero, list index out of range, [int()] of a non-finite float) are
    explicit results. *)

From Stdlib Require Import List ZArith QArith Qcanon Qround Qabs Qcabs.
From Stdlib Require Import Lia Lqa Bool Arith Permutation Sorted.
Import ListNotations.

Close Scope Q_scope.
Open Scope nat_scope.

(** ** The Python run time *)

Module Py.

Set Implicit Arguments.

Inductive exn : Set :=
  | ZeroDivisionError
  | IndexError
  | OverflowError
  | ValueError.

Inductive result (A : Type) : Type :=
  | Ok (a : A)
  | Raise (e : exn).

Arguments Ok {A} a.
Arguments Raise {A} e.

Definition bind {A B : Type} (m : result A) (k : A -> result B) : result B :=
  match m with
  | Ok a => k a
  | Raise e => Raise e
  end.

(** A float: a finite value or one of the IEEE special values. *)
Inductive pyfloat : Type :=
  | Fin (q : Qc)
  | PInf
  | NInf
  | NaN.

Definition Qc_ltb (x y : Qc) : bool :=
  match (x ?= y)%Qc with Lt => true | _ => false end.

Definition Qc_eqb (x y : Qc) : bool :=
  match (x ?= y)%Qc with Eq => true | _ => false end.

Definition Qc_leb (x y : Qc) : bool :=
  match (x ?= y)%Qc with Gt => false | _ => true end.

Definition Qc_of_Z (z : Z) : Qc := Q2Qc (inject_Z z).

(** [a - b] *)
Definition fsub (a b : pyfloat) : pyfloat :=
  match a, b with
  | NaN, _ | _, NaN => NaN
  | Fin x, Fin y => Fin (x - y)%Qc
  | Fin _, PInf => NInf
  | Fin _, NInf => PInf
  | PInf, PInf => NaN
  | PInf, _ => PInf
  | NInf, NInf => NaN
  | NInf, _ => NInf
  end.

(** [a + b] *)
Definition fadd (a b : pyfloat) : pyfloat :=
  match a, b with
  | NaN, _ | _, NaN => NaN
  | Fin x, Fin y => Fin (x + y)%Qc
  | Fin _, PInf => PInf
  | Fin _, NInf => NInf
  | PInf, NInf => NaN
  | PInf, _ => PInf
  | NInf, PInf => NaN
  | NInf, _ => NInf
  end.

(** [a / b]: Python raises on a zero divisor, whatever the dividend. *)
Definition fdiv (a b : pyfloat) : result pyfloat :=
  match b with
  | Fin y =>
      if Qc_eqb y 0 then Raise ZeroDivisionError
      else match a with
           | Fin x => Ok (Fin (x / y)%Qc)
           | PInf => Ok (if Qc_ltb 0 y then PInf else NInf)
           | NInf => Ok (if Qc_ltb 0 y then NInf else PInf)
           | NaN => Ok NaN
           end
  | NaN => Ok NaN
  | PInf | NInf =>
      match a with
      | Fin _ => Ok (Fin 0%Qc)
      | _ => Ok NaN
      end
  end.

(** [a < b] *)
Definition flt (a b : pyfloat) : bool :=
  match a, b with
  | NaN, _ | _, NaN => false
  | Fin x, Fin y => Qc_ltb x y
  | NInf, NInf => false
  | NInf, _ => true
  | _, NInf => false
  | PInf, _ => false
  | Fin _, PInf => true
  end.

(** [a > b] *)
Definition fgt (a b : pyfloat) : bool := flt b a.

(** [x / y] on finite values. *)
Definition qdiv (x y : Qc) : result Qc :=
  if Qc_eqb y 0 then Raise ZeroDivisionError else Ok (x / y)%Qc.

(** Truncation toward zero of a rational. *)
Definition Qc_trunc (q : Qc) : Z := Z.quot (Qnum q) (Zpos (Qden q)).

(** [int(x)] *)
Definition py_int (x : pyfloat) : result Z :=
  match x with
  | Fin q => Ok (Qc_trunc q)
  | PInf | NInf => Raise OverflowError
  | NaN => Raise ValueError
  end.

(** The position a Python list of length [len] is accessed at by [l[idx]]:
    a negative index counts from the end. *)
Definition py_index (len : nat) (idx : Z) : result nat :=
  if (0 <=? idx)%Z then
    if (idx <? Z.of_nat len)%Z then Ok (Z.to_nat idx) else Raise IndexError
  else
    if (- Z.of_nat len <=? idx)%Z then Ok (Z.to_nat (Z.of_nat len + idx))
    else Raise IndexError.

(** Replace the element at a position that is in range. *)
Fixpoint update {A : Type} (l : list A) (k : nat) (f : A -> A) : list A :=
  match l, k with
  | [], _ => []
  | x :: l', O => f x :: l'
  | x :: l', S k' => x :: update l' k' f
  end.

(** [l[idx].append(x)] for a list of lists [l]. *)
Definition append_at {A : Type} (l : list (list A)) (idx : Z) (x : A)
  : result (list (list A)) :=
  bind (py_index (length l) idx) (fun k => Ok (update l k (fun b => b ++ [x]))).

(** [sorted(l, key=...)] is a stable sort: elements with equal keys keep
    their order.  For keys under a total order the result is unique, and it
    is the one computed by inserting each element, from the last to the
    first, before the first element whose key is not smaller. *)
Section Sorted.
Variable A : Type.
Variable key : A -> Qc.

Fixpoint insert_by (x : A) (l : list A) : list A :=
  match l with
  | [] => [x]
  | y :: l' =>
      if Qc_ltb (key y) (key x) then y :: insert_by x l' else x :: y :: l'
  end.

Fixpoint sorted (l : list A) : list A :=
  match l with
  | [] => []
  | x :: l' => insert_by x (sorted l')
  end.
End Sorted.

(** A [for] loop whose body may [break]. *)
Inductive ctl (S : Type) : Type :=
  | Next (s : S)
  | Break (s : S).

Arguments Next {S} s.
Arguments Break {S} s.

Fixpoint for_break {S : Type} (body : nat -> S -> ctl S) (js : list nat) (s : S)
  : S :=
  match js with
  | [] => s
  | j :: js' =>
      match body j s with
      | Next s' => for_break body js' s'
      | Break s' => s'
      end
  end.

(** A [for] loop whose body may raise. *)
Fixpoint for_each {X S : Type} (body : X -> S -> result S) (xs : list X) (s : S)
  : result S :=
  match xs with
  | [] => Ok s
  | x :: xs' => bind (body x s) (for_each body xs')
  end.

Unset Implicit Arguments.

End Py.

Export Py.

Notation "x <- m ;; k" := (bind m (fun x => k))
  (at level 61, m at next level, right associativity).

Notation "' p <- m ;; k" := (bind m (fun p => k))
  (at level 61, p pattern, m at next level, right associativity).

(** ** Spectra *)

(** An OpenMS [Peak1D]: a position (m/z) and an intensity. *)
Record Peak1D : Type := mkPeak { getPos : Qc; getIntensity : Qc }.

(** What the binner reads of an OpenMS [MSSpectrum] that carries a float
    data array: MS level, retention time, the peaks and the first float
    data array (the ion mobility of each peak).  The access to that array,
    which fails on a spectrum that carries none, is modelled on [Spectrum]
    in the module [Arrays]. *)
Record MSSpectrum : Type := mkSpectrum {
  getMSLevel : nat;
  getRT : Qc;
  peaks : list Peak1D;
  fda : list Qc
}.

(** An OpenMS [MSSpectrum] with the list of its float data arrays, as
    [getFloatDataArrays()] returns it: the list is empty for a spectrum
    that carries no float data array. *)
Record Spectrum : Type := mkLoaded {
  ms_level : nat;
  ret_time : Qc;
  get_peaks : list Peak1D;
  getFloatDataArrays : list (list Qc)
}.

(** ** im_binning.py *)

Module Binning.

(** A point is the list [[RT, MZ, intensity, IM]]. *)
Record point : Type := mkPoint {
  p_rt : Qc;
  p_mz : Qc;
  p_intensity : Qc;
  p_im : Qc
}.

(** The module's global variables. *)
Record globals : Type := mkGlobals {
  bins : list (list point);
  exps : list (list MSSpectrum);
  first_im : pyfloat;
  last_im : pyfloat;
  delta_im : pyfloat;
  num_bins : Z;
  bin_size : pyfloat;
  bins2 : list (list point);
  exps2 : list (list MSSpectrum);
  offset_im : pyfloat
}.

(** The globals as the module initialises them, with [num_bins] as the
    command line sets it. *)
Definition initial (n : Z) : globals :=
  {| bins := []; exps := [];
     first_im := Fin 0; last_im := Fin 0; delta_im := Fin 0;
     num_bins := n; bin_size := Fin 0;
     bins2 := []; exps2 := [];
     offset_im := Fin 0 |}.

(** [get_points] on a spectrum whose first float data array is [fda spec];
    the access to the array and its [IndexError] are in
    [Arrays.get_points]. *)
Definition get_points (spec : MSSpectrum) : list point :=
  map (fun '(pk, im) => mkPoint (getRT spec) (getPos pk) (getIntensity pk) im)
      (combine (peaks spec) (fda spec)).

(** The body of the inner loop of [get_extrema]. *)
Definition extrema_point (acc : pyfloat * pyfloat) (p : point)
  : pyfloat * pyfloat :=
  let '(smallest_im, largest_im) := acc in
  let smallest_im :=
    if flt (Fin (p_im p)) smallest_im then Fin (p_im p) else smallest_im in
  let largest_im :=
    if fgt (Fin (p_im p)) largest_im then Fin (p_im p) else largest_im in
  (smallest_im, largest_im).

Definition get_extrema (spectra : list MSSpectrum) : pyfloat * pyfloat :=
  fold_left
    (fun acc spec => fold_left extrema_point (get_points spec) acc)
    spectra (PInf, Fin (- (1))%Qc).

Definition setup_bins (g : globals) (spectra : list MSSpectrum)
  : result globals :=
  let '(first, last) := get_extrema spectra in
  let delta := fsub last first in
  size <- fdiv delta (Fin (Qc_of_Z (num_bins g))) ;;
  let bins' := bins g ++ repeat [] (Z.to_nat (num_bins g)) in
  let exps' := exps g ++ repeat [] (Z.to_nat (num_bins g)) in
  half <- fdiv size (Fin (Qc_of_Z 2)) ;;
  let offset := fadd half first in
  let bins2' := bins2 g ++ repeat [] (Z.to_nat (num_bins g + 1)) in
  let exps2' := exps2 g ++ repeat [] (Z.to_nat (num_bins g + 1)) in
  Ok {| bins := bins'; exps := exps';
        first_im := first; last_im := last; delta_im := delta;
        num_bins := num_bins g; bin_size := size;
        bins2 := bins2'; exps2 := exps2';
        offset_im := offset |}.

(** Step 1, first pass: the index computed for a point. *)
Definition primary_bin_idx (g : globals) (p : point) : result Z :=
  q <- fdiv (fsub (Fin (p_im p)) (first_im g)) (bin_size g) ;;
  bin_idx <- py_int q ;;
  Ok (if (bin_idx >=? num_bins g)%Z then (num_bins g - 1)%Z else bin_idx).

(** Step 1, second pass. *)
Definition secondary_bin_idx (g : globals) (p : point) : result Z :=
  if flt (Fin (p_im p)) (offset_im g) then Ok 0%Z
  else
    q <- fdiv (fsub (Fin (p_im p)) (offset_im g)) (bin_size g) ;;
    i <- py_int q ;;
    let bin_idx := (i + 1)%Z in
    Ok (if (bin_idx >? num_bins g)%Z then num_bins g else bin_idx).

(** The body of the loop of step 1: the point is copied into one list of
    each pass. *)
Definition assign_point (g : globals) (p : point)
  (temp : list (list point) * list (list point))
  : result (list (list point) * list (list point)) :=
  let '(temp_bins, temp_bins2) := temp in
  bin_idx <- primary_bin_idx g p ;;
  temp_bins <- append_at temp_bins bin_idx p ;;
  bin_idx2 <- secondary_bin_idx g p ;;
  temp_bins2 <- append_at temp_bins2 bin_idx2 p ;;
  Ok (temp_bins, temp_bins2).

Definition assign_points (g : globals) (sorted_points : list point)
  : result (list (list point) * list (list point)) :=
  for_each (assign_point g) sorted_points
    (repeat [] (Z.to_nat (num_bins g)), repeat [] (Z.to_nat (num_bins g + 1))).

(** Steps 2 and 3: summing the intensities of each m/z slice. *)

Definition set_intensity (v : Qc) (p : point) : point :=
  {| p_rt := p_rt p; p_mz := p_mz p; p_intensity := v; p_im := p_im p |}.

(** [for k in range(start, start + num): l[k][2] = v] *)
Definition write_slice (l : list point) (start num : nat) (v : Qc)
  : list point :=
  fold_left (fun l k => update l k (set_intensity v)) (seq start num) l.

Record agg_state : Type := mkAgg {
  pts : list point;
  mz_start : nat;
  num_mz : nat;
  curr_mz : Qc;
  running_intensity : Qc
}.

Definition no_point : point := mkPoint 0 0 0 0.

(** The body of the loop over [j]; [j] is in range. *)
Definition agg_step (st : agg_state) (j : nat) : agg_state :=
  if Qc_eqb (p_mz (nth j (pts st) no_point)) (curr_mz st) then
    {| pts := pts st;
       mz_start := mz_start st;
       num_mz := S (num_mz st);
       curr_mz := curr_mz st;
       running_intensity :=
         (running_intensity st + p_intensity (nth j (pts st) no_point))%Qc |}
  else
    let l := write_slice (pts st) (mz_start st) (num_mz st)
                         (running_intensity st) in
    {| pts := l;
       mz_start := j;
       num_mz := 1;
       curr_mz := p_mz (nth j l no_point);
       running_intensity := p_intensity (nth j l no_point) |}.

(** The aggregation of one non-empty temporary bin: sort by m/z, then
    overwrite the intensity of every point of a slice with the slice's
    sum. *)
Definition aggregate_sorted (l : list point) : list point :=
  let st :=
    fold_left agg_step (seq 0 (length l))
      {| pts := l; mz_start := 0; num_mz := 0;
         curr_mz := p_mz (nth 0 l no_point);
         running_intensity := 0%Qc |} in
  if (0 <? num_mz st)%nat then
    write_slice (pts st) (mz_start st) (num_mz st) (running_intensity st)
  else pts st.

Definition aggregate (l : list point) : list point :=
  aggregate_sorted (sorted p_mz l).

(** Steps 2.5 and 3.5: the spectrum built from an aggregated bin. *)
Definition build_spectrum (rt : Qc) (l : list point) : MSSpectrum :=
  {| getMSLevel := 1;
     getRT := rt;
     peaks := map (fun p => mkPeak (p_mz p) (p_intensity p)) l;
     fda := map p_im l |}.

(** The body of the loop over the bins of one pass. *)
Definition synthesize_bin (rt : Qc) (temp : list (list point)) (i : nat)
  (acc : list (list point) * list (list MSSpectrum))
  : result (list (list point) * list (list MSSpectrum)) :=
  let '(bs, es) := acc in
  let t := nth i temp [] in
  if (length t =? 0)%nat then Ok (bs, es)
  else
    let t := aggregate t in
    k <- py_index (length bs) (Z.of_nat i) ;;
    let bs := update bs k (fun b => b ++ t) in
    k' <- py_index (length es) (Z.of_nat i) ;;
    let es := update es k' (fun e => e ++ [build_spectrum rt t]) in
    Ok (bs, es).

Definition bin_spectrum (g : globals) (spec : MSSpectrum) : result globals :=
  let points := get_points spec in
  let sorted_points := sorted p_im points in
  ' (temp_bins, temp_bins2) <- assign_points g sorted_points ;;
  ' (bins', exps') <-
    for_each (synthesize_bin (getRT spec) temp_bins)
      (seq 0 (Z.to_nat (num_bins g))) (bins g, exps g) ;;
  ' (bins2', exps2') <-
    for_each (synthesize_bin (getRT spec) temp_bins2)
      (seq 0 (Z.to_nat (num_bins g + 1))) (bins2 g, exps2 g) ;;
  Ok {| bins := bins'; exps := exps';
        first_im := first_im g; last_im := last_im g; delta_im := delta_im g;
        num_bins := num_bins g; bin_size := bin_size g;
        bins2 := bins2'; exps2 := exps2';
        offset_im := offset_im g |}.

(** The loop of the main program over the spectra: only MS1 spectra are
    binned. *)
Definition process_spectrum (spec : MSSpectrum) (g : globals)
  : result globals :=
  if negb (getMSLevel spec =? 1)%nat then Ok g else bin_spectrum g spec.

Definition run (n : Z) (spectra : list MSSpectrum) : result globals :=
  g <- setup_bins (initial n) spectra ;;
  for_each process_spectrum spectra g.

End Binning.

(** ** peak_picker_im.py *)

Module PeakPicker.

(** The keyword arguments of [peak_pick]. *)
Record config : Type := mkConfig {
  min_req : Z;
  window_size : pyfloat;
  small_peak : Qc;
  strict : bool;
  sequential : bool
}.

Definition default_config : config :=
  {| min_req := 1; window_size := PInf;
     small_peak := Q2Qc (1 # 10);
     strict := true; sequential := true |}.

Definition no_peak : Peak1D := mkPeak 0 0.

(** [spec[j]], for an index in range. *)
Definition peak_at (spec : list Peak1D) (j : nat) : Peak1D := nth j spec no_peak.

(** The two walks of the program are the same loop up to the direction:
    the neighbour of [j] on the seed's side is [j + 1] when walking left and
    [j - 1] when walking right, and the bound moves by one away from the
    seed. *)
Inductive direction : Set := Leftwards | Rightwards.

Definition toward_seed (d : direction) (j : nat) : nat :=
  match d with
  | Leftwards => j + 1
  | Rightwards => j - 1
  end.

Definition away (d : direction) (b : nat) : nat :=
  match d with
  | Leftwards => b - 1
  | Rightwards => b + 1
  end.

(** The variables a walk updates: [total_intensity], [left_picked] or
    [right_picked], [low_bound] or [high_bound], [sflag], [threshold]. *)
Record walk_state : Type := mkWalk {
  total_intensity : Qc;
  n_picked : Z;
  bound : nat;
  sflag : bool;
  threshold : Z
}.

(** The end of the loop body: the sample is taken, and the walk stops once
    enough samples are taken and this one is small. *)
Definition take (cfg : config) (spec : list Peak1D) (init_intensity : Qc)
  (j : nat) (flag : bool) (thr : Z) (st : walk_state) : ctl walk_state :=
  let st' :=
    {| total_intensity :=
         (total_intensity st + getIntensity (peak_at spec j))%Qc;
       n_picked := (n_picked st + 1)%Z;
       bound := bound st;
       sflag := flag;
       threshold := thr |} in
  if (n_picked st' >=? threshold st')%Z
     && Qc_leb (getIntensity (peak_at spec j))
               (init_intensity * small_peak cfg)%Qc
  then Break st' else Next st'.

(** The body of a walk from seed [i], at sample [j]. *)
Definition walk_body (cfg : config) (spec : list Peak1D) (picked : list bool)
  (i : nat) (d : direction) (j : nat) (st : walk_state) : ctl walk_state :=
  let init_intensity := getIntensity (peak_at spec i) in
  let init_position := getPos (peak_at spec i) in
  if nth j picked false then Break st
  else if fgt (Fin (Qcabs (getPos (peak_at spec j) - init_position)%Qc))
              (window_size cfg)
  then Break st
  else
    let moved :=
      {| total_intensity := total_intensity st;
         n_picked := n_picked st;
         bound := away d (bound st);
         sflag := sflag st;
         threshold := threshold st |} in
    if Qc_ltb (getIntensity (peak_at spec (toward_seed d j)))
              (getIntensity (peak_at spec j))
    then
      if strict cfg || sflag st || (toward_seed d j =? i)%nat then Break st
      else take cfg spec init_intensity j true (threshold st + 1)%Z moved
    else take cfg spec init_intensity j (sflag st) (threshold st) moved.

(** The samples a walk visits: [range(i - 1, -1, -1)] to the left,
    [range(i + 1, num_peaks)] to the right. *)
Definition walk_range (num_peaks i : nat) (d : direction) : list nat :=
  match d with
  | Leftwards => rev (seq 0 i)
  | Rightwards => seq (i + 1) (num_peaks - (i + 1))
  end.

Definition walk (cfg : config) (spec : list Peak1D) (picked : list bool)
  (i : nat) (d : direction) (total : Qc) : walk_state :=
  for_break (walk_body cfg spec picked i d) (walk_range (length spec) i d)
    {| total_intensity := total; n_picked := 0; bound := i;
       sflag := false; threshold := min_req cfg |}.

(** The expansion of an unpicked seed: [Some (low_bound, high_bound,
    total_intensity)] when both walks reach their threshold. *)
Definition expand (cfg : config) (spec : list Peak1D) (picked : list bool)
  (i : nat) : option (nat * nat * Qc) :=
  let l := walk cfg spec picked i Leftwards (getIntensity (peak_at spec i)) in
  if (n_picked l <? threshold l)%Z then None
  else
    let r := walk cfg spec picked i Rightwards (total_intensity l) in
    if (n_picked r <? threshold r)%Z then None
    else Some (bound l, bound r, total_intensity r).

(** The loop over the accepted span: every sample is marked and the
    weighted position accumulated. *)
Definition mark_body (spec : list Peak1D) (total : Qc) (j : nat)
  (st : list bool * Qc) : result (list bool * Qc) :=
  let '(picked, total_position) := st in
  let picked := update picked j (fun _ => true) in
  w <- qdiv (getIntensity (peak_at spec j)) total ;;
  Ok (picked, (total_position + getPos (peak_at spec j) * w)%Qc).

(** The state of the loop over the seeds.  [spans] is not a variable of the
    program: it records, for every peak pushed to [new_spec], the inclusive
    index span the peak was built from, most recent first. *)
Record pick_state : Type := mkPick {
  picked : list bool;
  new_spec : list Peak1D;
  spans : list (nat * nat)
}.

(** The body of the loop over the seeds. *)
Definition pick_seed (cfg : config) (spec : list Peak1D) (i : nat)
  (st : pick_state) : result pick_state :=
  if nth i (picked st) false then Ok st
  else
    match expand cfg spec (picked st) i with
    | None => Ok st
    | Some (low_bound, high_bound, total) =>
        ' (picked', total_position) <-
          for_each (mark_body spec total)
            (seq low_bound (high_bound + 1 - low_bound)) (picked st, 0%Qc) ;;
        Ok {| picked := picked';
              new_spec := new_spec st ++ [mkPeak total_position total];
              spans := (low_bound, high_bound) :: spans st |}
    end.

(** [sorted(peak_idx, reverse=True)] on the pairs [[intensity, index]]:
    descending in the lexicographic order of the pairs. *)
Definition pair_gt (x y : Qc * nat) : bool :=
  Qc_ltb (fst y) (fst x) || (Qc_eqb (fst x) (fst y) && (snd y <? snd x)%nat).

Fixpoint insert_desc (x : Qc * nat) (l : list (Qc * nat)) : list (Qc * nat) :=
  match l with
  | [] => [x]
  | y :: l' => if pair_gt y x then y :: insert_desc x l' else x :: y :: l'
  end.

Fixpoint sorted_desc (l : list (Qc * nat)) : list (Qc * nat) :=
  match l with
  | [] => []
  | x :: l' => insert_desc x (sorted_desc l')
  end.

(** The seeds in the order they are visited. *)
Definition seed_order (cfg : config) (spec : list Peak1D) : list nat :=
  if sequential cfg then seq 0 (length spec)
  else
    map snd
      (sorted_desc (combine (map getIntensity spec) (seq 0 (length spec)))).

(** The picking of one spectrum whose peaks are sorted by position. *)
Definition pick_sorted (cfg : config) (spec : list Peak1D) : result pick_state :=
  for_each (pick_seed cfg spec) (seed_order cfg spec)
    {| picked := repeat false (length spec); new_spec := []; spans := [] |}.

(** The body of the loop over the spectra of the experiment: the new
    spectrum gets the MS level 1, the retention time of [spec] and the
    peaks picked, and no float data array. *)
Definition pick_spectrum (cfg : config) (spec : Spectrum)
  (new_exp : list Spectrum) : result (list Spectrum) :=
  if negb (ms_level spec =? 1)%nat then Ok new_exp
  else
    st <- pick_sorted cfg (sorted getPos (get_peaks spec)) ;;
    Ok (new_exp ++
        [{| ms_level := 1; ret_time := ret_time spec;
            get_peaks := new_spec st; getFloatDataArrays := [] |}]).

(** [exp.sortSpectra()] puts the spectra in ascending order of retention
    time; spectra of equal retention time are taken in their order.  The
    order of the peaks within a spectrum is that of
    [spec.sortByPosition()] in the loop. *)
Definition sortSpectra (spectra : list Spectrum) : list Spectrum :=
  sorted ret_time spectra.

Definition peak_pick (cfg : config) (spectra : list Spectrum)
  : result (list Spectrum) :=
  for_each (pick_spectrum cfg) (sortSpectra spectra) [].

End PeakPicker.

(** ** im_binning.py: the helpers on spectra, features and hulls *)

Module Features.

Import Binning.

(** An experiment is the list of its spectra; [exp1.addSpectrum(spec)] for
    every spectrum of [exp2]. *)
Definition combine_spectra (exp1 exp2 : list MSSpectrum) : list MSSpectrum :=
  fold_left (fun exp spec => exp ++ [spec]) exp2 exp1.

(** What [similar_features] reads of an OpenMS [Feature]. *)
Record Feature : Type := mkFeature { featRT : Qc; featMZ : Qc }.

Definition rt_threshold : Qc := Qc_of_Z 5.

Definition mz_threshold : Qc := Q2Qc (1 # 100).

Definition similar_features (feature1 feature2 : Feature) : bool :=
  Qc_ltb (Qcabs (featRT feature1 - featRT feature2)%Qc) rt_threshold
  && Qc_ltb (Qcabs (featMZ feature1 - featMZ feature2)%Qc) mz_threshold.

(** A hull point [[x, y]]; [hull[i]] for an index in range. *)
Definition hull_at (hull : list (Qc * Qc)) (i : nat) : Qc * Qc :=
  nth i hull (0%Qc, 0%Qc).

(** The body of the loop of [hull_area]. *)
Definition hull_step (hull : list (Qc * Qc)) (area : Qc) (i : nat) : Qc :=
  let next := hull_at hull ((i + 1) mod length hull) in
  let area := (area + fst (hull_at hull i) * snd next)%Qc in
  (area - snd (hull_at hull i) * fst next)%Qc.

(** The shoelace formula; the division is by the constant 2. *)
Definition hull_area (hull : list (Qc * Qc)) : Qc :=
  let area := fold_left (hull_step hull) (seq 0 (length hull)) 0%Qc in
  (Qcabs area / Qc_of_Z 2)%Qc.

(** An OpenMS [DBoundingBox2]. *)
Record DBoundingBox2 : Type := mkBox {
  minPosition : Qc * Qc;
  maxPosition : Qc * Qc
}.

Definition bb_area (box : DBoundingBox2) : Qc :=
  let _min := minPosition box in
  let _max := maxPosition box in
  (Qcabs (fst _min - fst _max) * Qcabs (snd _min * snd _max))%Qc.

End Features.

(** ** im_binning.py on spectra with or without float data arrays *)

Module Arrays.

Import Binning.

(** [spec.getFloatDataArrays()[0]] *)
Definition first_array (spec : Spectrum) : result (list Qc) :=
  k <- py_index (length (getFloatDataArrays spec)) 0 ;;
  Ok (nth k (getFloatDataArrays spec) []).

(** The peaks zipped with the ion mobilities, made into points with the
    retention time [rt]. *)
Definition zip_points (rt : Qc) (pks : list Peak1D) (ims : list Qc)
  : list point :=
  map (fun '(pk, im) => mkPoint rt (getPos pk) (getIntensity pk) im)
      (combine pks ims).

Definition get_points (spec : Spectrum) : result (list point) :=
  ims <- first_array spec ;;
  Ok (zip_points (ret_time spec) (get_peaks spec) ims).

(** As [get_points], with the peaks of the peak-picked spectrum and the
    retention time and ion mobilities of the spectrum it was picked
    from. *)
Definition get_points_pp (spec_pp spec : Spectrum) : result (list point) :=
  ims <- first_array spec ;;
  Ok (zip_points (ret_time spec) (get_peaks spec_pp) ims).

Definition get_extrema (spectra : list Spectrum)
  : result (pyfloat * pyfloat) :=
  for_each
    (fun spec acc =>
       new_points <- get_points spec ;;
       Ok (fold_left extrema_point new_points acc))
    spectra (PInf, Fin (- (1))%Qc).

Definition setup_bins (g : globals) (spectra : list Spectrum)
  : result globals :=
  ' (first, last) <- get_extrema spectra ;;
  let delta := fsub last first in
  size <- fdiv delta (Fin (Qc_of_Z (num_bins g))) ;;
  let bins' := bins g ++ repeat [] (Z.to_nat (num_bins g)) in
  let exps' := exps g ++ repeat [] (Z.to_nat (num_bins g)) in
  half <- fdiv size (Fin (Qc_of_Z 2)) ;;
  let offset := fadd half first in
  let bins2' := bins2 g ++ repeat [] (Z.to_nat (num_bins g + 1)) in
  let exps2' := exps2 g ++ repeat [] (Z.to_nat (num_bins g + 1)) in
  Ok {| bins := bins'; exps := exps';
        first_im := first; last_im := last; delta_im := delta;
        num_bins := num_bins g; bin_size := size;
        bins2 := bins2'; exps2 := exps2';
        offset_im := offset |}.

Definition bin_spectrum (g : globals) (spec : Spectrum) : result globals :=
  points <- get_points spec ;;
  let sorted_points := sorted p_im points in
  ' (temp_bins, temp_bins2) <- assign_points g sorted_points ;;
  ' (bins', exps') <-
    for_each (synthesize_bin (ret_time spec) temp_bins)
      (seq 0 (Z.to_nat (num_bins g))) (bins g, exps g) ;;
  ' (bins2', exps2') <-
    for_each (synthesize_bin (ret_time spec) temp_bins2)
      (seq 0 (Z.to_nat (num_bins g + 1))) (bins2 g, exps2 g) ;;
  Ok {| bins := bins'; exps := exps';
        first_im := first_im g; last_im := last_im g; delta_im := delta_im g;
        num_bins := num_bins g; bin_size := bin_size g;
        bins2 := bins2'; exps2 := exps2';
        offset_im := offset_im g |}.

Definition process_spectrum (spec : Spectrum) (g : globals)
  : result globals :=
  if negb (ms_level spec =? 1)%nat then Ok g else bin_spectrum g spec.

Definition run (n : Z) (spectra : list Spectrum) : result globals :=
  g <- setup_bins (initial n) spectra ;;
  for_each process_spectrum spectra g.

End Arrays.

(** * Reference definitions and sample inputs *)

Import Binning.

(** ** The bins *)

(** The index the specification describes: the floor of the scaled offset,
    clamped to [[0, num_bins - 1]]. *)
Definition clamped_floor_idx (f b : Qc) (n : Z) (im : Qc) : Z :=
  Z.max 0 (Z.min (Qfloor ((im - f) / b)%Qc) (n - 1)).

(** The globals agree on what step 1 of [bin_spectrum] reads. *)
Definition same_context (g g' : globals) : Prop :=
  first_im g' = first_im g /\ bin_size g' = bin_size g /\
  offset_im g' = offset_im g /\ num_bins g' = num_bins g.

(** Four bins of width 1 over [[0, 4]]. *)
Definition four_unit_bins : globals :=
  {| bins := repeat [] 4; exps := repeat [] 4;
     first_im := Fin 0; last_im := Fin (Qc_of_Z 4); delta_im := Fin (Qc_of_Z 4);
     num_bins := 4; bin_size := Fin 1;
     bins2 := repeat [] 5; exps2 := repeat [] 5;
     offset_im := Fin (Q2Qc (1 # 2)) |}.

Definition point_at_im (im : Qc) : point := mkPoint 0 1 1 im.

(** ** The aggregation *)

(** The total intensity of a point list. *)
Definition sum_intensity (l : list point) : Qc :=
  fold_right (fun p acc => (p_intensity p + acc)%Qc) 0%Qc l.

(** The summed intensity of the points of a list at a given m/z. *)
Definition mz_total (l : list point) (m : Qc) : Qc :=
  sum_intensity (filter (fun q => Qc_eqb (p_mz q) m) l).

(** A point with the summed intensity of the points of [l] at its m/z. *)
Definition with_mz_total (l : list point) (p : point) : point :=
  set_intensity (mz_total l (p_mz p)) p.

(** The state of the loop after [j] iterations, when no two points share
    an m/z: the current slice is the single point before [j]. *)
Definition singleton_state (l : list point) (j : nat) : agg_state :=
  match j with
  | O => {| pts := l; mz_start := 0; num_mz := 0;
            curr_mz := p_mz (nth 0 l no_point);
            running_intensity := 0%Qc |}
  | S k => {| pts := l; mz_start := k; num_mz := 1;
              curr_mz := p_mz (nth k l no_point);
              running_intensity := p_intensity (nth k l no_point) |}
  end.

(** The loop of the aggregation as a recursion on the points still to be
    read: [cur] is the current slice, of m/z [m] and running intensity
    [s]. *)
Fixpoint agg_runs (cur : list point) (m s : Qc) (rest : list point)
  : list point :=
  match rest with
  | [] => map (set_intensity s) cur
  | x :: rest' =>
      if Qc_eqb (p_mz x) m
      then agg_runs (cur ++ [x]) m (s + p_intensity x)%Qc rest'
      else map (set_intensity s) cur
           ++ agg_runs [x] (p_mz x) (p_intensity x) rest'
  end.

(** The end of the aggregation: the last slice is written. *)
Definition agg_finish (st : agg_state) : list point :=
  if (0 <? num_mz st)%nat then
    write_slice (pts st) (mz_start st) (num_mz st) (running_intensity st)
  else pts st.

(** Two points of the same scan with the same m/z, each of intensity 1. *)
Definition twin_points : list point :=
  [mkPoint 0 1 1 0; mkPoint 0 1 1 1].

(** Three points with distinct m/z, not in m/z order. *)
Definition distinct_points : list point :=
  [mkPoint 0 (Qc_of_Z 3) 1 0; mkPoint 0 1 (Qc_of_Z 5) 1;
   mkPoint 0 (Qc_of_Z 2) (Qc_of_Z 2) 0].

(** ** The experiment *)

(** The ion mobilities of all the samples of an experiment, scan by scan,
    whatever the MS level of the scan. *)
Definition all_ims (spectra : list MSSpectrum) : list Qc :=
  map p_im (flat_map get_points spectra).

(** A scan relabelled with another MS level. *)
Definition with_level (level : nat) (spec : MSSpectrum) : MSSpectrum :=
  {| getMSLevel := level; getRT := getRT spec;
     peaks := peaks spec; fda := fda spec |}.

(** The scans of MS level 1. *)
Definition ms1_only (spectra : list MSSpectrum) : list MSSpectrum :=
  filter (fun spec => (getMSLevel spec =? 1)%nat) spectra.

(** A scan of the given MS level with one peak (m/z 1, intensity 1) at the
    given ion mobility. *)
Definition single_point_scan (level : nat) (im : Qc) : MSSpectrum :=
  {| getMSLevel := level; getRT := 0%Qc;
     peaks := [mkPeak 1 1]; fda := [im] |}.

(** An MS1 scan without peaks. *)
Definition empty_scan : MSSpectrum :=
  {| getMSLevel := 1; getRT := 0%Qc; peaks := []; fda := [] |}.

(** Two MS1 scans of one point each, at ion mobility 0 and 4. *)
Definition two_scans : list MSSpectrum :=
  [single_point_scan 1 0; single_point_scan 1 (Qc_of_Z 4)].

(** What the loop over the bins of one pass appends to the spectra of bin
    [i], given the temporary bins of the scan: nothing when the scan left
    no point in the bin, else the spectrum of the aggregated points. *)
Definition appended (rt : Qc) (temp : list (list point)) (i : nat)
  : list MSSpectrum :=
  if (length (nth i temp []) =? 0)%nat then []
  else [build_spectrum rt (aggregate (nth i temp []))].

(** The spectra a scan contributes to bin [i] of the first and of the
    second pass. *)
Definition scan_spectra (g : globals) (spec : MSSpectrum) (i : nat)
  : list MSSpectrum :=
  match assign_points g (sorted p_im (get_points spec)) with
  | Ok (temp_bins, _) => appended (getRT spec) temp_bins i
  | Raise _ => []
  end.

Definition scan_spectra2 (g : globals) (spec : MSSpectrum) (i : nat)
  : list MSSpectrum :=
  match assign_points g (sorted p_im (get_points spec)) with
  | Ok (_, temp_bins2) => appended (getRT spec) temp_bins2 i
  | Raise _ => []
  end.

(** The number of spectra in each bin of the two passes after a run. *)
Definition spectra_per_bin (r : result globals)
  : option (list nat * list nat) :=
  match r with
  | Ok g => Some (map (@length MSSpectrum) (exps g),
                  map (@length MSSpectrum) (exps2 g))
  | Raise _ => None
  end.

(** ** The peak picker *)

Import PeakPicker.

(** The state a loop body hands on, whether it goes on or breaks. *)
Definition ctl_state {S : Type} (c : ctl S) : S :=
  match c with
  | Next s => s
  | Break s => s
  end.

(** The sum of [f k] for [k] from [a] to [a + n - 1]. *)
Definition sum_range (f : nat -> Qc) (a n : nat) : Qc :=
  fold_left (fun acc k => (acc + f k)%Qc) (seq a n) 0%Qc.

Definition intensity_at (spec : list Peak1D) (k : nat) : Qc :=
  getIntensity (peak_at spec k).

(** The sum of the intensities of the samples of an inclusive span. *)
Definition span_intensity (spec : list Peak1D) (low high : nat) : Qc :=
  sum_range (intensity_at spec) low (high + 1 - low).

(** The intensity-weighted average of the positions of a span. *)
Definition weighted_position (spec : list Peak1D) (low high : nat) : Qc :=
  sum_range
    (fun k => (getPos (peak_at spec k) *
               (intensity_at spec k / span_intensity spec low high))%Qc)
    low (high + 1 - low).

(** The composite peak of a span. *)
Definition composite (spec : list Peak1D) (span : nat * nat) : Peak1D :=
  mkPeak (weighted_position spec (fst span) (snd span))
         (span_intensity spec (fst span) (snd span)).

(** A sample lies in an inclusive span. *)
Definition in_span (k : nat) (span : nat * nat) : Prop :=
  fst span <= k <= snd span.

(** Two spans share no sample. *)
Definition disjoint (a b : nat * nat) : Prop :=
  snd a < fst b \/ snd b < fst a.

(** How a walk's concession variables may change in one iteration: not at
    all, or the unused concession is spent and the threshold raised by
    one, which only a walk that is not strict does. *)
Definition concession_step (cfg : config) (st st' : walk_state) : Prop :=
  (sflag st' = sflag st /\ threshold st' = threshold st) \/
  (strict cfg = false /\ sflag st = false /\
   sflag st' = true /\ threshold st' = (threshold st + 1)%Z).

(** What holds of the concession variables all along a walk. *)
Definition concession_inv (cfg : config) (st : walk_state) : Prop :=
  (sflag st = false /\ threshold st = min_req cfg) \/
  (strict cfg = false /\ sflag st = true /\
   threshold st = (min_req cfg + 1)%Z).

(** The sample [j] is taken: the state after the iteration. *)
Definition taken (spec : list Peak1D) (d : direction) (j : nat)
  (flag : bool) (thr : Z) (st : walk_state) : walk_state :=
  {| total_intensity := (total_intensity st + intensity_at spec j)%Qc;
     n_picked := (n_picked st + 1)%Z;
     bound := away d (bound st);
     sflag := flag;
     threshold := thr |}.

(** What holds of a walk to the left of seed [i] that started with total
    [t0]: the samples from the bound up to the seed are not picked and
    their intensities have been added to the total. *)
Definition left_inv (spec : list Peak1D) (picked : list bool) (i : nat)
  (t0 : Qc) (st : walk_state) : Prop :=
  bound st <= i /\
  (forall k, bound st <= k < i -> nth k picked false = false) /\
  total_intensity st
  = (t0 + sum_range (intensity_at spec) (bound st) (i - bound st))%Qc.

(** The same for a walk to the right. *)
Definition right_inv (spec : list Peak1D) (picked : list bool) (i : nat)
  (t0 : Qc) (st : walk_state) : Prop :=
  i <= bound st /\
  (forall k, i < k <= bound st -> nth k picked false = false) /\
  total_intensity st
  = (t0 + sum_range (intensity_at spec) (S i) (bound st - i))%Qc.

(** What holds of the loop over the seeds: the flags are those of the
    samples of the accepted spans, the spans are pairwise disjoint and lie
    within the spectrum, and the peaks emitted are the composites of the
    spans, in the order of acceptance. *)
Definition pick_inv (spec : list Peak1D) (st : pick_state) : Prop :=
  length (picked st) = length spec /\
  (forall k, nth k (picked st) false = true <->
             exists sp, In sp (spans st) /\ in_span k sp) /\
  ForallOrdPairs disjoint (spans st) /\
  (forall sp, In sp (spans st) -> fst sp <= snd sp < length spec) /\
  new_spec st = map (composite spec) (rev (spans st)).


(** The picker's arguments with [sequential=False]. *)
Definition by_intensity : config :=
  {| min_req := 1; window_size := PInf;
     small_peak := Q2Qc (1 # 10);
     strict := true; sequential := false |}.

(** Five samples at positions 1 to 5; walking left from the seed at index
    3 the intensities are 4, then 6 (an increase), then 5. *)
Definition bumpy : list Peak1D :=
  [mkPeak 1 (Qc_of_Z 5); mkPeak (Qc_of_Z 2) (Qc_of_Z 6);
   mkPeak (Qc_of_Z 3) (Qc_of_Z 4); mkPeak (Qc_of_Z 4) (Qc_of_Z 9);
   mkPeak (Qc_of_Z 5) (Qc_of_Z 3)].

(** Three samples around a maximum. *)
Definition triple : list Peak1D :=
  [mkPeak (Q2Qc (999 # 10)) (Qc_of_Z 6); mkPeak (Qc_of_Z 100) (Qc_of_Z 10);
   mkPeak (Q2Qc (1001 # 10)) (Qc_of_Z 5)].

(** ** Further definitions *)

Import Features.

(** What holds of every spectrum a run leaves in a bin: it is of MS level
    1, has at least one peak, as many ion mobilities as peaks, peaks of
    ascending m/z, and the retention time of an MS1 scan of the input. *)
Definition well_formed_spectrum (spectra : list MSSpectrum) (s : MSSpectrum)
  : Prop :=
  getMSLevel s = 1 /\
  peaks s <> [] /\
  length (fda s) = length (peaks s) /\
  StronglySorted (fun a b => (getPos a <= getPos b)%Qc) (peaks s) /\
  exists src, In src (ms1_only spectra) /\ getRT s = getRT src.

(** A hull moved by [(a, b)]. *)
Definition translate (a b : Qc) (hull : list (Qc * Qc)) : list (Qc * Qc) :=
  map (fun pt => (fst pt + a, snd pt + b)%Qc) hull.

(** The term a hull point adds to the shoelace sum. *)
Definition shoelace_term (hull : list (Qc * Qc)) (i : nat) : Qc :=
  (fst (hull_at hull i) * snd (hull_at hull ((i + 1) mod length hull))
   - snd (hull_at hull i) * fst (hull_at hull ((i + 1) mod length hull)))%Qc.

(** The corners of the box from [(x0, y0)] to [(x1, y1)], in order. *)
Definition box_corners (x0 y0 x1 y1 : Qc) : list (Qc * Qc) :=
  [(x0, y0); (x1, y0); (x1, y1); (x0, y1)].

(** The sample [k] is within the window of the seed [i]: the test of the
    walks does not stop at it. *)
Definition within_window (cfg : config) (spec : list Peak1D) (i k : nat)
  : Prop :=
  fgt (Fin (Qcabs (getPos (peak_at spec k) - getPos (peak_at spec i))%Qc))
      (window_size cfg) = false.

(** The sample [k] does not rise above its neighbour [k'] on the seed's
    side, unless the walk is not strict and [k'] is not the seed. *)
Definition falls_from (cfg : config) (spec : list Peak1D) (i k' k : nat)
  : Prop :=
  (intensity_at spec k <= intensity_at spec k')%Qc \/
  (strict cfg = false /\ k' <> i).

(** What holds of the samples a walk to the left of seed [i] has taken. *)
Definition left_shape (cfg : config) (spec : list Peak1D) (i : nat)
  (st : walk_state) : Prop :=
  bound st <= i /\
  n_picked st = Z.of_nat (i - bound st) /\
  (forall k, bound st <= k < i -> within_window cfg spec i k) /\
  (forall k, bound st <= k < i -> falls_from cfg spec i (S k) k).

(** The same for a walk to the right. *)
Definition right_shape (cfg : config) (spec : list Peak1D) (i : nat)
  (st : walk_state) : Prop :=
  i <= bound st /\
  n_picked st = Z.of_nat (bound st - i) /\
  (forall k, i < k <= bound st -> within_window cfg spec i k) /\
  (forall k, i < k <= bound st -> falls_from cfg spec i (k - 1) k).

(** The span [sp] is one the seed [i] can be accepted with: it holds at
    least [min_req] samples on either side of the seed, all within the
    window, none rising above its neighbour on the seed's side except as
    a walk that is not strict concedes. *)
Definition seed_span (cfg : config) (spec : list Peak1D) (i : nat)
  (sp : nat * nat) : Prop :=
  fst sp <= i <= snd sp /\ snd sp < length spec /\
  (min_req cfg <= Z.of_nat (i - fst sp))%Z /\
  (min_req cfg <= Z.of_nat (snd sp - i))%Z /\
  (forall k, in_span k sp -> k <> i -> within_window cfg spec i k) /\
  (forall k, fst sp <= k < i -> falls_from cfg spec i (S k) k) /\
  (forall k, i < k <= snd sp -> falls_from cfg spec i (k - 1) k).

(** The state the loop over the seeds starts from. *)
Definition nothing_picked (spec : list Peak1D) : pick_state :=
  {| picked := repeat false (length spec); new_spec := []; spans := [] |}.

(** Three samples of intensity zero. *)
Definition flat : list Peak1D :=
  [mkPeak 1 0; mkPeak (Qc_of_Z 2) 0; mkPeak (Qc_of_Z 3) 0].

(** An MS1 scan of the samples of [flat]. *)
Definition flat_scan : Spectrum :=
  {| ms_level := 1; ret_time := 0%Qc; get_peaks := flat;
     getFloatDataArrays := [] |}.

(** The samples of an inclusive span. *)
Definition span_samples (sp : nat * nat) : list nat :=
  seq (fst sp) (snd sp + 1 - fst sp).




(** The seed [a] is visited before the seed [b] when the seeds are taken
    by descending intensity: the higher intensity first, and of two equal
    intensities the higher index first. *)
Definition visited_before (spec : list Peak1D) (a b : nat) : Prop :=
  (intensity_at spec b < intensity_at spec a)%Qc \/
  (intensity_at spec a = intensity_at spec b /\ b < a).

(** What the picker makes of one MS1 scan: a scan of the same retention
    time, without float data arrays, holding the peaks picked from the
    samples in the order of their positions. *)
Definition picked_from (cfg : config) (src s : Spectrum) : Prop :=
  ms_level s = 1 /\ ret_time s = ret_time src /\
  getFloatDataArrays s = [] /\
  exists st,
    pick_sorted cfg (sorted getPos (get_peaks src)) = Ok st /\
    get_peaks s = new_spec st.

(** The MS1 scans of an experiment with all its float data arrays. *)
Definition ms1_spectra (spectra : list Spectrum) : list Spectrum :=
  filter (fun spec => (ms_level spec =? 1)%nat) spectra.

(** The spectrum as the binner reads it when its first float data array
    is [ims]. *)
Definition view (spec : Spectrum) (ims : list Qc) : MSSpectrum :=
  {| getMSLevel := ms_level spec; getRT := ret_time spec;
     peaks := get_peaks spec; fda := ims |}.

(** The spectra as the binner reads them, each with its first float data
    array. *)
Definition views (spectra : list Spectrum) : list MSSpectrum :=
  map (fun spec => view spec (hd [] (getFloatDataArrays spec))) spectra.

(** A scan without peaks and without float data arrays, and one with an
    empty float data array. *)
Definition bare_scan : Spectrum :=
  {| ms_level := 1; ret_time := 0%Qc; get_peaks := [];
     getFloatDataArrays := [] |}.

Definition hollow_scan : Spectrum :=
  {| ms_level := 1; ret_time := 0%Qc; get_peaks := [];
     getFloatDataArrays := [[]] |}.

(** The sum of the intensities of the peaks of a spectrum. *)
Definition intensity_sum (l : list Peak1D) : Qc :=
  fold_right (fun p acc => (getIntensity p + acc)%Qc) 0%Qc l.

(** The sum of the intensities of the samples of the spans. *)
Definition span_sum (spec : list Peak1D) (l : list (nat * nat)) : Qc :=
  fold_right
    (fun sp acc => (span_intensity spec (fst sp) (snd sp) + acc)%Qc) 0%Qc l.

(** The sample [k] lies in one of the spans. *)
Definition covered (l : list (nat * nat)) (k : nat) : bool :=
  existsb (fun sp => (fst sp <=? k) && (k <=? snd sp)) l.

(** The intensity of the sample [k] if the flag is set, else zero. *)
Definition intensity_if (spec : list Peak1D) (flag : nat -> bool) (k : nat)
  : Qc :=
  if flag k then intensity_at spec k else 0%Qc.










(** * Properties *)

(** ** The run time *)

Lemma bind_Ok {A B : Type} (m : result A) (k : A -> result B) (b : B) :
  bind m k = Ok b -> exists a, m = Ok a /\ k a = Ok b.
Proof.
  destruct m as [a|e]; simpl; intros H; [exists a; auto | discriminate].
Qed.

Ltac bind_inv H :=
  let a := fresh "a" in
  let Ha := fresh "Ha" in
  apply bind_Ok in H; destruct H as [a [Ha H]].

Lemma Qc_ltb_lt (x y : Qc) : Qc_ltb x y = true <-> (x < y)%Qc.
Proof.
  unfold Qc_ltb. rewrite Qclt_alt.
  destruct (x ?= y)%Qc; split; intros H; congruence.
Qed.

Lemma Qc_ltb_ge (x y : Qc) : Qc_ltb x y = false <-> (y <= x)%Qc.
Proof.
  split; intros H.
  - apply Qcnot_lt_le. intros L. apply Qc_ltb_lt in L. congruence.
  - destruct (Qc_ltb x y) eqn:E; auto.
    apply Qc_ltb_lt in E. exfalso. exact (Qcle_not_lt _ _ H E).
Qed.

Lemma Qc_eqb_eq (x y : Qc) : Qc_eqb x y = true <-> x = y.
Proof.
  unfold Qc_eqb. rewrite Qceq_alt.
  destruct (x ?= y)%Qc; split; intros H; congruence.
Qed.

Lemma Qc_eqb_neq (x y : Qc) : Qc_eqb x y = false <-> x <> y.
Proof.
  split; intros H.
  - intros E. apply Qc_eqb_eq in E. congruence.
  - destruct (Qc_eqb x y) eqn:E; auto.
    apply Qc_eqb_eq in E. contradiction.
Qed.

Lemma Qc_leb_le (x y : Qc) : Qc_leb x y = true <-> (x <= y)%Qc.
Proof.
  unfold Qc_leb. rewrite Qcle_alt.
  destruct (x ?= y)%Qc; split; intros H; congruence.
Qed.

Lemma py_index_lt (len : nat) (idx : Z) (k : nat) :
  py_index len idx = Ok k -> k < len.
Proof.
  unfold py_index. intros H.
  destruct (0 <=? idx)%Z eqn:E0.
  - destruct (idx <? Z.of_nat len)%Z eqn:E1; inversion H; subst. lia.
  - destruct (- Z.of_nat len <=? idx)%Z eqn:E1; inversion H; subst. lia.
Qed.

Lemma py_index_in_range (len : nat) (idx : Z) :
  (0 <= idx < Z.of_nat len)%Z -> py_index len idx = Ok (Z.to_nat idx).
Proof.
  intros H. unfold py_index.
  destruct (0 <=? idx)%Z eqn:E0; [|lia].
  destruct (idx <? Z.of_nat len)%Z eqn:E1; [reflexivity|lia].
Qed.

Lemma length_update {A : Type} (f : A -> A) (l : list A) (k : nat) :
  length (update l k f) = length l.
Proof.
  revert k. induction l as [|x l IH]; intros [|k]; simpl; auto.
Qed.

Lemma nth_update_same {A : Type} (f : A -> A) (d : A) (l : list A) (k : nat) :
  k < length l -> nth k (update l k f) d = f (nth k l d).
Proof.
  revert k. induction l as [|x l IH]; intros [|k] H; simpl in *;
    try lia; auto.
  apply IH. lia.
Qed.

Lemma nth_update_other {A : Type} (f : A -> A) (d : A) (l : list A)
  (k j : nat) :
  j <> k -> nth j (update l k f) d = nth j l d.
Proof.
  revert k j. induction l as [|x l IH]; intros [|k] [|j] H; simpl;
    try congruence; auto.
Qed.

Lemma update_id {A : Type} (f : A -> A) (d : A) (l : list A) (k : nat) :
  f (nth k l d) = nth k l d -> update l k f = l.
Proof.
  revert k. induction l as [|x l IH]; intros [|k] H; simpl in *; auto.
  - congruence.
  - f_equal. auto.
Qed.

Lemma concat_update_app {A : Type} (l : list (list A)) (k : nat) (t : list A) :
  k < length l ->
  Permutation (concat (update l k (fun b => b ++ t))) (concat l ++ t).
Proof.
  revert k. induction l as [|b l IH]; intros [|k] H; simpl in *; try lia.
  - rewrite <- !app_assoc. apply Permutation_app_head.
    apply Permutation_app_comm.
  - rewrite <- app_assoc. apply Permutation_app_head. apply IH. lia.
Qed.

Lemma concat_repeat_nil {A : Type} (n : nat) :
  concat (repeat (@nil A) n) = [].
Proof.
  induction n; simpl; auto.
Qed.

(** [sorted] permutes its argument. *)
Lemma insert_by_perm {A : Type} (key : A -> Qc) (x : A) (l : list A) :
  Permutation (insert_by key x l) (x :: l).
Proof.
  induction l as [|y l IH]; simpl; auto.
  destruct (Qc_ltb (key y) (key x)); auto.
  eapply perm_trans; [apply perm_skip, IH | apply perm_swap].
Qed.

Lemma sorted_perm {A : Type} (key : A -> Qc) (l : list A) :
  Permutation (sorted key l) l.
Proof.
  induction l as [|x l IH]; simpl; auto.
  eapply perm_trans; [apply insert_by_perm | apply perm_skip, IH].
Qed.

Lemma sorted_length {A : Type} (key : A -> Qc) (l : list A) :
  length (sorted key l) = length l.
Proof.
  apply Permutation_length, sorted_perm.
Qed.

Ltac Qc_discr H :=
  apply (f_equal Qc_trunc) in H; vm_compute in H; discriminate H.

(** ** Truncation and division on non-negative rationals *)

Lemma Qc_trunc_nonneg (q : Qc) :
  (0 <= q)%Qc -> Qc_trunc q = Qfloor q /\ (0 <= Qc_trunc q)%Z.
Proof.
  intros H. unfold Qc_trunc, Qfloor.
  assert (Hn : (0 <= Qnum q)%Z).
  { unfold Qcle, Qle in H. simpl in H. lia. }
  destruct (this q) as [n d] eqn:E. simpl in *.
  split.
  - apply Z.quot_div_nonneg; lia.
  - apply Z.quot_pos; lia.
Qed.

Lemma Qc_trunc_of_Z (n : Z) : Qc_trunc (Qc_of_Z n) = n.
Proof.
  unfold Qc_trunc, Qc_of_Z, Q2Qc. cbn [this].
  rewrite Qred_identity.
  - simpl. apply Z.quot_1_r.
  - simpl. apply Z.gcd_1_r.
Qed.

Lemma Qc_of_Z_neq_0 (n : Z) : n <> 0%Z -> Qc_of_Z n <> 0%Qc.
Proof.
  intros H E. apply H.
  rewrite <- (Qc_trunc_of_Z n), E. reflexivity.
Qed.

Lemma Qc_of_Z_pos (n : Z) : (0 < n)%Z -> (0 < Qc_of_Z n)%Qc.
Proof.
  intros H. unfold Qclt, Qc_of_Z, Q2Qc. cbn [this].
  rewrite !Qred_correct. unfold Qlt. simpl. lia.
Qed.

Lemma Qcinv_pos (b : Qc) : (0 < b)%Qc -> (0 < / b)%Qc.
Proof.
  intros H. unfold Qclt, Qcinv, Q2Qc in *. cbn [this] in *.
  rewrite !Qred_correct. rewrite !Qred_correct in H.
  apply Qinv_lt_0_compat. exact H.
Qed.

Lemma Qcdiv_nonneg (x b : Qc) : (0 <= x)%Qc -> (0 < b)%Qc -> (0 <= x / b)%Qc.
Proof.
  intros Hx Hb. unfold Qcdiv.
  rewrite <- (Qcmult_0_l (/ b)).
  apply Qcmult_le_compat_r; [exact Hx|].
  apply Qclt_le_weak, Qcinv_pos, Hb.
Qed.

Lemma Qcminus_nonneg (x y : Qc) : (y <= x)%Qc -> (0 <= x - y)%Qc.
Proof.
  intros H. unfold Qcminus. apply -> Qcle_minus_iff. exact H.
Qed.

Lemma Qc_pos_neq_0 (b : Qc) : (0 < b)%Qc -> b <> 0%Qc.
Proof.
  intros H E. subst. exact (Qclt_not_eq _ _ H eq_refl).
Qed.

Lemma fdiv_Fin (x b : Qc) : b <> 0%Qc -> fdiv (Fin x) (Fin b) = Ok (Fin (x / b)%Qc).
Proof.
  intros H. unfold fdiv. apply Qc_eqb_neq in H. rewrite H. reflexivity.
Qed.

Lemma fdiv_zero (a : pyfloat) : fdiv a (Fin 0%Qc) = Raise ZeroDivisionError.
Proof.
  reflexivity.
Qed.

Lemma Qcdiv_neq_0 (x y : Qc) : x <> 0%Qc -> y <> 0%Qc -> (x / y)%Qc <> 0%Qc.
Proof.
  intros Hx Hy E. unfold Qcdiv in E.
  apply Qcmult_integral in E. destruct E as [E|E]; [contradiction|].
  pose proof (Qcmult_inv_r y Hy) as H. rewrite E, Qcmult_0_r in H.
  apply Qcanon.Q_apart_0_1. symmetry. exact H.
Qed.

Lemma Qcdiv_self_minus (a n : Qc) : ((a - a) / n)%Qc = 0%Qc.
Proof.
  unfold Qcdiv, Qcminus. rewrite Qcplus_opp_r. apply Qcmult_0_l.
Qed.

Lemma Qcdiv_pos (x y : Qc) : (0 < x)%Qc -> (0 < y)%Qc -> (0 < x / y)%Qc.
Proof.
  intros Hx Hy. unfold Qcdiv. rewrite <- (Qcmult_0_l (/ y)).
  apply Qcmult_lt_compat_r; [apply Qcinv_pos; exact Hy | exact Hx].
Qed.

Lemma Qcplus_pos_nonneg (x y : Qc) : (0 < x)%Qc -> (0 <= y)%Qc -> (0 < x + y)%Qc.
Proof.
  intros Hx Hy. apply Qclt_le_trans with (y := x); [exact Hx|].
  rewrite <- (Qcplus_0_r x) at 1.
  apply Qcplus_le_compat; [apply Qcle_refl | exact Hy].
Qed.

(** ** [sorted] sorts, and leaves a sorted list as it is *)

Section SortedFacts.
Context {A : Type} (key : A -> Qc).

Let key_le (a b : A) : Prop := (key a <= key b)%Qc.

Lemma insert_by_HdRel (a x : A) (l : list A) :
  key_le a x -> HdRel key_le a l -> HdRel key_le a (insert_by key x l).
Proof.
  intros Hax Hal. destruct l as [|y l]; simpl.
  - constructor. exact Hax.
  - destruct (Qc_ltb (key y) (key x)); constructor.
    + inversion Hal; assumption.
    + exact Hax.
Qed.

Lemma insert_by_Sorted (x : A) (l : list A) :
  Sorted key_le l -> Sorted key_le (insert_by key x l).
Proof.
  induction 1 as [|y l HS IH HR]; simpl.
  - repeat constructor.
  - destruct (Qc_ltb (key y) (key x)) eqn:E.
    + constructor; [exact IH|].
      apply insert_by_HdRel; [|exact HR].
      apply Qclt_le_weak, Qc_ltb_lt, E.
    + constructor; [constructor; assumption|].
      constructor. apply Qc_ltb_ge, E.
Qed.

Lemma sorted_Sorted (l : list A) : Sorted key_le (sorted key l).
Proof.
  induction l as [|x l IH]; simpl; [constructor|].
  apply insert_by_Sorted, IH.
Qed.

Lemma sorted_fixed (l : list A) : Sorted key_le l -> sorted key l = l.
Proof.
  induction 1 as [|x l HS IH HR]; simpl; [reflexivity|].
  rewrite IH. destruct HR as [|y l' Hxy]; simpl; [reflexivity|].
  assert (E : Qc_ltb (key y) (key x) = false) by (apply Qc_ltb_ge, Hxy).
  rewrite E. reflexivity.
Qed.

Lemma sorted_idempotent (l : list A) :
  sorted key (sorted key l) = sorted key l.
Proof.
  apply sorted_fixed, sorted_Sorted.
Qed.
End SortedFacts.

Lemma sorted_nonempty {A : Type} (key : A -> Qc) (l : list A) :
  l <> [] -> exists x l', sorted key l = x :: l'.
Proof.
  intros H. destruct (sorted key l) as [|x l'] eqn:E.
  - apply (f_equal (@length A)) in E. rewrite sorted_length in E.
    destruct l; [contradiction H; reflexivity | discriminate].
  - eauto.
Qed.

(** ** C2: the primary bin index *)

(** The index of a point that is not below [first_im]. *)
Lemma primary_bin_idx_in_range (g : globals) (p : point) (f b : Qc) :
  first_im g = Fin f ->
  bin_size g = Fin b ->
  (0 < b)%Qc ->
  (1 <= num_bins g)%Z ->
  (f <= p_im p)%Qc ->
  primary_bin_idx g p = Ok (clamped_floor_idx f b (num_bins g) (p_im p)) /\
  (0 <= clamped_floor_idx f b (num_bins g) (p_im p) < num_bins g)%Z.
Proof.
  intros Hf Hb Hpos Hn Him.
  assert (Hq : (0 <= (p_im p - f) / b)%Qc).
  { apply Qcdiv_nonneg; [apply Qcminus_nonneg; exact Him | exact Hpos]. }
  destruct (Qc_trunc_nonneg _ Hq) as [Ht Ht0]. split.
  - unfold primary_bin_idx. rewrite Hf, Hb. simpl fsub.
    rewrite fdiv_Fin by (apply Qc_pos_neq_0; exact Hpos).
    simpl. f_equal. unfold clamped_floor_idx. rewrite <- Ht.
    destruct (Qc_trunc ((p_im p - f) / b) >=? num_bins g)%Z eqn:E; lia.
  - unfold clamped_floor_idx. rewrite <- Ht. lia.
Qed.

(** C2, as stated, fails below [first_im]: at ion mobility -5/2 the
    specification's index is 0, the program computes -2 (no lower clamp,
    and [int] truncates toward zero), and the point lands in the list at
    position 2. *)
Lemma primary_bin_idx_below_first_im :
  let p := point_at_im (Q2Qc (-5 # 2)) in
  clamped_floor_idx 0 1 4 (p_im p) = 0%Z /\
  primary_bin_idx four_unit_bins p = Ok (-2)%Z /\
  py_index 4 (-2) = Ok 2.
Proof.
  vm_compute. auto.
Qed.

(** C2, amended: for a point whose ion mobility is not below [first_im]
    (bins of positive width, at least one bin) the primary index is the
    floor of [(im - first_im) / bin_size] clamped to [[0, num_bins - 1]],
    it is an index in range, and when [bin_size] is the range divided by
    [num_bins] a point at [last_im] gets index [num_bins - 1]. *)
Theorem primary_bin_idx_clamped (g : globals) (p : point) (f b : Qc) :
  first_im g = Fin f ->
  bin_size g = Fin b ->
  (0 < b)%Qc ->
  (1 <= num_bins g)%Z ->
  (f <= p_im p)%Qc ->
  primary_bin_idx g p = Ok (clamped_floor_idx f b (num_bins g) (p_im p)) /\
  (0 <= clamped_floor_idx f b (num_bins g) (p_im p) < num_bins g)%Z /\
  (forall l : Qc,
      last_im g = Fin l -> (f < l)%Qc ->
      b = ((l - f) / Qc_of_Z (num_bins g))%Qc ->
      p_im p = l ->
      primary_bin_idx g p = Ok (num_bins g - 1)%Z).
Proof.
  intros Hf Hb Hpos Hn Him.
  destruct (primary_bin_idx_in_range g p f b Hf Hb Hpos Hn Him)
    as [Hidx Hrange].
  split; [exact Hidx|]. split; [exact Hrange|].
  intros l Hl Hlt Hbs Hp. rewrite Hidx. f_equal.
  assert (Hq : (0 <= (p_im p - f) / b)%Qc).
  { apply Qcdiv_nonneg; [apply Qcminus_nonneg; exact Him | exact Hpos]. }
  destruct (Qc_trunc_nonneg _ Hq) as [Ht _].
  unfold clamped_floor_idx. rewrite <- Ht.
  assert (Hn0 : Qc_of_Z (num_bins g) <> 0%Qc)
    by (apply Qc_of_Z_neq_0; lia).
  assert (Hlf : (l - f)%Qc <> 0%Qc).
  { apply Qc_pos_neq_0. unfold Qcminus. apply -> Qclt_minus_iff. exact Hlt. }
  assert (E : ((p_im p - f) / b)%Qc = Qc_of_Z (num_bins g)).
  { rewrite Hp, Hbs. field. split; assumption. }
  rewrite E, Qc_trunc_of_Z. lia.
Qed.

(** The theorem at a point on the upper edge of [four_unit_bins]. *)
Lemma primary_bin_idx_clamped_witness :
  primary_bin_idx four_unit_bins (point_at_im (Qc_of_Z 4)) = Ok 3%Z.
Proof.
  refine (proj2 (proj2
    (primary_bin_idx_clamped four_unit_bins (point_at_im (Qc_of_Z 4)) 0%Qc 1%Qc
       eq_refl eq_refl _ _ _)) (Qc_of_Z 4) eq_refl _ _ eq_refl).
  - reflexivity.
  - simpl. lia.
  - unfold Qcle. simpl. unfold Qle. simpl. lia.
  - reflexivity.
  - apply Qc_is_canon. reflexivity.
Defined.

(** ** Step 1 of [bin_spectrum]: every point lands in one list of each pass *)

Lemma append_at_spec {A : Type} (l l' : list (list A)) (idx : Z) (x : A) :
  append_at l idx x = Ok l' ->
  length l' = length l /\ Permutation (concat l') (concat l ++ [x]).
Proof.
  unfold append_at. intros H. bind_inv H. inversion H; subst.
  apply py_index_lt in Ha. split.
  - apply length_update.
  - apply concat_update_app; assumption.
Qed.

Lemma assign_point_spec (g : globals) (p : point)
  (tb tb2 tb' tb2' : list (list point)) :
  assign_point g p (tb, tb2) = Ok (tb', tb2') ->
  (length tb' = length tb /\ Permutation (concat tb') (concat tb ++ [p])) /\
  (length tb2' = length tb2 /\ Permutation (concat tb2') (concat tb2 ++ [p])).
Proof.
  unfold assign_point. intros H.
  bind_inv H. bind_inv H. bind_inv H. bind_inv H.
  inversion H; subst. split; eapply append_at_spec; eassumption.
Qed.

Lemma assign_loop_spec (g : globals) (l : list point) :
  forall tb tb2 tb' tb2',
    for_each (assign_point g) l (tb, tb2) = Ok (tb', tb2') ->
    (length tb' = length tb /\ Permutation (concat tb') (concat tb ++ l)) /\
    (length tb2' = length tb2 /\ Permutation (concat tb2') (concat tb2 ++ l)).
Proof.
  induction l as [|p l IH]; simpl; intros tb tb2 tb' tb2' H.
  - inversion H; subst. rewrite !app_nil_r. auto.
  - bind_inv H. destruct a as [tb1 tb21].
    apply assign_point_spec in Ha. apply IH in H.
    destruct Ha as [[L1 P1] [L2 P2]]. destruct H as [[L1' P1'] [L2' P2']].
    repeat split; try congruence.
    + eapply perm_trans; [exact P1'|].
      eapply perm_trans; [apply Permutation_app_tail, P1|].
      rewrite <- app_assoc. reflexivity.
    + eapply perm_trans; [exact P2'|].
      eapply perm_trans; [apply Permutation_app_tail, P2|].
      rewrite <- app_assoc. reflexivity.
Qed.

Lemma secondary_bin_idx_range (g : globals) (p : point) (b o : Qc) :
  bin_size g = Fin b ->
  offset_im g = Fin o ->
  (0 < b)%Qc ->
  (0 <= num_bins g)%Z ->
  exists k, secondary_bin_idx g p = Ok k /\ (0 <= k <= num_bins g)%Z.
Proof.
  intros Hb Ho Hpos Hn. unfold secondary_bin_idx. rewrite Hb, Ho.
  simpl flt. destruct (Qc_ltb (p_im p) o) eqn:E.
  - exists 0%Z. split; [reflexivity | lia].
  - apply Qc_ltb_ge in E. simpl fsub.
    rewrite fdiv_Fin by (apply Qc_pos_neq_0; exact Hpos). simpl.
    assert (Hq : (0 <= (p_im p - o) / b)%Qc).
    { apply Qcdiv_nonneg; [apply Qcminus_nonneg; exact E | exact Hpos]. }
    destruct (Qc_trunc_nonneg _ Hq) as [_ Ht].
    eexists. split; [reflexivity|].
    destruct (Qc_trunc ((p_im p - o) / b) + 1 >? num_bins g)%Z eqn:E1; lia.
Qed.

Lemma append_at_total {A : Type} (l : list (list A)) (idx : Z) (x : A) :
  (0 <= idx < Z.of_nat (length l))%Z -> exists l', append_at l idx x = Ok l'.
Proof.
  intros H. unfold append_at. rewrite py_index_in_range by exact H.
  simpl. eexists. reflexivity.
Qed.

Lemma assign_point_total (g : globals) (p : point) (f b o : Qc)
  (tb tb2 : list (list point)) :
  first_im g = Fin f ->
  bin_size g = Fin b ->
  offset_im g = Fin o ->
  (0 < b)%Qc ->
  (1 <= num_bins g)%Z ->
  (f <= p_im p)%Qc ->
  length tb = Z.to_nat (num_bins g) ->
  length tb2 = Z.to_nat (num_bins g + 1) ->
  exists r, assign_point g p (tb, tb2) = Ok r.
Proof.
  intros Hf Hb Ho Hpos Hn Him L1 L2. unfold assign_point.
  destruct (primary_bin_idx_in_range g p f b Hf Hb Hpos Hn Him) as [E1 R1].
  rewrite E1. simpl.
  destruct (append_at_total tb
              (clamped_floor_idx f b (num_bins g) (p_im p)) p) as [tb' E2].
  { rewrite L1. lia. }
  rewrite E2. simpl.
  destruct (secondary_bin_idx_range g p b o Hb Ho Hpos) as [k [E3 R3]];
    [lia|].
  rewrite E3. simpl.
  destruct (append_at_total tb2 k p) as [tb2' E4].
  { rewrite L2. lia. }
  rewrite E4. simpl. eexists. reflexivity.
Qed.

Lemma assign_loop_total (g : globals) (f b o : Qc) :
  first_im g = Fin f ->
  bin_size g = Fin b ->
  offset_im g = Fin o ->
  (0 < b)%Qc ->
  (1 <= num_bins g)%Z ->
  forall (l : list point) (tb tb2 : list (list point)),
    (forall p, In p l -> (f <= p_im p)%Qc) ->
    length tb = Z.to_nat (num_bins g) ->
    length tb2 = Z.to_nat (num_bins g + 1) ->
    exists r, for_each (assign_point g) l (tb, tb2) = Ok r.
Proof.
  intros Hf Hb Ho Hpos Hn.
  induction l as [|p l IH]; intros tb tb2 Hl L1 L2; cbn [for_each].
  - eexists. reflexivity.
  - destruct (assign_point_total g p f b o tb tb2) as [[tb' tb2'] E]; auto.
    { apply Hl. left. reflexivity. }
    rewrite E. cbn [bind].
    apply assign_point_spec in E. destruct E as [[L1' _] [L2' _]].
    apply IH; try congruence.
    intros q Hq. apply Hl. right. exact Hq.
Qed.

(** ** C7: partition completeness *)

(** C7: when step 1 of [bin_spectrum] completes, the temporary bins of each
    pass hold, between them, every point of the scan exactly once (their
    concatenation is a permutation of the scan's points), so both passes
    hold as many points as the scan; and step 1 does complete when the
    bins have positive width, there is at least one bin, and no point lies
    below [first_im]. *)
Theorem assign_points_partition (g : globals) (spec : MSSpectrum) :
  (forall tb tb2 : list (list point),
      assign_points g (sorted p_im (get_points spec)) = Ok (tb, tb2) ->
      length tb = Z.to_nat (num_bins g) /\
      length tb2 = Z.to_nat (num_bins g + 1) /\
      Permutation (concat tb) (get_points spec) /\
      Permutation (concat tb2) (get_points spec) /\
      length (concat tb) = length (get_points spec) /\
      length (concat tb2) = length (get_points spec)) /\
  (forall f b o : Qc,
      first_im g = Fin f ->
      bin_size g = Fin b ->
      offset_im g = Fin o ->
      (0 < b)%Qc ->
      (1 <= num_bins g)%Z ->
      (forall p, In p (get_points spec) -> (f <= p_im p)%Qc) ->
      exists tb tb2,
        assign_points g (sorted p_im (get_points spec)) = Ok (tb, tb2)).
Proof.
  split.
  - intros tb tb2 H. unfold assign_points in H.
    apply assign_loop_spec in H. destruct H as [[L1 P1] [L2 P2]].
    rewrite repeat_length in L1, L2.
    rewrite concat_repeat_nil in P1, P2. simpl in P1, P2.
    pose proof (sorted_perm p_im (get_points spec)) as PS.
    assert (Q1 : Permutation (concat tb) (get_points spec))
      by (eapply perm_trans; eassumption).
    assert (Q2 : Permutation (concat tb2) (get_points spec))
      by (eapply perm_trans; eassumption).
    repeat split; auto using Permutation_length.
  - intros f b o Hf Hb Ho Hpos Hn Hall. unfold assign_points.
    destruct (assign_loop_total g f b o Hf Hb Ho Hpos Hn
                (sorted p_im (get_points spec))
                (repeat [] (Z.to_nat (num_bins g)))
                (repeat [] (Z.to_nat (num_bins g + 1)))) as [[tb tb2] E].
    + intros p Hp. apply Hall.
      eapply Permutation_in; [apply sorted_perm | exact Hp].
    + apply repeat_length.
    + apply repeat_length.
    + exists tb, tb2. exact E.
Qed.

(** The theorem at a point on the upper edge of [four_unit_bins]. *)
Lemma assign_points_partition_witness :
  exists tb tb2,
    assign_points four_unit_bins
      (sorted p_im (get_points (single_point_scan 1 (Qc_of_Z 4))))
    = Ok (tb, tb2).
Proof.
  apply (proj2 (assign_points_partition four_unit_bins
                  (single_point_scan 1 (Qc_of_Z 4)))
           0%Qc 1%Qc (Q2Qc (1 # 2)));
    try reflexivity.
  - simpl. lia.
  - intros p [Hp|[]]. subst p. simpl. unfold Qcle, Qle. simpl. lia.
Defined.

(** ** The aggregation of a bin whose m/z values are pairwise distinct *)

Lemma set_intensity_same (p : point) : set_intensity (p_intensity p) p = p.
Proof.
  destruct p; reflexivity.
Qed.

Lemma write_slice_one (l : list point) (k : nat) :
  write_slice l k 1 (p_intensity (nth k l no_point)) = l.
Proof.
  unfold write_slice. simpl.
  apply update_id with (d := no_point). apply set_intensity_same.
Qed.

Lemma NoDup_mz_nth (l : list point) (i j : nat) :
  NoDup (map p_mz l) ->
  i < length l -> j < length l -> i <> j ->
  p_mz (nth i l no_point) <> p_mz (nth j l no_point).
Proof.
  intros ND Hi Hj Hij E. apply Hij.
  rewrite (NoDup_nth (map p_mz l) (p_mz no_point)) in ND.
  apply ND; rewrite ?length_map; auto.
  rewrite !map_nth. exact E.
Qed.

Lemma agg_loop_distinct (l : list point) :
  NoDup (map p_mz l) ->
  forall j, j <= length l ->
    fold_left agg_step (seq 0 j) (singleton_state l 0) = singleton_state l j.
Proof.
  intros ND. induction j as [|j IH]; intros Hj; [reflexivity|].
  rewrite seq_S, fold_left_app, IH by lia. simpl fold_left.
  destruct j as [|k].
  - unfold agg_step. simpl.
    assert (E : Qc_eqb (p_mz (nth 0 l no_point)) (p_mz (nth 0 l no_point)) = true)
      by (apply Qc_eqb_eq; reflexivity).
    rewrite E. simpl. rewrite Qcplus_0_l. reflexivity.
  - unfold agg_step. cbn [singleton_state pts curr_mz mz_start num_mz
                           running_intensity].
    assert (E : Qc_eqb (p_mz (nth (S k) l no_point))
                       (p_mz (nth k l no_point)) = false).
    { apply Qc_eqb_neq. apply NoDup_mz_nth; auto; lia. }
    rewrite E. rewrite write_slice_one. reflexivity.
Qed.

Lemma aggregate_sorted_distinct (l : list point) :
  NoDup (map p_mz l) -> aggregate_sorted l = l.
Proof.
  intros ND. unfold aggregate_sorted.
  change {| pts := l; mz_start := 0; num_mz := 0;
            curr_mz := p_mz (nth 0 l no_point);
            running_intensity := 0%Qc |} with (singleton_state l 0).
  rewrite (agg_loop_distinct l ND) by lia.
  destruct (length l) as [|k]; simpl; [reflexivity|].
  apply write_slice_one.
Qed.

Lemma aggregate_distinct (l : list point) :
  NoDup (map p_mz l) -> aggregate l = sorted p_mz l.
Proof.
  intros ND. unfold aggregate. apply aggregate_sorted_distinct.
  eapply Permutation_NoDup; [|exact ND].
  apply Permutation_map, Permutation_sym, sorted_perm.
Qed.

Lemma sum_intensity_perm (l l' : list point) :
  Permutation l l' -> sum_intensity l = sum_intensity l'.
Proof.
  induction 1; simpl; try congruence.
  rewrite !Qcplus_assoc. f_equal. apply Qcplus_comm.
Qed.

(** ** The aggregation in general: every point gets the total of its m/z *)

Lemma update_app_r {A : Type} (f : A -> A) (l1 l2 : list A) (k : nat) :
  update (l1 ++ l2) (length l1 + k) f = l1 ++ update l2 k f.
Proof.
  induction l1 as [|x l1 IH]; simpl; [reflexivity|].
  rewrite IH. reflexivity.
Qed.

Lemma write_slice_prefix (v : Qc) (n : nat) :
  forall (cur rest : list point),
    length cur = n ->
    fold_left (fun l k => update l k (set_intensity v)) (seq 0 n) (cur ++ rest)
    = map (set_intensity v) cur ++ rest.
Proof.
  induction n as [|n IH]; intros cur rest Hlen.
  - destruct cur; [reflexivity | discriminate].
  - destruct cur as [|c cur] using rev_ind; [discriminate|].
    rewrite length_app in Hlen. simpl in Hlen.
    rewrite seq_S, fold_left_app. simpl.
    rewrite <- app_assoc. rewrite IH by lia.
    replace n with (length (map (set_intensity v) cur) + 0)
      by (rewrite length_map; lia).
    rewrite update_app_r. simpl. rewrite map_app, <- app_assoc. reflexivity.
Qed.

Lemma fold_update_shift (v : Qc) (done : list point) (n : nat) :
  forall (a : nat) (l : list point),
    fold_left (fun l k => update l k (set_intensity v))
      (seq (length done + a) n) (done ++ l)
    = done ++ fold_left (fun l k => update l k (set_intensity v)) (seq a n) l.
Proof.
  induction n as [|n IH]; intros a l; [reflexivity|].
  simpl. rewrite update_app_r.
  replace (S (length done + a)) with (length done + S a) by lia.
  apply IH.
Qed.

Lemma write_slice_app (done cur rest : list point) (v : Qc) :
  write_slice (done ++ cur ++ rest) (length done) (length cur) v
  = done ++ map (set_intensity v) cur ++ rest.
Proof.
  unfold write_slice.
  replace (length done) with (length done + 0) at 1 by lia.
  rewrite fold_update_shift. f_equal.
  apply write_slice_prefix. reflexivity.
Qed.

Lemma nth_middle_app (done cur rest : list point) (x : point) :
  nth (length done + length cur) (done ++ cur ++ x :: rest) no_point = x.
Proof.
  rewrite app_assoc, <- length_app. apply nth_middle.
Qed.

(** The loop over the indices computes [agg_runs]. *)
Lemma agg_loop_runs (rest : list point) :
  forall (done cur : list point) (m s : Qc),
    agg_finish
      (fold_left agg_step (seq (length done + length cur) (length rest))
         {| pts := done ++ cur ++ rest; mz_start := length done;
            num_mz := length cur; curr_mz := m; running_intensity := s |})
    = done ++ agg_runs cur m s rest.
Proof.
  induction rest as [|x rest IH]; intros done cur m s.
  - simpl. unfold agg_finish. cbn [num_mz pts mz_start running_intensity].
    destruct cur as [|c cur]; [simpl; rewrite app_nil_r; reflexivity|].
    simpl Nat.ltb. cbv iota. rewrite write_slice_app, !app_nil_r. reflexivity.
  - cbn [length seq fold_left agg_runs]. unfold agg_step at 2.
    cbn [pts curr_mz mz_start num_mz running_intensity].
    rewrite nth_middle_app.
    destruct (Qc_eqb (p_mz x) m) eqn:E.
    + replace (done ++ cur ++ x :: rest) with (done ++ (cur ++ [x]) ++ rest)
        by (rewrite <- app_assoc; reflexivity).
      replace (S (length cur)) with (length (cur ++ [x]))
        by (rewrite length_app; simpl; lia).
      replace (S (length done + length cur))
        with (length done + length (cur ++ [x]))
        by (rewrite length_app; simpl; lia).
      apply IH.
    + rewrite write_slice_app. cbv zeta.
      replace (done ++ map (set_intensity s) cur ++ x :: rest)
        with ((done ++ map (set_intensity s) cur) ++ [x] ++ rest)
        by (rewrite <- app_assoc; reflexivity).
      assert (Hlen : length done + length cur
                     = length (done ++ map (set_intensity s) cur))
        by (rewrite length_app, length_map; reflexivity).
      rewrite Hlen.
      assert (Hx : nth (length (done ++ map (set_intensity s) cur))
                     ((done ++ map (set_intensity s) cur) ++ [x] ++ rest)
                     no_point = x) by apply nth_middle.
      rewrite Hx.
      replace (S (length (done ++ map (set_intensity s) cur)))
        with (length (done ++ map (set_intensity s) cur) + length [x])
        by (simpl; lia).
      change 1 with (length [x]).
      rewrite IH. rewrite <- app_assoc. reflexivity.
Qed.

Lemma aggregate_sorted_runs (l : list point) :
  aggregate_sorted l = agg_runs [] (p_mz (nth 0 l no_point)) 0%Qc l.
Proof.
  unfold aggregate_sorted.
  exact (agg_loop_runs l [] [] (p_mz (nth 0 l no_point)) 0%Qc).
Qed.

Lemma sum_intensity_app (a b : list point) :
  sum_intensity (a ++ b) = (sum_intensity a + sum_intensity b)%Qc.
Proof.
  induction a as [|x a IH]; simpl.
  - rewrite Qcplus_0_l. reflexivity.
  - rewrite IH, Qcplus_assoc. reflexivity.
Qed.

Lemma mz_total_app (a b : list point) (m : Qc) :
  mz_total (a ++ b) m = (mz_total a m + mz_total b m)%Qc.
Proof.
  unfold mz_total. rewrite filter_app. apply sum_intensity_app.
Qed.

Lemma mz_total_none (l : list point) (m : Qc) :
  (forall y, In y l -> p_mz y <> m) -> mz_total l m = 0%Qc.
Proof.
  unfold mz_total. induction l as [|x l IH]; intros H; simpl; [reflexivity|].
  assert (E : Qc_eqb (p_mz x) m = false)
    by (apply Qc_eqb_neq, H; left; reflexivity).
  rewrite E. apply IH. intros y Hy. apply H. right. exact Hy.
Qed.

Lemma mz_total_all (l : list point) (m : Qc) :
  (forall y, In y l -> p_mz y = m) -> mz_total l m = sum_intensity l.
Proof.
  unfold mz_total. induction l as [|x l IH]; intros H; simpl; [reflexivity|].
  assert (E : Qc_eqb (p_mz x) m = true)
    by (apply Qc_eqb_eq, H; left; reflexivity).
  rewrite E. simpl. f_equal. apply IH. intros y Hy. apply H. right. exact Hy.
Qed.

Lemma mz_total_perm (l l' : list point) (m : Qc) :
  Permutation l l' -> mz_total l m = mz_total l' m.
Proof.
  intros H. unfold mz_total. apply sum_intensity_perm.
  induction H; simpl.
  - constructor.
  - destruct (Qc_eqb (p_mz x) m); [constructor|]; assumption.
  - destruct (Qc_eqb (p_mz x) m), (Qc_eqb (p_mz y) m);
      try constructor; apply Permutation_refl.
  - eapply perm_trans; eassumption.
Qed.

(** The slice [cur], between points of smaller m/z and sorted points of
    m/z not smaller, receives the total of its m/z. *)
Lemma slice_total (pre cur rest : list point) (m : Qc) :
  (forall y, In y pre -> (p_mz y < m)%Qc) ->
  (forall y, In y cur -> p_mz y = m) ->
  (forall y, In y rest -> (m < p_mz y)%Qc) ->
  map (set_intensity (sum_intensity cur)) cur
  = map (with_mz_total (pre ++ cur ++ rest)) cur.
Proof.
  intros Hpre Hcur Hrest. apply map_ext_in. intros y Hy.
  unfold with_mz_total. rewrite (Hcur y Hy). f_equal.
  rewrite !mz_total_app.
  rewrite (mz_total_none pre), (mz_total_all cur), (mz_total_none rest).
  - rewrite Qcplus_0_l, Qcplus_0_r. reflexivity.
  - intros z Hz E. apply (Qclt_not_eq _ _ (Hrest z Hz)). symmetry. exact E.
  - exact Hcur.
  - intros z Hz. apply Qclt_not_eq, Hpre, Hz.
Qed.

Lemma agg_runs_sorted (rest : list point) :
  forall (pre cur : list point) (m : Qc),
    (forall y, In y pre -> (p_mz y < m)%Qc) ->
    (forall y, In y cur -> p_mz y = m) ->
    (forall y, In y rest -> (m <= p_mz y)%Qc) ->
    StronglySorted (fun a b => (p_mz a <= p_mz b)%Qc) rest ->
    agg_runs cur m (sum_intensity cur) rest
    = map (with_mz_total (pre ++ cur ++ rest)) (cur ++ rest).
Proof.
  induction rest as [|x rest IH]; intros pre cur m Hpre Hcur Hrest Hs.
  - simpl. rewrite !app_nil_r.
    rewrite (slice_total pre cur [] m Hpre Hcur) by (intros y []).
    rewrite app_nil_r. reflexivity.
  - cbn [agg_runs]. inversion Hs as [|? ? Hs' Hx]; subst.
    rewrite Forall_forall in Hx.
    destruct (Qc_eqb (p_mz x) m) eqn:E.
    + apply Qc_eqb_eq in E.
      replace (sum_intensity cur + p_intensity x)%Qc
        with (sum_intensity (cur ++ [x]))
        by (rewrite sum_intensity_app; simpl; rewrite Qcplus_0_r; reflexivity).
      rewrite (IH pre (cur ++ [x]) m); auto.
      * rewrite <- !app_assoc. reflexivity.
      * intros y Hy. apply in_app_or in Hy.
        destruct Hy as [Hy|[Hy|[]]]; [auto | subst y; exact E].
      * intros y Hy. apply Hrest. right. exact Hy.
    + apply Qc_eqb_neq in E.
      assert (Hlt : (m < p_mz x)%Qc).
      { destruct (Qcle_lt_or_eq _ _ (Hrest x (or_introl eq_refl)))
          as [H|H]; [exact H | congruence]. }
      replace (p_intensity x) with (sum_intensity [x])
        by (simpl; apply Qcplus_0_r).
      rewrite (IH (pre ++ cur) (x :: nil) (p_mz x)); auto.
      * change ((x :: nil) ++ rest) with (x :: rest).
        rewrite <- (app_assoc pre cur (x :: rest)).
        rewrite (map_app _ cur (x :: rest)). f_equal.
        apply (slice_total pre cur (x :: rest) m Hpre Hcur).
        intros y [Hy|Hy]; [subst y; exact Hlt|].
        eapply Qclt_le_trans; [exact Hlt | apply Hx, Hy].
      * intros y Hy. apply in_app_or in Hy. destruct Hy as [Hy|Hy].
        -- eapply Qclt_trans; [apply Hpre, Hy | exact Hlt].
        -- rewrite (Hcur y Hy). exact Hlt.
      * intros y [Hy|[]]. subst y. reflexivity.
Qed.

Lemma sorted_StronglySorted (l : list point) :
  StronglySorted (fun a b => (p_mz a <= p_mz b)%Qc) (sorted p_mz l).
Proof.
  apply Sorted_StronglySorted.
  - intros a b c. apply Qcle_trans.
  - apply sorted_Sorted.
Qed.

(** The aggregation of any bin: the points sorted by m/z, each with the
    summed intensity of the points of the bin at its m/z. *)
Lemma aggregate_mz_totals (l : list point) :
  aggregate l = map (with_mz_total l) (sorted p_mz l).
Proof.
  unfold aggregate. rewrite aggregate_sorted_runs.
  pose proof (sorted_StronglySorted l) as Hs.
  pose proof (sorted_perm p_mz l) as Hp.
  assert (Hext : map (with_mz_total (sorted p_mz l)) (sorted p_mz l)
                 = map (with_mz_total l) (sorted p_mz l)).
  { apply map_ext. intros p. unfold with_mz_total. f_equal.
    apply mz_total_perm. exact Hp. }
  rewrite <- Hext. clear Hext Hp.
  destruct (sorted p_mz l) as [|x rest]; [reflexivity|].
  cbn [nth agg_runs].
  assert (E : Qc_eqb (p_mz x) (p_mz x) = true) by (apply Qc_eqb_eq; reflexivity).
  rewrite E. inversion Hs as [|? ? Hs' Hx]; subst.
  rewrite Forall_forall in Hx.
  replace (0 + p_intensity x)%Qc with (sum_intensity [x])
    by (simpl; rewrite Qcplus_0_l, Qcplus_0_r; reflexivity).
  apply (agg_runs_sorted rest nil (x :: nil) (p_mz x)); auto.
  - intros y [].
  - intros y [Hy|[]]. subst y. reflexivity.
Qed.

(** ** C1: conservation of intensity *)

(** C1, as stated, fails: two points of equal m/z and intensity 1 each
    leave the aggregation with intensity 2 each, so the total goes from 2
    to 4. *)
Lemma aggregate_twins_not_conserved :
  map p_intensity (aggregate twin_points) = [Qc_of_Z 2; Qc_of_Z 2] /\
  sum_intensity twin_points = Qc_of_Z 2 /\
  sum_intensity (aggregate twin_points) = Qc_of_Z 4 /\
  sum_intensity (aggregate twin_points) <> sum_intensity twin_points.
Proof.
  assert (E1 : map p_intensity (aggregate twin_points) = [Qc_of_Z 2; Qc_of_Z 2]).
  { unfold aggregate, aggregate_sorted. simpl.
    repeat f_equal; apply Qc_is_canon; reflexivity. }
  assert (E2 : sum_intensity twin_points = Qc_of_Z 2)
    by (apply Qc_is_canon; reflexivity).
  assert (E3 : sum_intensity (aggregate twin_points) = Qc_of_Z 4)
    by (apply Qc_is_canon; reflexivity).
  repeat split; auto.
  rewrite E2, E3. intros H. apply (f_equal Qc_trunc) in H.
  rewrite !Qc_trunc_of_Z in H. discriminate.
Qed.

(** C1, amended: the aggregation of a bin's list is the list sorted by m/z
    in which every point carries the summed intensity of the points of the
    list at its m/z, so the total after it is the sum, over the points, of
    the total of their m/z; when no two points share an m/z the aggregation
    only reorders the list and the total intensity after it equals the
    total before it. *)
Theorem aggregate_totals_per_mz (l : list point) :
  aggregate l = map (with_mz_total l) (sorted p_mz l) /\
  sum_intensity (aggregate l) = sum_intensity (map (with_mz_total l) l) /\
  (NoDup (map p_mz l) ->
   Permutation (aggregate l) l /\
   sum_intensity (aggregate l) = sum_intensity l).
Proof.
  split; [apply aggregate_mz_totals|]. split.
  - rewrite aggregate_mz_totals. apply sum_intensity_perm.
    apply Permutation_map, sorted_perm.
  - intros ND. rewrite (aggregate_distinct l ND). split.
    + apply sorted_perm.
    + apply sum_intensity_perm, sorted_perm.
Qed.

(** The m/z values of [distinct_points] are pairwise distinct. *)
Lemma distinct_points_NoDup : NoDup (map p_mz distinct_points).
Proof.
  simpl. repeat constructor; simpl.
  - intros [H|[H|[]]]; Qc_discr H.
  - intros [H|[]]. Qc_discr H.
  - intros [].
Defined.

(** The theorem at three points of distinct m/z. *)
Lemma aggregate_totals_per_mz_witness :
  sum_intensity (aggregate distinct_points) = sum_intensity distinct_points.
Proof.
  exact (proj2 (proj2 (proj2 (aggregate_totals_per_mz distinct_points))
                  distinct_points_NoDup)).
Defined.

(** ** C8: idempotence of the aggregation *)

(** C8: on a point list in which no two entries share an m/z, aggregating
    the aggregated list again gives the same list as aggregating once. *)
Theorem aggregate_idempotent_distinct (l : list point) :
  NoDup (map p_mz l) -> aggregate (aggregate l) = aggregate l.
Proof.
  intros ND. rewrite (aggregate_distinct l ND).
  rewrite aggregate_distinct.
  - apply sorted_idempotent.
  - eapply Permutation_NoDup; [|exact ND].
    apply Permutation_map, Permutation_sym, sorted_perm.
Qed.

(** The theorem at three points of distinct m/z. *)
Lemma aggregate_idempotent_distinct_witness :
  aggregate (aggregate distinct_points) = aggregate distinct_points.
Proof.
  exact (aggregate_idempotent_distinct distinct_points distinct_points_NoDup).
Defined.

(** ** C5: the extrema of the ion mobility *)

Lemma fold_left_flat_map {X Y S : Type} (f : S -> Y -> S) (h : X -> list Y)
  (xs : list X) (s : S) :
  fold_left (fun acc x => fold_left f (h x) acc) xs s =
  fold_left f (flat_map h xs) s.
Proof.
  revert s. induction xs as [|x xs IH]; intros s; simpl; [reflexivity|].
  rewrite fold_left_app. apply IH.
Qed.

(** The running extrema over a list of ion mobilities. *)
Lemma extrema_fold_spec (pts : list point) :
  forall (lo hi : Qc) (seen : list Qc),
    (forall x, In x seen -> (lo <= x <= hi)%Qc) ->
    (In lo seen) ->
    (In hi seen \/ hi = (- (1))%Qc) ->
    exists lo' hi',
      fold_left extrema_point pts (Fin lo, Fin hi) = (Fin lo', Fin hi') /\
      (forall x, In x (seen ++ map p_im pts) -> (lo' <= x <= hi')%Qc) /\
      In lo' (seen ++ map p_im pts) /\
      (In hi' (seen ++ map p_im pts) \/ hi' = (- (1))%Qc).
Proof.
  induction pts as [|p pts IH]; intros lo hi seen Hb Hlo Hhi.
  - exists lo, hi. rewrite app_nil_r. simpl. auto.
  - simpl. unfold fgt. simpl. set (im := p_im p).
    set (lo1 := if Qc_ltb im lo then im else lo).
    set (hi1 := if Qc_ltb hi im then im else hi).
    assert (E : (if Qc_ltb im lo then Fin im else Fin lo,
                 if Qc_ltb hi im then Fin im else Fin hi) = (Fin lo1, Fin hi1)).
    { unfold lo1, hi1. destruct (Qc_ltb im lo), (Qc_ltb hi im); reflexivity. }
    rewrite E.
    destruct (IH lo1 hi1 (seen ++ [im])) as [lo' [hi' [F [B [I1 I2]]]]].
    + intros x Hx. apply in_app_or in Hx. unfold lo1, hi1.
      destruct (Qc_ltb im lo) eqn:E1; destruct (Qc_ltb hi im) eqn:E2;
        try apply Qc_ltb_lt in E1; try apply Qc_ltb_lt in E2;
        try apply Qc_ltb_ge in E1; try apply Qc_ltb_ge in E2;
        destruct Hx as [Hx|[Hx|[]]]; subst;
        try (destruct (Hb x Hx) as [B1 B2]); split;
        eauto using Qcle_refl, Qcle_trans, Qclt_le_weak.
    + unfold lo1. apply in_or_app.
      destruct (Qc_ltb im lo); [right; left; reflexivity | left; exact Hlo].
    + unfold hi1. destruct (Qc_ltb hi im).
      * left. apply in_or_app. right. left. reflexivity.
      * destruct Hhi as [Hhi|Hhi]; [left; apply in_or_app; auto | right; exact Hhi].
    + exists lo', hi'. rewrite <- app_assoc in B, I1, I2. simpl in B, I1, I2.
      auto.
Qed.

Lemma get_extrema_fold (spectra : list MSSpectrum) :
  get_extrema spectra =
  fold_left extrema_point (flat_map get_points spectra) (PInf, Fin (- (1))%Qc).
Proof.
  unfold get_extrema. apply fold_left_flat_map.
Qed.

(** C5, as stated, fails: a sample of an MS2 scan moves the maximum.  With
    an MS1 scan at ion mobility 1 and an MS2 scan at ion mobility 5 the
    extrema are (1, 5), and (1, 1) over the MS1 scans alone. *)
Lemma get_extrema_counts_ms2 :
  let spectra := [single_point_scan 1 1; single_point_scan 2 (Qc_of_Z 5)] in
  get_extrema spectra = (Fin 1, Fin (Qc_of_Z 5)) /\
  get_extrema (ms1_only spectra) = (Fin 1, Fin 1) /\
  get_extrema spectra <> get_extrema (ms1_only spectra).
Proof.
  assert (E1 : get_extrema [single_point_scan 1 1; single_point_scan 2 (Qc_of_Z 5)]
               = (Fin 1, Fin (Qc_of_Z 5))) by reflexivity.
  assert (E2 : get_extrema (ms1_only [single_point_scan 1 1;
                                      single_point_scan 2 (Qc_of_Z 5)])
               = (Fin 1, Fin 1)) by reflexivity.
  cbv zeta. split; [exact E1|]. split; [exact E2|].
  rewrite E1, E2. intros H. inversion H.
Qed.

Lemma get_extrema_bounds (spectra : list MSSpectrum) :
  (all_ims spectra = [] -> get_extrema spectra = (PInf, Fin (- (1))%Qc)) /\
  (all_ims spectra <> [] ->
   exists lo hi : Qc,
     get_extrema spectra = (Fin lo, Fin hi) /\
     (forall x, In x (all_ims spectra) -> (lo <= x <= hi)%Qc) /\
     In lo (all_ims spectra) /\
     (In hi (all_ims spectra) \/ hi = (- (1))%Qc)).
Proof.
  rewrite get_extrema_fold. unfold all_ims.
  destruct (flat_map get_points spectra) as [|p pts]; split.
  - reflexivity.
  - intros H. contradiction H. reflexivity.
  - discriminate.
  - intros _. simpl fold_left.
    set (hi0 := if Qc_ltb (- (1)) (p_im p) then p_im p else (- (1))%Qc).
    assert (E : (if Qc_ltb (- (1)) (p_im p) then Fin (p_im p)
                 else Fin (- (1))%Qc) = Fin hi0)
      by (unfold hi0; destruct (Qc_ltb (- (1)) (p_im p)); reflexivity).
    rewrite E.
    destruct (extrema_fold_spec pts (p_im p) hi0 [p_im p])
      as [lo [hi [F [B [I1 I2]]]]].
    + intros x [Hx|[]]. subst x. split; [apply Qcle_refl|].
      unfold hi0. destruct (Qc_ltb (- (1)) (p_im p)) eqn:E1.
      * apply Qcle_refl.
      * apply Qc_ltb_ge in E1. exact E1.
    + left. reflexivity.
    + unfold hi0. destruct (Qc_ltb (- (1)) (p_im p));
        [left; left; reflexivity | right; reflexivity].
    + exists lo, hi. simpl in B, I1, I2. simpl map. auto.
Qed.

Lemma get_extrema_any_level (level : nat) (spectra : list MSSpectrum) :
  get_extrema (map (with_level level) spectra) = get_extrema spectra.
Proof.
  rewrite !get_extrema_fold. f_equal.
  induction spectra as [|s spectra IH]; simpl; [reflexivity|].
  rewrite IH. reflexivity.
Qed.

(** C5, amended: the extrema are taken over the samples of every scan,
    whatever its MS level: relabelling the scans with any MS level leaves
    them as they are.  Without any sample the pair is the initial one,
    (inf, -1).  Otherwise the first component is the least ion mobility of
    all samples, and the second is an upper bound of them all that is the
    greatest of them or the initial value -1. *)
Theorem get_extrema_all_scans (spectra : list MSSpectrum) :
  (forall level : nat,
      get_extrema (map (with_level level) spectra) = get_extrema spectra) /\
  (all_ims spectra = [] -> get_extrema spectra = (PInf, Fin (- (1))%Qc)) /\
  (all_ims spectra <> [] ->
   exists lo hi : Qc,
     get_extrema spectra = (Fin lo, Fin hi) /\
     (forall x, In x (all_ims spectra) -> (lo <= x <= hi)%Qc) /\
     In lo (all_ims spectra) /\
     (In hi (all_ims spectra) \/ hi = (- (1))%Qc)).
Proof.
  split.
  - intros level. apply get_extrema_any_level.
  - exact (get_extrema_bounds spectra).
Qed.

(** The theorem at an experiment with an MS1 and an MS2 scan. *)
Lemma get_extrema_all_scans_witness :
  exists lo hi : Qc,
    get_extrema [single_point_scan 1 1; single_point_scan 2 (Qc_of_Z 5)]
    = (Fin lo, Fin hi) /\
    (forall x,
        In x (all_ims [single_point_scan 1 1; single_point_scan 2 (Qc_of_Z 5)]) ->
        (lo <= x <= hi)%Qc).
Proof.
  destruct (proj2 (proj2 (get_extrema_all_scans
                     [single_point_scan 1 1; single_point_scan 2 (Qc_of_Z 5)])))
    as [lo [hi [E [B _]]]].
  - discriminate.
  - exists lo, hi. split; assumption.
Defined.

(** ** C6: what happens on a configuration that cannot be binned *)

Lemma setup_bins_zero (g : globals) (spectra : list MSSpectrum) :
  num_bins g = 0%Z -> setup_bins g spectra = Raise ZeroDivisionError.
Proof.
  intros H. unfold setup_bins. destruct (get_extrema spectra) as [f l].
  rewrite H. change (Qc_of_Z 0) with 0%Qc.
  rewrite (fdiv_zero (fsub l f)). reflexivity.
Qed.

Lemma setup_bins_finite (g : globals) (spectra : list MSSpectrum) (f l : Qc) :
  num_bins g <> 0%Z ->
  get_extrema spectra = (Fin f, Fin l) ->
  exists g',
    setup_bins g spectra = Ok g' /\
    first_im g' = Fin f /\ last_im g' = Fin l /\
    num_bins g' = num_bins g /\
    bin_size g' = Fin ((l - f) / Qc_of_Z (num_bins g))%Qc /\
    offset_im g' =
      Fin ((l - f) / Qc_of_Z (num_bins g) / Qc_of_Z 2 + f)%Qc /\
    bins g' = bins g ++ repeat [] (Z.to_nat (num_bins g)) /\
    exps g' = exps g ++ repeat [] (Z.to_nat (num_bins g)) /\
    bins2 g' = bins2 g ++ repeat [] (Z.to_nat (num_bins g + 1)) /\
    exps2 g' = exps2 g ++ repeat [] (Z.to_nat (num_bins g + 1)).
Proof.
  intros Hn He. unfold setup_bins. rewrite He. simpl fsub.
  rewrite fdiv_Fin by (apply Qc_of_Z_neq_0; exact Hn). cbn [bind].
  rewrite fdiv_Fin by (apply Qc_of_Z_neq_0; discriminate). cbn [bind].
  eexists. split; [reflexivity|]. simpl. repeat split; reflexivity.
Qed.

(** With bins of width zero the first point binned divides by zero. *)
Lemma bin_spectrum_zero_width (g : globals) (spec : MSSpectrum) :
  bin_size g = Fin 0%Qc ->
  get_points spec <> [] ->
  bin_spectrum g spec = Raise ZeroDivisionError.
Proof.
  intros Hb Hp. unfold bin_spectrum, assign_points.
  destruct (sorted_nonempty p_im (get_points spec) Hp) as [p [rest E]].
  rewrite E. cbn [for_each]. unfold assign_point at 1, primary_bin_idx.
  rewrite Hb, fdiv_zero. reflexivity.
Qed.

(** Without any bin the first point binned has no list to go to. *)
Lemma bin_spectrum_no_bins (g : globals) (spec : MSSpectrum) (f b : Qc) :
  (num_bins g < 0)%Z ->
  first_im g = Fin f ->
  bin_size g = Fin b ->
  b <> 0%Qc ->
  get_points spec <> [] ->
  bin_spectrum g spec = Raise IndexError.
Proof.
  intros Hn Hf Hb Hb0 Hp. unfold bin_spectrum, assign_points.
  destruct (sorted_nonempty p_im (get_points spec) Hp) as [p [rest E]].
  rewrite E. cbn [for_each]. unfold assign_point at 1, primary_bin_idx.
  rewrite Hf, Hb. simpl fsub. rewrite fdiv_Fin by exact Hb0.
  cbn [bind py_int].
  replace (Z.to_nat (num_bins g)) with 0 by lia. simpl repeat.
  unfold append_at. simpl length.
  assert (E0 : forall idx, py_index 0 idx = Raise IndexError).
  { intros idx. unfold py_index.
    destruct (0 <=? idx)%Z eqn:E1.
    - apply Z.leb_le in E1.
      destruct (idx <? Z.of_nat 0)%Z eqn:E2; [|reflexivity].
      apply Z.ltb_lt in E2. simpl in E2. lia.
    - apply Z.leb_gt in E1.
      destruct (- Z.of_nat 0 <=? idx)%Z eqn:E2; [|reflexivity].
      apply Z.leb_le in E2. simpl in E2. lia. }
  rewrite E0. reflexivity.
Qed.

(** A scan without points leaves the globals as they are. *)
Lemma synthesize_empty (rt : Qc) (n : nat)
  (bs : list (list point)) (es : list (list MSSpectrum)) :
  forall (js : list nat),
    for_each (synthesize_bin rt (repeat [] n)) js (bs, es) = Ok (bs, es).
Proof.
  induction js as [|j js IH]; [reflexivity|].
  cbn [for_each]. unfold synthesize_bin at 1.
  assert (E : nth j (repeat (@nil point) n) [] = []).
  { clear. revert j. induction n as [|n IHn]; intros [|j]; simpl; auto. }
  rewrite E. simpl. exact IH.
Qed.

Lemma bin_spectrum_no_points (g : globals) (spec : MSSpectrum) :
  get_points spec = [] -> bin_spectrum g spec = Ok g.
Proof.
  intros Hp. unfold bin_spectrum, assign_points. rewrite Hp.
  cbn [sorted for_each bind]. rewrite !synthesize_empty. cbn [bind].
  destruct g; reflexivity.
Qed.

Lemma process_skipped (g : globals) (pre : list MSSpectrum) :
  Forall (fun sp => getMSLevel sp <> 1 \/ get_points sp = []) pre ->
  for_each process_spectrum pre g = Ok g.
Proof.
  induction 1 as [|sp pre Hsp _ IH]; [reflexivity|].
  cbn [for_each]. unfold process_spectrum at 1.
  destruct (getMSLevel sp =? 1)%nat eqn:E; simpl.
  - destruct Hsp as [Hsp|Hsp]; [apply Nat.eqb_eq in E; contradiction|].
    rewrite (bin_spectrum_no_points g sp Hsp). exact IH.
  - exact IH.
Qed.

Lemma for_each_app {X S : Type} (body : X -> S -> result S)
  (xs ys : list X) (s : S) :
  for_each body (xs ++ ys) s = bind (for_each body xs s) (for_each body ys).
Proof.
  revert s. induction xs as [|x xs IH]; intros s; simpl; [reflexivity|].
  destruct (body x s); simpl; auto.
Qed.

Lemma process_fails_at (g : globals) (pre post : list MSSpectrum)
  (s : MSSpectrum) (e : exn) :
  Forall (fun sp => getMSLevel sp <> 1 \/ get_points sp = []) pre ->
  getMSLevel s = 1 ->
  bin_spectrum g s = Raise e ->
  for_each process_spectrum (pre ++ s :: post) g = Raise e.
Proof.
  intros Hpre Hs Hg. rewrite for_each_app, (process_skipped g pre Hpre).
  cbn [bind for_each]. unfold process_spectrum at 1.
  rewrite Hs. simpl. rewrite Hg. reflexivity.
Qed.

(** C6, as stated, fails: with two bins and a single ion mobility in the
    whole experiment, setting up the bins succeeds with a bin width of
    zero, the first scan (which has no point) is binned, and the division
    by zero is raised while the second scan is binned. *)
Lemma degenerate_range_fails_midway :
  exists g,
    setup_bins (initial 2) [empty_scan; single_point_scan 1 1] = Ok g /\
    bin_size g = Fin 0%Qc /\
    bin_spectrum g empty_scan = Ok g /\
    bin_spectrum g (single_point_scan 1 1) = Raise ZeroDivisionError /\
    run 2 [empty_scan; single_point_scan 1 1] = Raise ZeroDivisionError.
Proof.
  destruct (setup_bins_finite (initial 2) [empty_scan; single_point_scan 1 1]
              1%Qc 1%Qc ltac:(discriminate) eq_refl)
    as [g [E [_ [_ [_ [Hb _]]]]]].
  rewrite Qcdiv_self_minus in Hb.
  assert (Hfail : bin_spectrum g (single_point_scan 1 1)
                  = Raise ZeroDivisionError)
    by (apply bin_spectrum_zero_width; [exact Hb | discriminate]).
  exists g. split; [exact E|]. split; [exact Hb|].
  split; [apply bin_spectrum_no_points; reflexivity|].
  split; [exact Hfail|].
  unfold run. rewrite E. cbn [bind].
  apply (process_fails_at g [empty_scan] []); auto.
Qed.

(** C6, amended: the program checks nothing before binning.  Take an
    experiment whose first MS1 scan with a point is [s].  With zero bins,
    setting up the bins raises a division by zero.  With a number of bins
    other than zero and equal extrema, the set-up succeeds with a bin width
    of zero, the scans before [s] are processed, and binning [s] raises a
    division by zero.  With a negative number of bins and distinct
    extrema, the set-up succeeds, the scans before [s] are processed, and
    binning [s] raises an index error. *)
Theorem unchecked_configuration (n : Z) (pre post : list MSSpectrum)
  (s : MSSpectrum) :
  Forall (fun sp => getMSLevel sp <> 1 \/ get_points sp = []) pre ->
  getMSLevel s = 1 ->
  get_points s <> [] ->
  (n = 0%Z ->
   setup_bins (initial n) (pre ++ s :: post) = Raise ZeroDivisionError /\
   run n (pre ++ s :: post) = Raise ZeroDivisionError) /\
  (n <> 0%Z ->
   forall a : Qc,
     get_extrema (pre ++ s :: post) = (Fin a, Fin a) ->
     exists g,
       setup_bins (initial n) (pre ++ s :: post) = Ok g /\
       bin_size g = Fin 0%Qc /\
       for_each process_spectrum pre g = Ok g /\
       bin_spectrum g s = Raise ZeroDivisionError /\
       run n (pre ++ s :: post) = Raise ZeroDivisionError) /\
  ((n < 0)%Z ->
   forall f l : Qc,
     get_extrema (pre ++ s :: post) = (Fin f, Fin l) ->
     (f < l)%Qc ->
     exists g,
       setup_bins (initial n) (pre ++ s :: post) = Ok g /\
       for_each process_spectrum pre g = Ok g /\
       bin_spectrum g s = Raise IndexError /\
       run n (pre ++ s :: post) = Raise IndexError).
Proof.
  intros Hpre Hs Hp. split; [|split].
  - intros Hn.
    assert (E : setup_bins (initial n) (pre ++ s :: post)
                = Raise ZeroDivisionError)
      by (apply setup_bins_zero; exact Hn).
    split; [exact E|]. unfold run. rewrite E. reflexivity.
  - intros Hn a He.
    destruct (setup_bins_finite (initial n) (pre ++ s :: post) a a Hn He)
      as [g [E [_ [_ [_ [Hb _]]]]]].
    rewrite Qcdiv_self_minus in Hb.
    pose proof (bin_spectrum_zero_width g s Hb Hp) as Hfail.
    exists g. repeat split; auto using process_skipped.
    unfold run. rewrite E. cbn [bind].
    apply process_fails_at; assumption.
  - intros Hn f l He Hfl.
    assert (Hn0 : n <> 0%Z) by lia.
    destruct (setup_bins_finite (initial n) (pre ++ s :: post) f l Hn0 He)
      as [g [E [Hf [_ [Hnb [Hb _]]]]]].
    simpl in Hnb, Hb.
    assert (Hfail : bin_spectrum g s = Raise IndexError).
    { apply (bin_spectrum_no_bins g s f _ ltac:(lia) Hf Hb); [|exact Hp].
      apply Qcdiv_neq_0.
      - apply Qc_pos_neq_0. unfold Qcminus. apply -> Qclt_minus_iff. exact Hfl.
      - apply Qc_of_Z_neq_0. exact Hn0. }
    exists g. repeat split; auto using process_skipped.
    unfold run. rewrite E. cbn [bind].
    apply process_fails_at; assumption.
Qed.

(** The theorem at two bins and a single ion mobility. *)
Lemma unchecked_configuration_witness :
  run 2 [empty_scan; single_point_scan 1 1] = Raise ZeroDivisionError.
Proof.
  destruct (unchecked_configuration 2 [empty_scan] [] (single_point_scan 1 1))
    as [_ [H _]].
  - constructor; [right; reflexivity | constructor].
  - reflexivity.
  - discriminate.
  - destruct (H ltac:(discriminate) 1%Qc eq_refl) as [g [_ [_ [_ [_ R]]]]].
    exact R.
Defined.

(** ** One scan after another: what [bin_spectrum] appends *)

Lemma py_index_of_nat (len a k : nat) :
  py_index len (Z.of_nat a) = Ok k -> k = a /\ a < len.
Proof.
  unfold py_index. intros H.
  destruct (0 <=? Z.of_nat a)%Z eqn:E0; [|apply Z.leb_gt in E0; lia].
  destruct (Z.of_nat a <? Z.of_nat len)%Z eqn:E1; [|discriminate].
  apply Z.ltb_lt in E1. inversion H. split; lia.
Qed.

Lemma synthesize_bin_spec (rt : Qc) (temp : list (list point)) (a : nat)
  (bs bs' : list (list point)) (es es' : list (list MSSpectrum)) :
  synthesize_bin rt temp a (bs, es) = Ok (bs', es') ->
  length bs' = length bs /\ length es' = length es /\
  forall i,
    nth i es' [] =
    if (i =? a)%nat then nth i es [] ++ appended rt temp i else nth i es [].
Proof.
  unfold synthesize_bin, appended. intros H.
  destruct (length (nth a temp []) =? 0)%nat eqn:E.
  - inversion H; subst. repeat split; auto. intros i.
    destruct (i =? a)%nat eqn:Ei; [|reflexivity].
    apply Nat.eqb_eq in Ei. subst i. rewrite E, app_nil_r. reflexivity.
  - bind_inv H. rename a0 into k, Ha into Hk.
    bind_inv H. rename a0 into k', Ha into Hk'.
    apply py_index_of_nat in Hk, Hk'.
    destruct Hk as [-> Hlt], Hk' as [-> Hlt'].
    inversion H; subst. rewrite !length_update. repeat split; auto.
    intros i. destruct (i =? a)%nat eqn:Ei.
    + apply Nat.eqb_eq in Ei. subst i. rewrite E.
      rewrite nth_update_same by exact Hlt'. reflexivity.
    + apply Nat.eqb_neq in Ei. apply nth_update_other. exact Ei.
Qed.

Lemma synthesize_loop_spec (rt : Qc) (temp : list (list point)) (n : nat) :
  forall (a : nat) (bs bs' : list (list point))
         (es es' : list (list MSSpectrum)),
    for_each (synthesize_bin rt temp) (seq a n) (bs, es) = Ok (bs', es') ->
    length bs' = length bs /\ length es' = length es /\
    forall i,
      nth i es' [] =
      if (a <=? i)%nat && (i <? a + n)%nat
      then nth i es [] ++ appended rt temp i else nth i es [].
Proof.
  induction n as [|n IH]; intros a bs bs' es es' H.
  - simpl in H. inversion H; subst. repeat split; auto. intros i.
    destruct (a <=? i)%nat eqn:E1; simpl; [|reflexivity].
    destruct (i <? a + 0)%nat eqn:E2; [|reflexivity].
    apply Nat.leb_le in E1. apply Nat.ltb_lt in E2. lia.
  - cbn [seq for_each] in H. bind_inv H. destruct a0 as [bs1 es1].
    apply synthesize_bin_spec in Ha. destruct Ha as [L1 [L2 N1]].
    apply IH in H. destruct H as [L1' [L2' N2]].
    repeat split; try congruence. intros i. rewrite N2, N1.
    destruct (Nat.lt_trichotomy i a) as [Hi|[Hi|Hi]].
    + assert (E0 : (i =? a)%nat = false) by (apply Nat.eqb_neq; lia).
      assert (E1 : (S a <=? i)%nat = false) by (apply Nat.leb_gt; lia).
      assert (E2 : (a <=? i)%nat = false) by (apply Nat.leb_gt; lia).
      rewrite E0, E1, E2. reflexivity.
    + subst i.
      assert (E0 : (a =? a)%nat = true) by (apply Nat.eqb_eq; lia).
      assert (E1 : (S a <=? a)%nat = false) by (apply Nat.leb_gt; lia).
      assert (E2 : (a <=? a)%nat = true) by (apply Nat.leb_le; lia).
      assert (E3 : (a <? a + S n)%nat = true) by (apply Nat.ltb_lt; lia).
      rewrite E0, E1, E2, E3. reflexivity.
    + assert (E0 : (i =? a)%nat = false) by (apply Nat.eqb_neq; lia).
      assert (E1 : (S a <=? i)%nat = true) by (apply Nat.leb_le; lia).
      assert (E2 : (a <=? i)%nat = true) by (apply Nat.leb_le; lia).
      assert (E3 : (i <? a + S n)%nat = (i <? S a + n)%nat)
        by (f_equal; lia).
      rewrite E0, E1, E2, E3. reflexivity.
Qed.

Lemma same_context_refl (g : globals) : same_context g g.
Proof.
  repeat split.
Qed.

Lemma same_context_trans (g g1 g2 : globals) :
  same_context g g1 -> same_context g1 g2 -> same_context g g2.
Proof.
  unfold same_context. intros [A1 [A2 [A3 A4]]] [B1 [B2 [B3 B4]]].
  repeat split; congruence.
Qed.

Lemma for_each_ext {X S : Type} (f h : X -> S -> result S) (xs : list X) :
  (forall x s, f x s = h x s) ->
  forall s, for_each f xs s = for_each h xs s.
Proof.
  intros E. induction xs as [|x xs IH]; intros s; simpl; [reflexivity|].
  rewrite E. destruct (h x s); simpl; auto.
Qed.

Lemma assign_points_same_context (g g' : globals) (l : list point) :
  same_context g g' -> assign_points g' l = assign_points g l.
Proof.
  intros [A1 [A2 [A3 A4]]]. unfold assign_points. rewrite A4.
  apply for_each_ext. intros p [tb tb2].
  unfold assign_point, primary_bin_idx, secondary_bin_idx.
  rewrite A1, A2, A3, A4. reflexivity.
Qed.

Lemma scan_spectra_same_context (g g' : globals) (spec : MSSpectrum) (i : nat) :
  same_context g g' ->
  scan_spectra g' spec i = scan_spectra g spec i /\
  scan_spectra2 g' spec i = scan_spectra2 g spec i.
Proof.
  intros H. unfold scan_spectra, scan_spectra2.
  rewrite (assign_points_same_context g g' _ H). split; reflexivity.
Qed.

(** One call of [bin_spectrum]: bin [i] of each pass receives what the scan
    contributes to it, and nothing else changes in the spectra. *)
Lemma bin_spectrum_spec (g g' : globals) (spec : MSSpectrum) :
  bin_spectrum g spec = Ok g' ->
  same_context g g' /\
  (length (bins g') = length (bins g) /\ length (exps g') = length (exps g)) /\
  (length (bins2 g') = length (bins2 g) /\
   length (exps2 g') = length (exps2 g)) /\
  (forall i, i < Z.to_nat (num_bins g) ->
     nth i (exps g') [] = nth i (exps g) [] ++ scan_spectra g spec i) /\
  (forall i, i < Z.to_nat (num_bins g + 1) ->
     nth i (exps2 g') [] = nth i (exps2 g) [] ++ scan_spectra2 g spec i).
Proof.
  unfold bin_spectrum. intros H.
  bind_inv H. destruct a as [tb tb2]. rename Ha into Hassign.
  bind_inv H. destruct a as [bs es]. rename Ha into H1.
  bind_inv H. destruct a as [bs2 es2]. rename Ha into H2.
  inversion H; subst; clear H. cbn [exps exps2 bins bins2].
  apply synthesize_loop_spec in H1, H2.
  destruct H1 as [L1 [L1' N1]], H2 as [L2 [L2' N2]].
  split; [repeat split|]. split; [auto|]. split; [auto|].
  unfold scan_spectra, scan_spectra2. rewrite Hassign. split.
  - intros i Hi. rewrite N1.
    assert (E : ((0 <=? i)%nat && (i <? 0 + Z.to_nat (num_bins g))%nat) = true).
    { apply andb_true_iff. split;
        [apply Nat.leb_le | apply Nat.ltb_lt]; lia. }
    rewrite E. reflexivity.
  - intros i Hi. rewrite N2.
    assert (E : ((0 <=? i)%nat && (i <? 0 + Z.to_nat (num_bins g + 1))%nat)
                = true).
    { apply andb_true_iff. split;
        [apply Nat.leb_le | apply Nat.ltb_lt]; lia. }
    rewrite E. reflexivity.
Qed.

Lemma process_loop_spec (spectra : list MSSpectrum) :
  forall g g' : globals,
    for_each process_spectrum spectra g = Ok g' ->
    same_context g g' /\
    (forall i, i < Z.to_nat (num_bins g) ->
       nth i (exps g') [] =
       nth i (exps g) [] ++
       flat_map (fun spec => scan_spectra g spec i) (ms1_only spectra)) /\
    (forall i, i < Z.to_nat (num_bins g + 1) ->
       nth i (exps2 g') [] =
       nth i (exps2 g) [] ++
       flat_map (fun spec => scan_spectra2 g spec i) (ms1_only spectra)).
Proof.
  induction spectra as [|s spectra IH]; intros g g' H.
  - simpl in H. inversion H; subst. split; [apply same_context_refl|].
    split; intros i _; simpl; rewrite app_nil_r; reflexivity.
  - cbn [for_each] in H. bind_inv H. rename a into g1.
    apply IH in H. destruct H as [C2 [N1 N2]].
    unfold process_spectrum in Ha. simpl ms1_only.
    destruct (getMSLevel s =? 1)%nat eqn:E; simpl in Ha.
    + apply bin_spectrum_spec in Ha.
      destruct Ha as [C1 [_ [_ [M1 M2]]]].
      pose proof C1 as [_ [_ [_ Hn]]].
      split; [eapply same_context_trans; eassumption|].
      split; intros i Hi; simpl flat_map.
      * rewrite N1 by (rewrite Hn; exact Hi). rewrite M1 by exact Hi.
        rewrite <- app_assoc. f_equal. f_equal.
        apply flat_map_ext. intros sp.
        apply (scan_spectra_same_context g g1 sp i C1).
      * rewrite N2 by (rewrite Hn; exact Hi). rewrite M2 by exact Hi.
        rewrite <- app_assoc. f_equal. f_equal.
        apply flat_map_ext. intros sp.
        apply (scan_spectra_same_context g g1 sp i C1).
    + inversion Ha; subst g1. split; [exact C2|]. split; assumption.
Qed.

(** ** A run on a proper configuration completes *)

Lemma synthesize_loop_total (rt : Qc) (temp : list (list point)) (n : nat) :
  forall (a : nat) (bs : list (list point)) (es : list (list MSSpectrum)),
    a + n <= length bs -> a + n <= length es ->
    exists r, for_each (synthesize_bin rt temp) (seq a n) (bs, es) = Ok r.
Proof.
  induction n as [|n IH]; intros a bs es Hb He.
  - eexists. reflexivity.
  - cbn [seq for_each].
    assert (Hstep : exists r, synthesize_bin rt temp a (bs, es) = Ok r).
    { unfold synthesize_bin.
      destruct (length (nth a temp []) =? 0)%nat; [eexists; reflexivity|].
      rewrite !py_index_in_range by lia. cbn [bind].
      eexists. reflexivity. }
    destruct Hstep as [[bs1 es1] E]. rewrite E. cbn [bind].
    apply synthesize_bin_spec in E. destruct E as [L1 [L2 _]].
    apply IH; lia.
Qed.

Lemma bin_spectrum_total (g : globals) (spec : MSSpectrum) (f b o : Qc) :
  first_im g = Fin f ->
  bin_size g = Fin b ->
  offset_im g = Fin o ->
  (0 < b)%Qc ->
  (1 <= num_bins g)%Z ->
  (forall p, In p (get_points spec) -> (f <= p_im p)%Qc) ->
  Z.to_nat (num_bins g) <= length (bins g) ->
  Z.to_nat (num_bins g) <= length (exps g) ->
  Z.to_nat (num_bins g + 1) <= length (bins2 g) ->
  Z.to_nat (num_bins g + 1) <= length (exps2 g) ->
  exists g', bin_spectrum g spec = Ok g'.
Proof.
  intros Hf Hb Ho Hpos Hn Hall L1 L2 L3 L4. unfold bin_spectrum, assign_points.
  destruct (assign_loop_total g f b o Hf Hb Ho Hpos Hn
              (sorted p_im (get_points spec))
              (repeat [] (Z.to_nat (num_bins g)))
              (repeat [] (Z.to_nat (num_bins g + 1)))) as [[tb tb2] E].
  { intros p Hp. apply Hall.
    eapply Permutation_in; [apply sorted_perm | exact Hp]. }
  { apply repeat_length. }
  { apply repeat_length. }
  rewrite E. cbn [bind].
  destruct (synthesize_loop_total (getRT spec) tb (Z.to_nat (num_bins g)) 0
              (bins g) (exps g)) as [[bs es] E1]; [lia | lia |].
  rewrite E1. cbn [bind].
  destruct (synthesize_loop_total (getRT spec) tb2
              (Z.to_nat (num_bins g + 1)) 0
              (bins2 g) (exps2 g)) as [[bs2 es2] E2]; [lia | lia |].
  rewrite E2. cbn [bind]. eexists. reflexivity.
Qed.

Lemma process_loop_total (f b o : Qc) (spectra : list MSSpectrum) :
  (0 < b)%Qc ->
  (forall s p, In s spectra -> In p (get_points s) -> (f <= p_im p)%Qc) ->
  forall g : globals,
    first_im g = Fin f ->
    bin_size g = Fin b ->
    offset_im g = Fin o ->
    (1 <= num_bins g)%Z ->
    Z.to_nat (num_bins g) <= length (bins g) ->
    Z.to_nat (num_bins g) <= length (exps g) ->
    Z.to_nat (num_bins g + 1) <= length (bins2 g) ->
    Z.to_nat (num_bins g + 1) <= length (exps2 g) ->
    exists g', for_each process_spectrum spectra g = Ok g'.
Proof.
  intros Hpos. induction spectra as [|s spectra IH];
    intros Hall g Hf Hb Ho Hn L1 L2 L3 L4.
  - eexists. reflexivity.
  - cbn [for_each]. unfold process_spectrum at 1.
    assert (Hrest : forall s' p, In s' spectra -> In p (get_points s') ->
                                 (f <= p_im p)%Qc).
    { intros s' p Hs'. apply Hall. right. exact Hs'. }
    destruct (getMSLevel s =? 1)%nat; simpl negb; cbv iota.
    + destruct (bin_spectrum_total g s f b o Hf Hb Ho Hpos Hn)
        as [g1 E]; auto.
      { intros p. apply Hall. left. reflexivity. }
      rewrite E. cbn [bind].
      apply bin_spectrum_spec in E.
      destruct E as [[C1 [C2 [C3 C4]]] [[M1 M2] [[M3 M4] _]]].
      apply IH; rewrite ?C4, ?M1, ?M2, ?M3, ?M4; try assumption;
        congruence.
    + cbn [bind]. apply IH; assumption.
Qed.

Lemma get_extrema_lower (spectra : list MSSpectrum) (f : Qc) (hi : pyfloat) :
  get_extrema spectra = (Fin f, hi) ->
  forall s p, In s spectra -> In p (get_points s) -> (f <= p_im p)%Qc.
Proof.
  intros He s p Hs Hp.
  assert (Hin : In (p_im p) (all_ims spectra)).
  { unfold all_ims. apply in_map. apply in_flat_map. exists s. auto. }
  destruct (get_extrema_bounds spectra) as [_ H].
  destruct H as [lo [hi' [E [B _]]]].
  - intros E0. rewrite E0 in Hin. exact Hin.
  - rewrite He in E. inversion E; subst. apply B. exact Hin.
Qed.

(** With at least one bin and a range of positive length, the run
    completes. *)
Lemma run_total (n : Z) (spectra : list MSSpectrum) (f l : Qc) :
  (1 <= n)%Z ->
  get_extrema spectra = (Fin f, Fin l) ->
  (f < l)%Qc ->
  exists g, run n spectra = Ok g.
Proof.
  intros Hn He Hfl. unfold run.
  destruct (setup_bins_finite (initial n) spectra f l ltac:(simpl; lia) He)
    as [g0 [E [Hf [_ [Hnb [Hb [Ho [B1 [B2 [B3 B4]]]]]]]]]].
  rewrite E. cbn [bind]. simpl in Hnb, Hb, Ho, B1, B2, B3, B4.
  eapply process_loop_total; try eassumption.
  - apply Qcdiv_pos; [|apply Qc_of_Z_pos; lia].
    unfold Qcminus. apply -> Qclt_minus_iff. exact Hfl.
  - apply (get_extrema_lower spectra f (Fin l) He).
  - lia.
  - rewrite B1, repeat_length. lia.
  - rewrite B2, repeat_length. lia.
  - rewrite B3, repeat_length. lia.
  - rewrite B4, repeat_length. lia.
Qed.

(** ** C9: the spectra appended to each bin *)

Lemma setup_bins_spectra (g g' : globals) (spectra : list MSSpectrum) :
  setup_bins g spectra = Ok g' ->
  num_bins g' = num_bins g /\
  exps g' = exps g ++ repeat [] (Z.to_nat (num_bins g)) /\
  exps2 g' = exps2 g ++ repeat [] (Z.to_nat (num_bins g + 1)).
Proof.
  unfold setup_bins. destruct (get_extrema spectra) as [f l]. intros H.
  bind_inv H. bind_inv H. inversion H; subst. simpl. auto.
Qed.

(** C9, as stated, fails: with two bins, two MS1 scans of one point each
    (ion mobility 0 and 4) are processed, and each bin of the first pass
    ends with one spectrum, not two; the middle bin of the second pass
    ends with none. *)
Lemma empty_bins_get_no_spectrum :
  length (ms1_only two_scans) = 2 /\
  spectra_per_bin (run 2 two_scans) = Some ([1; 1], [1; 0; 1]).
Proof.
  split; vm_compute; reflexivity.
Qed.

(** C9, amended: for every bin and every MS1 scan processed, one spectrum
    (the aggregated m/z and intensity pairs with their ion mobilities) is
    appended to the bin's collection when the scan left at least one point
    in the bin, and nothing when it left none; after a run each bin's
    collection holds, in scan order, one spectrum per MS1 scan that left
    points in it.  A run with at least one bin and a range of positive
    length completes. *)
Theorem spectra_of_contributing_scans (n : Z) (spectra : list MSSpectrum) :
  (forall g,
      run n spectra = Ok g ->
      (forall i, i < Z.to_nat n ->
         nth i (exps g) [] =
         flat_map (fun spec => scan_spectra g spec i) (ms1_only spectra)) /\
      (forall i, i < Z.to_nat (n + 1) ->
         nth i (exps2 g) [] =
         flat_map (fun spec => scan_spectra2 g spec i) (ms1_only spectra))) /\
  (forall f l : Qc,
      (1 <= n)%Z ->
      get_extrema spectra = (Fin f, Fin l) ->
      (f < l)%Qc ->
      exists g, run n spectra = Ok g).
Proof.
  split.
  - intros g H. unfold run in H. bind_inv H. rename a into g0.
    apply setup_bins_spectra in Ha. simpl in Ha. destruct Ha as [Hn [E1 E2]].
    apply process_loop_spec in H. destruct H as [C [N1 N2]].
    rewrite Hn in N1, N2. split; intros i Hi.
    + rewrite (N1 i Hi), E1, nth_repeat. simpl.
      apply flat_map_ext. intros sp. symmetry.
      apply (scan_spectra_same_context g0 g sp i C).
    + rewrite (N2 i Hi), E2, nth_repeat. simpl.
      apply flat_map_ext. intros sp. symmetry.
      apply (scan_spectra_same_context g0 g sp i C).
  - intros f l. apply run_total.
Qed.

(** The theorem at two bins and two scans of one point. *)
Lemma spectra_of_contributing_scans_witness :
  exists g, run 2 two_scans = Ok g.
Proof.
  apply (proj2 (spectra_of_contributing_scans 2 two_scans) 0%Qc (Qc_of_Z 4)).
  - lia.
  - reflexivity.
  - reflexivity.
Defined.

(** ** The walks of the peak picker *)

Lemma for_break_invariant {S : Type} (P : S -> Prop)
  (body : nat -> S -> ctl S) (js : list nat) :
  (forall j s, P s -> P (ctl_state (body j s))) ->
  forall s, P s -> P (for_break body js s).
Proof.
  intros Hbody. induction js as [|j js IH]; intros s Hs; simpl; [exact Hs|].
  specialize (Hbody j s Hs). destruct (body j s) as [s'|s']; simpl in Hbody.
  - apply IH. exact Hbody.
  - exact Hbody.
Qed.

Lemma take_state (cfg : config) (spec : list Peak1D) (init : Qc)
  (d : direction) (j : nat) (flag : bool) (thr : Z) (st : walk_state) :
  ctl_state
    (take cfg spec init j flag thr
       {| total_intensity := total_intensity st;
          n_picked := n_picked st;
          bound := away d (bound st);
          sflag := sflag st;
          threshold := threshold st |})
  = taken spec d j flag thr st.
Proof.
  unfold take, taken, intensity_at. cbn [total_intensity n_picked bound
                                        sflag threshold].
  match goal with |- ctl_state (if ?c then _ else _) = _ => destruct c end;
    reflexivity.
Qed.

(** One iteration of a walk either stops before the sample, leaving the
    state as it is, or takes the sample, which is not picked. *)
Lemma walk_body_cases (cfg : config) (spec : list Peak1D) (picked : list bool)
  (i : nat) (d : direction) (j : nat) (st : walk_state) :
  walk_body cfg spec picked i d j st = Break st \/
  (nth j picked false = false /\
   exists flag thr,
     ctl_state (walk_body cfg spec picked i d j st)
     = taken spec d j flag thr st /\
     concession_step cfg st (taken spec d j flag thr st)).
Proof.
  unfold walk_body.
  destruct (nth j picked false) eqn:Ep; [left; reflexivity|].
  destruct (fgt _ (window_size cfg)); [left; reflexivity|].
  destruct (Qc_ltb _ _).
  - destruct (strict cfg) eqn:Es; [left; reflexivity|].
    destruct (sflag st) eqn:Ef; [left; reflexivity|].
    destruct (toward_seed d j =? i)%nat; [left; reflexivity|].
    right. split; [reflexivity|]. exists true, (threshold st + 1)%Z.
    simpl orb. cbv iota. rewrite <- Ef at 1. rewrite take_state. split; [reflexivity|].
    right. simpl. auto.
  - right. split; [reflexivity|]. exists (sflag st), (threshold st).
    rewrite take_state. split; [reflexivity|].
    left. simpl. auto.
Qed.

Lemma walk_body_concession (cfg : config) (spec : list Peak1D)
  (picked : list bool) (i : nat) (d : direction) (j : nat) (st : walk_state) :
  concession_inv cfg st ->
  concession_inv cfg (ctl_state (walk_body cfg spec picked i d j st)).
Proof.
  intros Hinv.
  destruct (walk_body_cases cfg spec picked i d j st)
    as [E|[_ [flag [thr [E Hstep]]]]].
  - rewrite E. exact Hinv.
  - rewrite E. unfold concession_inv, concession_step in *.
    destruct Hstep as [[F T]|[S [F [F' T]]]]; rewrite ?F, ?T, ?F'.
    + exact Hinv.
    + right. destruct Hinv as [[_ T0]|[_ [F0 _]]]; [|congruence].
      rewrite T0. auto.
Qed.

(** ** C3: the concession of a walk that is not strict *)












(** ** Sums over a range of indices *)

Lemma fold_sum_acc (f : nat -> Qc) (l : list nat) :
  forall acc : Qc,
    fold_left (fun acc k => (acc + f k)%Qc) l acc
    = (acc + fold_left (fun acc k => (acc + f k)%Qc) l 0%Qc)%Qc.
Proof.
  induction l as [|k l IH]; intros acc; simpl.
  - rewrite Qcplus_0_r. reflexivity.
  - rewrite IH. rewrite (IH (0 + f k)%Qc).
    rewrite Qcplus_0_l. rewrite Qcplus_assoc. reflexivity.
Qed.

Lemma sum_range_0 (f : nat -> Qc) (a : nat) : sum_range f a 0 = 0%Qc.
Proof.
  reflexivity.
Qed.

Lemma sum_range_first (f : nat -> Qc) (a n : nat) :
  sum_range f a (S n) = (f a + sum_range f (S a) n)%Qc.
Proof.
  unfold sum_range. simpl. rewrite fold_sum_acc.
  rewrite Qcplus_0_l. reflexivity.
Qed.

Lemma sum_range_last (f : nat -> Qc) (a n : nat) :
  sum_range f a (S n) = (sum_range f a n + f (a + n)%nat)%Qc.
Proof.
  unfold sum_range. rewrite seq_S, fold_left_app. reflexivity.
Qed.

Lemma sum_range_app (f : nat -> Qc) (a n m : nat) :
  sum_range f a (n + m) = (sum_range f a n + sum_range f (a + n)%nat m)%Qc.
Proof.
  unfold sum_range. rewrite seq_app, fold_left_app.
  apply fold_sum_acc.
Qed.

Lemma sum_range_ext (f h : nat -> Qc) (a n : nat) :
  (forall k, a <= k < a + n -> f k = h k) ->
  sum_range f a n = sum_range h a n.
Proof.
  revert a. induction n as [|n IH]; intros a H; [reflexivity|].
  rewrite !sum_range_first. rewrite H by lia. f_equal.
  apply IH. intros k Hk. apply H. lia.
Qed.

Lemma sum_range_nonneg (f : nat -> Qc) (n : nat) :
  forall a, (forall k, a <= k < a + n -> (0 < f k)%Qc) ->
            (0 <= sum_range f a n)%Qc.
Proof.
  induction n as [|n IH]; intros a H.
  - rewrite sum_range_0. apply Qcle_refl.
  - rewrite sum_range_first. apply Qclt_le_weak, Qcplus_pos_nonneg.
    + apply H. lia.
    + apply IH. intros k Hk. apply H. lia.
Qed.

Lemma sum_range_pos (f : nat -> Qc) (a n : nat) :
  (forall k, a <= k < a + S n -> (0 < f k)%Qc) ->
  (0 < sum_range f a (S n))%Qc.
Proof.
  intros H. rewrite sum_range_first. apply Qcplus_pos_nonneg.
  - apply H. lia.
  - apply sum_range_nonneg. intros k Hk. apply H. lia.
Qed.

Lemma sum_range_plus (f h : nat -> Qc) (n : nat) :
  forall a,
    sum_range (fun k => (f k + h k)%Qc) a n
    = (sum_range f a n + sum_range h a n)%Qc.
Proof.
  induction n as [|n IH]; intros a.
  - rewrite !sum_range_0. ring.
  - rewrite !sum_range_first, IH. ring.
Qed.

Lemma sum_range_scale (c : Qc) (f : nat -> Qc) (n : nat) :
  forall a,
    sum_range (fun k => (c * f k)%Qc) a n = (c * sum_range f a n)%Qc.
Proof.
  induction n as [|n IH]; intros a.
  - rewrite !sum_range_0. ring.
  - rewrite !sum_range_first, IH. ring.
Qed.

Lemma sum_range_shift (f : nat -> Qc) (n : nat) :
  forall a, sum_range (fun k => f (S k)) a n = sum_range f (S a) n.
Proof.
  induction n as [|n IH]; intros a; [reflexivity|].
  rewrite !sum_range_first, IH. reflexivity.
Qed.

(** ** What a walk leaves behind *)

Lemma rev_seq_S (b : nat) : rev (seq 0 (S b)) = b :: rev (seq 0 b).
Proof.
  rewrite seq_S, rev_app_distr. reflexivity.
Qed.

Lemma left_inv_taken (spec : list Peak1D) (picked : list bool) (i : nat)
  (t0 : Qc) (b : nat) (flag : bool) (thr : Z) (st : walk_state) :
  bound st = S b ->
  nth b picked false = false ->
  left_inv spec picked i t0 st ->
  left_inv spec picked i t0 (taken spec Leftwards b flag thr st) /\
  bound (taken spec Leftwards b flag thr st) = b.
Proof.
  intros Hb Hp [H1 [H2 H3]]. unfold left_inv, taken.
  cbn [bound total_intensity away]. rewrite Hb in *.
  replace (S b - 1) with b by lia. split; [|reflexivity].
  split; [lia|]. split.
  - intros k Hk. destruct (Nat.eq_dec k b) as [->|Hne]; [exact Hp|].
    apply H2. lia.
  - rewrite H3. replace (i - b) with (S (i - S b)) by lia.
    rewrite sum_range_first. rewrite <- !Qcplus_assoc. f_equal.
    apply Qcplus_comm.
Qed.

Lemma left_walk_inv (cfg : config) (spec : list Peak1D) (picked : list bool)
  (i : nat) (t0 : Qc) :
  forall (b : nat) (st : walk_state),
    bound st = b ->
    left_inv spec picked i t0 st ->
    left_inv spec picked i t0
      (for_break (walk_body cfg spec picked i Leftwards) (rev (seq 0 b)) st).
Proof.
  induction b as [|b IH]; intros st Hb Hinv; [exact Hinv|].
  rewrite rev_seq_S. cbn [for_break].
  destruct (walk_body_cases cfg spec picked i Leftwards b st)
    as [E|[Hp [flag [thr [E _]]]]].
  - rewrite E. exact Hinv.
  - destruct (left_inv_taken spec picked i t0 b flag thr st Hb Hp Hinv)
      as [Hinv' Hb'].
    destruct (walk_body cfg spec picked i Leftwards b st) as [s'|s'];
      simpl in E; subst s'.
    + apply IH; assumption.
    + exact Hinv'.
Qed.

Lemma right_inv_taken (spec : list Peak1D) (picked : list bool) (i : nat)
  (t0 : Qc) (b : nat) (flag : bool) (thr : Z) (st : walk_state) :
  bound st = b ->
  nth (S b) picked false = false ->
  right_inv spec picked i t0 st ->
  right_inv spec picked i t0 (taken spec Rightwards (S b) flag thr st) /\
  bound (taken spec Rightwards (S b) flag thr st) = S b.
Proof.
  intros Hb Hp [H1 [H2 H3]]. unfold right_inv, taken.
  cbn [bound total_intensity away]. rewrite Hb in *.
  replace (b + 1) with (S b) by lia. split; [|reflexivity].
  split; [lia|]. split.
  - intros k Hk. destruct (Nat.eq_dec k (S b)) as [->|Hne]; [exact Hp|].
    apply H2. lia.
  - rewrite H3. replace (S b - i) with (S (b - i)) by lia.
    rewrite sum_range_last. rewrite <- !Qcplus_assoc.
    replace (S i + (b - i)) with (S b) by lia. reflexivity.
Qed.

Lemma right_walk_inv (cfg : config) (spec : list Peak1D) (picked : list bool)
  (i : nat) (t0 : Qc) :
  forall (m b : nat) (st : walk_state),
    bound st = b ->
    right_inv spec picked i t0 st ->
    let r := for_break (walk_body cfg spec picked i Rightwards)
               (seq (S b) m) st in
    right_inv spec picked i t0 r /\ bound r <= b + m.
Proof.
  induction m as [|m IH]; intros b st Hb Hinv; cbn zeta.
  - simpl. split; [exact Hinv | lia].
  - cbn [seq for_break].
    destruct (walk_body_cases cfg spec picked i Rightwards (S b) st)
      as [E|[Hp [flag [thr [E _]]]]].
    + rewrite E. split; [exact Hinv | lia].
    + destruct (right_inv_taken spec picked i t0 b flag thr st Hb Hp Hinv)
        as [Hinv' Hb'].
      destruct (walk_body cfg spec picked i Rightwards (S b) st) as [s'|s'];
        simpl in E; subst s'.
      * destruct (IH (S b) _ Hb' Hinv') as [R1 R2]. split; [exact R1 | lia].
      * split; [exact Hinv' | lia].
Qed.

(** An accepted seed: the span contains the seed, lies within the
    spectrum, holds no picked sample, and the total is the sum of its
    intensities. *)
Lemma expand_spec (cfg : config) (spec : list Peak1D) (picked : list bool)
  (i low high : nat) (total : Qc) :
  i < length spec ->
  nth i picked false = false ->
  expand cfg spec picked i = Some (low, high, total) ->
  low <= i <= high /\ high < length spec /\
  (forall k, low <= k <= high -> nth k picked false = false) /\
  total = span_intensity spec low high.
Proof.
  intros Hi Hp H. unfold expand, walk in H.
  set (t0 := getIntensity (peak_at spec i)) in H.
  set (st0 := {| total_intensity := t0; n_picked := 0; bound := i;
                 sflag := false; threshold := min_req cfg |}) in H.
  assert (HL : left_inv spec picked i t0
                 (for_break (walk_body cfg spec picked i Leftwards)
                    (walk_range (length spec) i Leftwards) st0)).
  { apply left_walk_inv; [reflexivity|].
    unfold left_inv, st0. cbn [bound total_intensity].
    split; [lia|]. split; [intros k Hk; lia|].
    rewrite Nat.sub_diag, sum_range_0, Qcplus_0_r. reflexivity. }
  set (l := for_break (walk_body cfg spec picked i Leftwards)
              (walk_range (length spec) i Leftwards) st0) in *.
  destruct (n_picked l <? threshold l)%Z; [discriminate|].
  set (st1 := {| total_intensity := total_intensity l; n_picked := 0;
                 bound := i; sflag := false; threshold := min_req cfg |}) in H.
  assert (HR : right_inv spec picked i (total_intensity l)
                 (for_break (walk_body cfg spec picked i Rightwards)
                    (seq (S i) (length spec - S i)) st1) /\
               bound (for_break (walk_body cfg spec picked i Rightwards)
                        (seq (S i) (length spec - S i)) st1)
               <= i + (length spec - S i)).
  { apply right_walk_inv; [reflexivity|].
    unfold right_inv, st1. cbn [bound total_intensity].
    split; [lia|]. split; [intros k Hk; lia|].
    rewrite Nat.sub_diag, sum_range_0, Qcplus_0_r. reflexivity. }
  unfold walk_range in H. rewrite Nat.add_1_r in H.
  set (r := for_break (walk_body cfg spec picked i Rightwards)
              (seq (S i) (length spec - S i)) st1) in *.
  destruct (n_picked r <? threshold r)%Z; [discriminate|].
  inversion H; subst low high total; clear H.
  destruct HL as [L1 [L2 L3]]. destruct HR as [[R1 [R2 R3]] R4].
  split; [lia|]. split; [lia|]. split.
  - intros k Hk. destruct (Nat.lt_trichotomy k i) as [Hlt|[->|Hgt]].
    + apply L2. lia.
    + exact Hp.
    + apply R2. lia.
  - rewrite R3, L3. unfold span_intensity.
    replace (bound r + 1 - bound l) with ((i - bound l) + S (bound r - i))
      by lia.
    rewrite sum_range_app, sum_range_first.
    replace (bound l + (i - bound l)) with i by lia.
    unfold t0, intensity_at. ring.
Qed.

(** The loop over the span sets the flags of the span, and adds up the
    weighted positions. *)
Lemma mark_loop_spec (spec : list Peak1D) (total : Qc) (n : nat) :
  forall (low : nat) (picked picked' : list bool) (tp tp' : Qc),
    for_each (mark_body spec total) (seq low n) (picked, tp)
    = Ok (picked', tp') ->
    low + n <= length picked ->
    length picked' = length picked /\
    (forall k, nth k picked' false
               = if (low <=? k) && (k <? low + n) then true
                 else nth k picked false) /\
    tp' = (tp + sum_range
                  (fun k => (getPos (peak_at spec k) *
                             (intensity_at spec k / total))%Qc) low n)%Qc.
Proof.
  induction n as [|n IH]; intros low picked picked' tp tp' H Hlen.
  - simpl in H. inversion H; subst. split; [reflexivity|]. split.
    + intros k. destruct (low <=? k) eqn:E1; simpl; [|reflexivity].
      destruct (k <? low + 0) eqn:E2; [|reflexivity].
      apply Nat.leb_le in E1. apply Nat.ltb_lt in E2. lia.
    + rewrite sum_range_0, Qcplus_0_r. reflexivity.
  - cbn [seq for_each] in H. bind_inv H. destruct a as [p1 t1].
    unfold mark_body in Ha. bind_inv Ha. rename a into w, Ha0 into Hw.
    inversion Ha; subst p1 t1; clear Ha.
    unfold qdiv in Hw. destruct (Qc_eqb total 0); [discriminate|].
    inversion Hw; subst w; clear Hw.
    apply IH in H; [|rewrite length_update; lia].
    destruct H as [L [N T]]. rewrite length_update in L.
    split; [exact L|]. split.
    + intros k. rewrite N.
      destruct (Nat.lt_trichotomy k low) as [Hlt|[->|Hgt]].
      * assert (E1 : (S low <=? k) = false) by (apply Nat.leb_gt; lia).
        assert (E2 : (low <=? k) = false) by (apply Nat.leb_gt; lia).
        rewrite E1, E2. simpl. apply nth_update_other. lia.
      * assert (E1 : (S low <=? low) = false) by (apply Nat.leb_gt; lia).
        assert (E2 : (low <=? low) = true) by (apply Nat.leb_le; lia).
        assert (E3 : (low <? low + S n) = true) by (apply Nat.ltb_lt; lia).
        rewrite E1, E2, E3. simpl. rewrite nth_update_same by lia.
        reflexivity.
      * assert (E1 : (S low <=? k) = true) by (apply Nat.leb_le; lia).
        assert (E2 : (low <=? k) = true) by (apply Nat.leb_le; lia).
        assert (E3 : (k <? low + S n) = (k <? S low + n))
          by (replace (low + S n) with (S low + n) by lia; reflexivity).
        rewrite E1, E2, E3. cbn [andb].
        destruct (k <? S low + n); [reflexivity|].
        apply nth_update_other. lia.
    + rewrite T, sum_range_first. unfold intensity_at.
      rewrite Qcplus_assoc. reflexivity.
Qed.

Lemma mark_loop_total (spec : list Peak1D) (total : Qc) (n : nat) :
  total <> 0%Qc ->
  forall (low : nat) (picked : list bool) (tp : Qc),
    exists r, for_each (mark_body spec total) (seq low n) (picked, tp) = Ok r.
Proof.
  intros Ht. induction n as [|n IH]; intros low picked tp.
  - eexists. reflexivity.
  - cbn [seq for_each]. unfold mark_body at 1, qdiv.
    apply Qc_eqb_neq in Ht. rewrite Ht. cbn [bind]. apply IH.
Qed.

Lemma mark_loop_position (spec : list Peak1D) (total : Qc) (n : nat) :
  forall (low : nat) (pk pk' : list bool) (tp tp' : Qc),
    for_each (mark_body spec total) (seq low n) (pk, tp) = Ok (pk', tp') ->
    tp' = (tp + sum_range
                  (fun k => (getPos (peak_at spec k) *
                             (intensity_at spec k / total))%Qc) low n)%Qc.
Proof.
  induction n as [|n IH]; intros low pk pk' tp tp' H.
  - simpl in H. inversion H; subst.
    rewrite sum_range_0, Qcplus_0_r. reflexivity.
  - cbn [seq for_each] in H. bind_inv H. destruct a as [p2 t2].
    unfold mark_body in Ha. bind_inv Ha.
    inversion Ha; subst p2 t2; clear Ha.
    unfold qdiv in Ha0. destruct (Qc_eqb total 0); [discriminate|].
    inversion Ha0; subst a; clear Ha0.
    apply IH in H. rewrite H, sum_range_first. unfold intensity_at.
    rewrite Qcplus_assoc. reflexivity.
Qed.

(** ** The loop over the seeds *)

Lemma pick_seed_inv (cfg : config) (spec : list Peak1D) (i : nat)
  (st st' : pick_state) :
  i < length spec ->
  pick_inv spec st ->
  pick_seed cfg spec i st = Ok st' ->
  pick_inv spec st'.
Proof.
  intros Hi Hinv H. unfold pick_seed in H.
  destruct (nth i (picked st) false) eqn:Ep; [inversion H; subst; exact Hinv|].
  destruct (expand cfg spec (picked st) i) as [[[low high] total]|] eqn:Ee;
    [|inversion H; subst; exact Hinv].
  bind_inv H. destruct a as [picked' tp]. inversion H; subst st'; clear H.
  destruct (expand_spec cfg spec (picked st) i low high total Hi Ep Ee)
    as [Hspan [Hhigh [Hunp Htot]]].
  destruct Hinv as [I1 [I2 [I3 [I4 I5]]]].
  apply mark_loop_spec in Ha; [|rewrite I1; lia].
  destruct Ha as [L [N T]].
  unfold pick_inv. cbn [picked spans new_spec].
  split; [congruence|]. split; [|split; [|split]].
  - intros k. rewrite N.
    replace (low + (high + 1 - low)) with (S high) by lia.
    destruct ((low <=? k) && (k <? S high)) eqn:E.
    + apply andb_true_iff in E. destruct E as [E1 E2].
      apply Nat.leb_le in E1. apply Nat.ltb_lt in E2.
      split; [intros _|reflexivity].
      exists (low, high). split; [left; reflexivity|].
      unfold in_span. simpl. lia.
    + rewrite I2. split.
      * intros [sp [Hin Hk]]. exists sp. split; [right; exact Hin | exact Hk].
      * intros [sp [[Heq|Hin] Hk]]; [|exists sp; auto].
        subst sp. unfold in_span in Hk. simpl in Hk.
        apply andb_false_iff in E. destruct E as [E|E].
        -- apply Nat.leb_gt in E. lia.
        -- apply Nat.ltb_ge in E. lia.
  - constructor; [|exact I3].
    apply Forall_forall. intros [a b] Hin.
    pose proof (I4 (a, b) Hin) as Hab. simpl in Hab.
    unfold disjoint. simpl.
    destruct (le_lt_dec a high) as [H1|H1]; [|left; exact H1].
    destruct (le_lt_dec low b) as [H2|H2]; [|right; exact H2].
    exfalso.
    assert (Hk : nth (Nat.max low a) (picked st) false = true).
    { apply I2. exists (a, b). split; [exact Hin|].
      unfold in_span. simpl. lia. }
    rewrite Hunp in Hk by lia. discriminate.
  - intros sp [Heq|Hin]; [subst sp; simpl; lia | apply I4; exact Hin].
  - simpl rev. rewrite map_app, <- I5. simpl. f_equal. f_equal.
    unfold composite. simpl. rewrite T, Qcplus_0_l, Htot. reflexivity.
Qed.

Lemma pick_loop_inv (cfg : config) (spec : list Peak1D) (order : list nat) :
  Forall (fun i => i < length spec) order ->
  forall st st' : pick_state,
    pick_inv spec st ->
    for_each (pick_seed cfg spec) order st = Ok st' ->
    pick_inv spec st'.
Proof.
  induction 1 as [|i order Hi _ IH]; intros st st' Hinv H.
  - simpl in H. inversion H; subst. exact Hinv.
  - cbn [for_each] in H. bind_inv H.
    apply (IH a st'); [|exact H].
    apply (pick_seed_inv cfg spec i st a Hi Hinv Ha).
Qed.

Lemma nth_repeat_false (n k : nat) : nth k (repeat false n) false = false.
Proof.
  revert k. induction n as [|n IH]; intros [|k]; simpl; auto.
Qed.

Lemma pick_inv_initial (spec : list Peak1D) :
  pick_inv spec
    {| picked := repeat false (length spec); new_spec := []; spans := [] |}.
Proof.
  unfold pick_inv. cbn [picked spans new_spec].
  split; [apply repeat_length|]. split; [|split; [|split]].
  - intros k. rewrite nth_repeat_false. split; [discriminate|].
    intros [sp [[] _]].
  - constructor.
  - intros sp [].
  - reflexivity.
Qed.

(** The seeds visited are indices of the spectrum, in either order. *)
Lemma insert_desc_In (x y : Qc * nat) (l : list (Qc * nat)) :
  In y (insert_desc x l) -> y = x \/ In y l.
Proof.
  induction l as [|z l IH]; simpl.
  - intros [H|[]]. left. congruence.
  - destruct (pair_gt z x); simpl.
    + intros [H|H]; [right; left; exact H|].
      destruct (IH H) as [E|E]; auto.
    + intros [H|H]; [left; congruence | right; exact H].
Qed.

Lemma sorted_desc_In (y : Qc * nat) (l : list (Qc * nat)) :
  In y (sorted_desc l) -> In y l.
Proof.
  induction l as [|x l IH]; simpl; [auto|].
  intros H. apply insert_desc_In in H. destruct H as [E|H]; auto.
Qed.

Lemma seed_order_in_range (cfg : config) (spec : list Peak1D) :
  Forall (fun i => i < length spec) (seed_order cfg spec).
Proof.
  apply Forall_forall. intros i Hin. unfold seed_order in Hin.
  destruct (sequential cfg).
  - apply in_seq in Hin. lia.
  - apply in_map_iff in Hin. destruct Hin as [[q k] [E Hin]].
    simpl in E. subst k. apply sorted_desc_In in Hin.
    apply in_combine_r in Hin. apply in_seq in Hin. lia.
Qed.

Lemma pick_sorted_inv (cfg : config) (spec : list Peak1D) (st : pick_state) :
  pick_sorted cfg spec = Ok st -> pick_inv spec st.
Proof.
  unfold pick_sorted. intros H.
  eapply pick_loop_inv; [apply seed_order_in_range | | exact H].
  apply pick_inv_initial.
Qed.

(** ** Picking completes when the intensities are positive *)

Lemma span_intensity_pos (spec : list Peak1D) (low high : nat) :
  (forall p, In p spec -> (0 < getIntensity p)%Qc) ->
  low <= high -> high < length spec ->
  (0 < span_intensity spec low high)%Qc.
Proof.
  intros Hpos Hl Hh. unfold span_intensity.
  replace (high + 1 - low) with (S (high - low)) by lia.
  apply sum_range_pos. intros k Hk. unfold intensity_at, peak_at.
  apply Hpos. apply nth_In. lia.
Qed.

Lemma pick_seed_total (cfg : config) (spec : list Peak1D) (i : nat)
  (st : pick_state) :
  (forall p, In p spec -> (0 < getIntensity p)%Qc) ->
  i < length spec ->
  exists st', pick_seed cfg spec i st = Ok st'.
Proof.
  intros Hpos Hi. unfold pick_seed.
  destruct (nth i (picked st) false) eqn:Ep; [eexists; reflexivity|].
  destruct (expand cfg spec (picked st) i) as [[[low high] total]|] eqn:Ee;
    [|eexists; reflexivity].
  destruct (expand_spec cfg spec (picked st) i low high total Hi Ep Ee)
    as [Hspan [Hhigh [_ Htot]]].
  assert (Ht : total <> 0%Qc).
  { apply Qc_pos_neq_0. rewrite Htot.
    apply span_intensity_pos; [exact Hpos | lia | exact Hhigh]. }
  destruct (mark_loop_total spec total (high + 1 - low) Ht low (picked st) 0%Qc)
    as [[picked' tp] E].
  rewrite E. cbn [bind]. eexists. reflexivity.
Qed.

Lemma pick_loop_total (cfg : config) (spec : list Peak1D) (order : list nat) :
  (forall p, In p spec -> (0 < getIntensity p)%Qc) ->
  Forall (fun i => i < length spec) order ->
  forall st, exists st', for_each (pick_seed cfg spec) order st = Ok st'.
Proof.
  intros Hpos. induction 1 as [|i order Hi _ IH]; intros st.
  - eexists. reflexivity.
  - cbn [for_each].
    destruct (pick_seed_total cfg spec i st Hpos Hi) as [st1 E].
    rewrite E. cbn [bind]. apply IH.
Qed.

(** ** C4: the composite peak of an accepted span *)

Lemma mark_loop_zero_total (spec : list Peak1D) (low n : nat)
  (s : list bool * Qc) :
  for_each (mark_body spec 0%Qc) (seq low (S n)) s = Raise ZeroDivisionError.
Proof.
  destruct s as [pk tp]. reflexivity.
Qed.

(** The weighted position of a span is the average of the positions of
    its samples weighted by their intensities. *)
Lemma weighted_position_average (spec : list Peak1D) (low high : nat) :
  span_intensity spec low high <> 0%Qc ->
  (weighted_position spec low high * span_intensity spec low high)%Qc
  = sum_range (fun k => (getPos (peak_at spec k) * intensity_at spec k)%Qc)
      low (high + 1 - low).
Proof.
  intros Ht. unfold weighted_position.
  set (T := span_intensity spec low high) in *.
  rewrite Qcmult_comm, <- sum_range_scale.
  apply sum_range_ext. intros k _. field. exact Ht.
Qed.

(** C4: a seed that is not picked and whose two walks meet their
    thresholds, with the span [low, high] and the total accumulated, is
    accepted: the span lies around the seed within the spectrum, the total
    is the sum of the intensities of the samples of the span, and when it
    is not zero one peak is pushed, whose intensity is that sum and whose
    position is the sum over the span of each position times its
    intensity over the total, which is the average of the positions
    weighted by the intensities; the samples of the span, and no others,
    are marked.  When the total is zero the division raises and no peak
    is pushed.  A seed that is picked, or a walk of which misses its
    threshold, pushes nothing.  So the peaks of a picked spectrum are the
    composites of the accepted spans, in the order of acceptance; and
    picking completes when all the intensities are positive. *)
Theorem composite_peak_of_span (cfg : config) (spec : list Peak1D) :
  (forall (i : nat) (st : pick_state) (low high : nat) (total : Qc),
      i < length spec ->
      length (picked st) = length spec ->
      nth i (picked st) false = false ->
      expand cfg spec (picked st) i = Some (low, high, total) ->
      low <= i <= high /\ high < length spec /\
      total = span_intensity spec low high /\
      (total = 0%Qc ->
       pick_seed cfg spec i st = Raise ZeroDivisionError) /\
      (total <> 0%Qc ->
       (weighted_position spec low high * span_intensity spec low high)%Qc
       = sum_range
           (fun k => (getPos (peak_at spec k) * intensity_at spec k)%Qc)
           low (high + 1 - low) /\
       exists picked',
         pick_seed cfg spec i st
         = Ok {| picked := picked';
                 new_spec :=
                   new_spec st
                   ++ [mkPeak (weighted_position spec low high)
                              (span_intensity spec low high)];
                 spans := (low, high) :: spans st |} /\
         length picked' = length spec /\
         forall k, nth k picked' false
                   = if (low <=? k) && (k <=? high) then true
                     else nth k (picked st) false)) /\
  (forall (i : nat) (st : pick_state),
      nth i (picked st) false = true \/
      expand cfg spec (picked st) i = None ->
      pick_seed cfg spec i st = Ok st) /\
  (forall st,
      pick_sorted cfg spec = Ok st ->
      new_spec st = map (composite spec) (rev (spans st)) /\
      length (new_spec st) = length (spans st) /\
      forall sp, In sp (spans st) -> fst sp <= snd sp < length spec) /\
  ((forall p, In p spec -> (0 < getIntensity p)%Qc) ->
   exists st, pick_sorted cfg spec = Ok st).
Proof.
  split; [|split; [|split]].
  - intros i st low high total Hi Hlen Hp He.
    destruct (expand_spec cfg spec (picked st) i low high total Hi Hp He)
      as [Hspan [Hhigh [_ Htot]]].
    split; [exact Hspan|]. split; [exact Hhigh|]. split; [exact Htot|].
    unfold pick_seed. rewrite Hp, He. split.
    + intros Hz. rewrite Hz.
      replace (high + 1 - low) with (S (high - low)) by lia.
      rewrite mark_loop_zero_total. reflexivity.
    + intros Hnz. split.
      * apply weighted_position_average. rewrite <- Htot. exact Hnz.
      * destruct (mark_loop_total spec total (high + 1 - low) Hnz low
                    (picked st) 0%Qc) as [[picked' tp] E].
        pose proof E as E'.
        apply mark_loop_spec in E'; [|rewrite Hlen; lia].
        destruct E' as [L [N T]].
        exists picked'. rewrite E. cbn [bind]. split; [|split].
        -- rewrite T, Qcplus_0_l, Htot. reflexivity.
        -- congruence.
        -- intros k. rewrite N.
           replace (low + (high + 1 - low)) with (S high) by lia.
           replace (k <? S high) with (k <=? high); [reflexivity|].
           destruct (k <=? high) eqn:E1; symmetry.
           ++ apply Nat.leb_le in E1. apply Nat.ltb_lt. lia.
           ++ apply Nat.leb_gt in E1. apply Nat.ltb_ge. lia.
  - intros i st [Hp|He]; unfold pick_seed.
    + rewrite Hp. reflexivity.
    + destruct (nth i (picked st) false); [reflexivity|].
      rewrite He. reflexivity.
  - intros st H. apply pick_sorted_inv in H.
    destruct H as [_ [_ [_ [I4 I5]]]].
    split; [exact I5|]. split; [|exact I4].
    rewrite I5, length_map, length_rev. reflexivity.
  - intros Hpos. unfold pick_sorted.
    apply pick_loop_total; [exact Hpos | apply seed_order_in_range].
Qed.

(** The theorem at the seed of three samples around a maximum: the peak
    pushed has intensity 6 + 10 + 5 and the weighted position. *)
Lemma composite_peak_of_span_witness :
  exists picked',
    pick_seed default_config triple 1
      {| picked := repeat false 3; new_spec := []; spans := [] |}
    = Ok {| picked := picked';
            new_spec := [mkPeak (weighted_position triple 0 2)
                                (span_intensity triple 0 2)];
            spans := [(0, 2)] |} /\
    span_intensity triple 0 2 = Qc_of_Z 21 /\
    weighted_position triple 0 2 = Q2Qc (20999 # 210).
Proof.
  assert (T : span_intensity triple 0 2 = Qc_of_Z 21)
    by (apply Qc_is_canon; vm_compute; reflexivity).
  destruct (expand default_config triple (repeat false 3) 1)
    as [[[low high] total]|] eqn:E; [|vm_compute in E; discriminate E].
  assert (B : low = 0 /\ high = 2).
  { vm_compute in E. injection E as E1 E2 _. auto. }
  destruct B as [-> ->].
  destruct (proj1 (composite_peak_of_span default_config triple) 1
              {| picked := repeat false 3; new_spec := []; spans := [] |}
              0 2 total) as [_ [_ [Ht [_ H]]]].
  - simpl. lia.
  - reflexivity.
  - reflexivity.
  - exact E.
  - destruct H as [_ [picked' [H _]]].
    + rewrite Ht, T. apply Qc_eqb_neq. reflexivity.
    + exists picked'. split; [exact H|]. split; [exact T|].
      apply Qc_is_canon. vm_compute. reflexivity.
Defined.

(** ** C10: the accepted spans are pairwise disjoint *)

Lemma disjoint_spans_unique (l : list (nat * nat)) :
  ForallOrdPairs disjoint l ->
  forall k sp sp',
    In sp l -> In sp' l -> in_span k sp -> in_span k sp' -> sp = sp'.
Proof.
  induction 1 as [|x l Hx _ IH]; intros k sp sp' H1 H2 K1 K2; [destruct H1|].
  rewrite Forall_forall in Hx. unfold disjoint, in_span in *.
  destruct H1 as [E1|H1], H2 as [E2|H2].
  - congruence.
  - subst sp. specialize (Hx sp' H2). lia.
  - subst sp'. specialize (Hx sp H1). lia.
  - apply (IH k); assumption.
Qed.

(** C10: after a scan is picked, in either visiting order, the accepted
    spans are pairwise disjoint, a sample lies in at most one of them, the
    samples flagged as picked are those of the spans, and each emitted
    peak comes from one span. *)
Theorem accepted_spans_disjoint (cfg : config) (spec : list Peak1D)
  (st : pick_state) :
  pick_sorted cfg spec = Ok st ->
  ForallOrdPairs disjoint (spans st) /\
  (forall k sp sp',
      In sp (spans st) -> In sp' (spans st) ->
      in_span k sp -> in_span k sp' -> sp = sp') /\
  (forall k, nth k (picked st) false = true <->
             exists sp, In sp (spans st) /\ in_span k sp) /\
  length (new_spec st) = length (spans st).
Proof.
  intros H. apply pick_sorted_inv in H.
  destruct H as [_ [I2 [I3 [_ I5]]]].
  split; [exact I3|]. split; [apply disjoint_spans_unique; exact I3|].
  split; [exact I2|].
  rewrite I5, length_map, length_rev. reflexivity.
Qed.

(** The theorem at three samples visited by descending intensity. *)
Lemma accepted_spans_disjoint_witness :
  exists st,
    pick_sorted by_intensity triple = Ok st /\
    ForallOrdPairs disjoint (spans st).
Proof.
  destruct (pick_sorted by_intensity triple) as [st|e] eqn:E.
  - exists st. split; [reflexivity|].
    exact (proj1 (accepted_spans_disjoint by_intensity triple st E)).
  - vm_compute in E. discriminate E.
Defined.

(** * Further properties of the code *)

(** ** Linear arithmetic on canonical rationals *)

Lemma Qc_this_plus (x y : Qc) : (this (x + y)%Qc == this x + this y)%Q.
Proof.
  unfold Qcplus, Q2Qc. cbn [this]. apply Qred_correct.
Qed.

Lemma Qc_this_mult (x y : Qc) : (this (x * y)%Qc == this x * this y)%Q.
Proof.
  unfold Qcmult, Q2Qc. cbn [this]. apply Qred_correct.
Qed.

Lemma Qc_this_opp (x : Qc) : (this (- x)%Qc == - this x)%Q.
Proof.
  unfold Qcopp, Q2Qc. cbn [this]. apply Qred_correct.
Qed.

Lemma Qc_this_minus (x y : Qc) : (this (x - y)%Qc == this x - this y)%Q.
Proof.
  unfold Qcminus. rewrite Qc_this_plus, Qc_this_opp. reflexivity.
Qed.

Lemma Qc_this_Q2Qc (q : Q) : (this (Q2Qc q) == q)%Q.
Proof.
  unfold Q2Qc. cbn [this]. apply Qred_correct.
Qed.

Lemma Qc_eq_Qeq (x y : Qc) : x = y -> (this x == this y)%Q.
Proof.
  intros ->. reflexivity.
Qed.

Ltac qc_lra :=
  try apply Qc_is_canon;
  unfold Qcle, Qclt, Qc_of_Z in *;
  repeat match goal with
  | H : @eq Qc _ _ |- _ => apply Qc_eq_Qeq in H
  end;
  rewrite ?Qc_this_minus, ?Qc_this_plus, ?Qc_this_mult, ?Qc_this_opp,
    ?Qc_this_Q2Qc in *;
  unfold Z.sub in *;
  rewrite ?inject_Z_plus, ?inject_Z_opp in *;
  change (inject_Z 1) with 1%Q in *;
  lra.

Lemma Qcdiv_mult_cancel (x b : Qc) : b <> 0%Qc -> (x / b * b)%Qc = x.
Proof.
  intros Hb. field. exact Hb.
Qed.

Lemma Qcle_div_iff (c x b : Qc) :
  (0 < b)%Qc -> ((c <= x / b)%Qc <-> (c * b <= x)%Qc).
Proof.
  intros Hb. pose proof (Qc_pos_neq_0 b Hb) as Hb0. split; intros H.
  - rewrite <- (Qcdiv_mult_cancel x b Hb0).
    apply Qcmult_le_compat_r; [exact H | apply Qclt_le_weak, Hb].
  - apply Qcmult_lt_0_le_reg_r with (z := b); [exact Hb|].
    rewrite Qcdiv_mult_cancel by exact Hb0. exact H.
Qed.

Lemma Qclt_div_iff (c x b : Qc) :
  (0 < b)%Qc -> ((x / b < c)%Qc <-> (x < c * b)%Qc).
Proof.
  intros Hb. split; intros H.
  - apply Qcnot_le_lt. intros L. apply (Qcle_div_iff c x b Hb) in L.
    exact (Qcle_not_lt _ _ L H).
  - apply Qcnot_le_lt. intros L. apply (Qcle_div_iff c x b Hb) in L.
    exact (Qcle_not_lt _ _ L H).
Qed.

Lemma Qc_of_Z_nonneg (z : Z) : (0 <= z)%Z -> (0 <= Qc_of_Z z)%Qc.
Proof.
  intros H. unfold Qcle, Qc_of_Z. rewrite !Qc_this_Q2Qc.
  unfold Qle. simpl. lia.
Qed.

(** The floor of a rational against an integer. *)
Lemma Qc_floor_ge (q : Qc) (k : Z) :
  (k <= Qfloor q)%Z <-> (Qc_of_Z k <= q)%Qc.
Proof.
  split; intros H.
  - unfold Qcle, Qc_of_Z. rewrite Qc_this_Q2Qc.
    apply Qle_trans with (y := inject_Z (Qfloor q)); [|apply Qfloor_le].
    rewrite <- Zle_Qle. exact H.
  - unfold Qcle, Qc_of_Z in H. rewrite Qc_this_Q2Qc in H.
    apply Qfloor_resp_le in H. rewrite Qfloor_Z in H. exact H.
Qed.

Lemma Qc_floor_lt (q : Qc) (k : Z) :
  (Qfloor q < k)%Z <-> (q < Qc_of_Z k)%Qc.
Proof.
  split; intros H.
  - apply Qcnot_le_lt. intros L. apply Qc_floor_ge in L. lia.
  - apply Z.nle_gt. intros L. apply Qc_floor_ge in L.
    exact (Qcle_not_lt _ _ L H).
Qed.

Lemma scaled_floor_ge (f b im : Qc) (k : Z) :
  (0 < b)%Qc ->
  ((k <= Qfloor ((im - f) / b)%Qc)%Z <-> (f + Qc_of_Z k * b <= im)%Qc).
Proof.
  intros Hb. rewrite Qc_floor_ge, (Qcle_div_iff _ _ b Hb).
  split; intros H; qc_lra.
Qed.

Lemma scaled_floor_lt (f b im : Qc) (k : Z) :
  (0 < b)%Qc ->
  ((Qfloor ((im - f) / b)%Qc < k)%Z <-> (im < f + Qc_of_Z k * b)%Qc).
Proof.
  intros Hb. rewrite Qc_floor_lt, (Qclt_div_iff _ _ b Hb).
  split; intros H; qc_lra.
Qed.

(** ** The intervals of the bins *)

Lemma Ok_inj {A : Type} (x y : A) : @Ok A x = Ok y <-> x = y.
Proof.
  split; intros H; [inversion H; reflexivity | subst; reflexivity].
Qed.

(** The bins of the first pass tile the ion mobilities from [first_im] on:
    a point not below [first_im] gets index [k] exactly when its ion
    mobility is at least [first_im + k * bin_size] and, unless [k] is the
    last index, below [first_im + (k + 1) * bin_size]. *)
Theorem primary_bin_tiling (g : globals) (p : point) (f b : Qc) (k : Z) :
  first_im g = Fin f ->
  bin_size g = Fin b ->
  (0 < b)%Qc ->
  (f <= p_im p)%Qc ->
  (0 <= k < num_bins g)%Z ->
  (primary_bin_idx g p = Ok k <->
   (f + Qc_of_Z k * b <= p_im p)%Qc /\
   ((k < num_bins g - 1)%Z -> (p_im p < f + Qc_of_Z (k + 1) * b)%Qc)).
Proof.
  intros Hf Hb Hpos Him Hk.
  destruct (primary_bin_idx_in_range g p f b Hf Hb Hpos ltac:(lia) Him)
    as [Hidx _].
  rewrite Hidx, Ok_inj. unfold clamped_floor_idx.
  rewrite <- (scaled_floor_ge f b (p_im p) k Hpos).
  rewrite <- (scaled_floor_lt f b (p_im p) (k + 1) Hpos).
  assert (H0 : (0 <= Qfloor ((p_im p - f) / b)%Qc)%Z).
  { assert (Hq : (0 <= (p_im p - f) / b)%Qc)
      by (apply Qcdiv_nonneg; [apply Qcminus_nonneg; exact Him | exact Hpos]).
    destruct (Qc_trunc_nonneg _ Hq) as [E H]. rewrite <- E. exact H. }
  lia.
Qed.

(** The theorem at the second of [four_unit_bins]. *)
Lemma primary_bin_tiling_witness :
  primary_bin_idx four_unit_bins (point_at_im (Q2Qc (3 # 2))) = Ok 1%Z.
Proof.
  apply (primary_bin_tiling four_unit_bins (point_at_im (Q2Qc (3 # 2)))
           0%Qc 1%Qc 1%Z eq_refl eq_refl).
  - reflexivity.
  - apply Qc_leb_le. vm_compute. reflexivity.
  - simpl. lia.
  - split.
    + apply Qc_leb_le. vm_compute. reflexivity.
    + intros _. apply Qc_ltb_lt. vm_compute. reflexivity.
Defined.

(** The bins of the second pass: index 0 below [offset_im]; index [k]
    from 1 on exactly when the ion mobility is at least
    [offset_im + (k - 1) * bin_size] and, unless [k] is the last index
    [num_bins], below [offset_im + k * bin_size]. *)
Theorem secondary_bin_tiling (g : globals) (p : point) (b o : Qc) (k : Z) :
  bin_size g = Fin b ->
  offset_im g = Fin o ->
  (0 < b)%Qc ->
  (0 <= k <= num_bins g)%Z ->
  (1 <= num_bins g)%Z ->
  (secondary_bin_idx g p = Ok k <->
   (k = 0%Z /\ (p_im p < o)%Qc) \/
   ((1 <= k)%Z /\ (o + Qc_of_Z (k - 1) * b <= p_im p)%Qc /\
    ((k < num_bins g)%Z -> (p_im p < o + Qc_of_Z k * b)%Qc))).
Proof.
  intros Hb Ho Hpos Hk Hn. unfold secondary_bin_idx. rewrite Hb, Ho.
  simpl flt. destruct (Qc_ltb (p_im p) o) eqn:E.
  - apply Qc_ltb_lt in E. rewrite Ok_inj. split.
    + intros <-. left. split; [reflexivity | exact E].
    + intros [[-> _]|[H1 [H2 _]]]; [reflexivity|]. exfalso.
      assert (H3 : (o <= o + Qc_of_Z (k - 1) * b)%Qc).
      { rewrite <- (Qcplus_0_r o) at 1.
        apply Qcplus_le_compat; [apply Qcle_refl|].
        rewrite <- (Qcmult_0_l b).
        apply Qcmult_le_compat_r; [|apply Qclt_le_weak, Hpos].
        apply Qc_of_Z_nonneg. lia. }
      apply (Qcle_not_lt _ _ (Qcle_trans _ _ _ H3 H2) E).
  - apply Qc_ltb_ge in E. simpl fsub.
    rewrite fdiv_Fin by (apply Qc_pos_neq_0; exact Hpos).
    cbn [bind py_int]. rewrite Ok_inj.
    assert (Hq : (0 <= (p_im p - o) / b)%Qc)
      by (apply Qcdiv_nonneg; [apply Qcminus_nonneg; exact E | exact Hpos]).
    destruct (Qc_trunc_nonneg _ Hq) as [Et H0]. rewrite Et in *.
    rewrite <- (scaled_floor_ge o b (p_im p) (k - 1) Hpos).
    rewrite <- (scaled_floor_lt o b (p_im p) k Hpos).
    destruct (Qfloor ((p_im p - o) / b)%Qc + 1 >? num_bins g)%Z eqn:E1.
    + apply Z.gtb_lt in E1. split.
      * intros <-. right. lia.
      * intros [[-> Hlt]|H]; [|lia].
        exfalso. exact (Qcle_not_lt _ _ E Hlt).
    + rewrite Z.gtb_ltb in E1. apply Z.ltb_ge in E1. split.
      * intros <-. right. lia.
      * intros [[-> Hlt]|H]; [|lia].
        exfalso. exact (Qcle_not_lt _ _ E Hlt).
Qed.

(** The theorem at the last bin of the second pass of [four_unit_bins]. *)
Lemma secondary_bin_tiling_witness :
  secondary_bin_idx four_unit_bins (point_at_im (Qc_of_Z 4)) = Ok 4%Z.
Proof.
  apply (secondary_bin_tiling four_unit_bins (point_at_im (Qc_of_Z 4))
           1%Qc (Q2Qc (1 # 2)) 4%Z eq_refl eq_refl).
  - reflexivity.
  - simpl. lia.
  - simpl. lia.
  - right. split; [lia|]. split.
    + apply Qc_leb_le. vm_compute. reflexivity.
    + simpl. lia.
Defined.

Lemma Qc_half_double (b : Qc) : (b / Qc_of_Z 2 + b / Qc_of_Z 2)%Qc = b.
Proof.
  assert (E : Qc_of_Z 2 = (1 + 1)%Qc) by (apply Qc_is_canon; reflexivity).
  rewrite E. field. apply Qc_eqb_neq. reflexivity.
Qed.

(** With the offset [setup_bins] computes, half a bin above [first_im],
    the bin a point gets in the second pass has the index it gets in the
    first pass or the next one. *)
Theorem secondary_is_primary_or_next (g : globals) (p : point) (f b : Qc) :
  first_im g = Fin f ->
  bin_size g = Fin b ->
  offset_im g = Fin (b / Qc_of_Z 2 + f)%Qc ->
  (0 < b)%Qc ->
  (1 <= num_bins g)%Z ->
  (f <= p_im p)%Qc ->
  exists i j : Z,
    primary_bin_idx g p = Ok i /\
    secondary_bin_idx g p = Ok j /\
    (j = i \/ j = (i + 1)%Z).
Proof.
  intros Hf Hb Ho Hpos Hn Him.
  destruct (primary_bin_idx_in_range g p f b Hf Hb Hpos Hn Him) as [Hidx _].
  exists (clamped_floor_idx f b (num_bins g) (p_im p)).
  pose proof (Qc_half_double b) as Hh.
  set (h := (b / Qc_of_Z 2)%Qc) in *.
  assert (H0 : (0 <= Qfloor ((p_im p - f) / b)%Qc)%Z).
  { assert (Hq : (0 <= (p_im p - f) / b)%Qc)
      by (apply Qcdiv_nonneg; [apply Qcminus_nonneg; exact Him | exact Hpos]).
    destruct (Qc_trunc_nonneg _ Hq) as [E H]. rewrite <- E. exact H. }
  unfold secondary_bin_idx. rewrite Hb, Ho. simpl flt.
  destruct (Qc_ltb (p_im p) (h + f)) eqn:E.
  - apply Qc_ltb_lt in E. exists 0%Z.
    split; [exact Hidx|]. split; [reflexivity|]. left.
    assert (H1 : (Qfloor ((p_im p - f) / b)%Qc < 1)%Z).
    { apply (scaled_floor_lt f b (p_im p) 1 Hpos). qc_lra. }
    unfold clamped_floor_idx. lia.
  - apply Qc_ltb_ge in E. simpl fsub.
    rewrite fdiv_Fin by (apply Qc_pos_neq_0; exact Hpos).
    cbn [bind py_int].
    assert (Hq : (0 <= (p_im p - (h + f)) / b)%Qc)
      by (apply Qcdiv_nonneg; [apply Qcminus_nonneg; exact E | exact Hpos]).
    destruct (Qc_trunc_nonneg _ Hq) as [Et H1]. rewrite Et in *.
    set (a := Qfloor ((p_im p - f) / b)%Qc) in *.
    set (a' := Qfloor ((p_im p - (h + f)) / b)%Qc) in *.
    assert (Hup : (a' <= a)%Z).
    { apply (scaled_floor_ge f b (p_im p) a' Hpos).
      assert (H2 : (h + f + Qc_of_Z a' * b <= p_im p)%Qc)
        by (apply (scaled_floor_ge (h + f) b (p_im p) a' Hpos); fold a'; lia).
      qc_lra. }
    assert (Hlo : (a - 1 <= a')%Z).
    { apply (scaled_floor_ge (h + f) b (p_im p) (a - 1) Hpos).
      assert (H2 : (f + Qc_of_Z a * b <= p_im p)%Qc)
        by (apply (scaled_floor_ge f b (p_im p) a Hpos); fold a; lia).
      qc_lra. }
    eexists. split; [exact Hidx|]. split; [reflexivity|].
    unfold clamped_floor_idx. fold a.
    destruct (a' + 1 >? num_bins g)%Z eqn:E1.
    + apply Z.gtb_lt in E1. lia.
    + rewrite Z.gtb_ltb in E1. apply Z.ltb_ge in E1. lia.
Qed.

(** The theorem at the middle of the second of [four_unit_bins]. *)
Lemma secondary_is_primary_or_next_witness :
  exists i j : Z,
    primary_bin_idx four_unit_bins (point_at_im (Q2Qc (3 # 2))) = Ok i /\
    secondary_bin_idx four_unit_bins (point_at_im (Q2Qc (3 # 2))) = Ok j /\
    (j = i \/ j = (i + 1)%Z).
Proof.
  apply (secondary_is_primary_or_next four_unit_bins
           (point_at_im (Q2Qc (3 # 2))) 0%Qc 1%Qc eq_refl eq_refl).
  - unfold four_unit_bins. cbn [offset_im]. apply f_equal.
    apply Qc_is_canon. reflexivity.
  - reflexivity.
  - simpl. lia.
  - apply Qc_leb_le. vm_compute. reflexivity.
Defined.

(** ** The aggregation changes intensities only *)

Lemma set_intensity_twice (v w : Qc) (p : point) :
  set_intensity v (set_intensity w p) = set_intensity v p.
Proof.
  reflexivity.
Qed.

Lemma StronglySorted_map_mz (F : point -> point) (l : list point) :
  (forall p, p_mz (F p) = p_mz p) ->
  StronglySorted (fun a b => (p_mz a <= p_mz b)%Qc) l ->
  StronglySorted (fun a b => (p_mz a <= p_mz b)%Qc) (map F l).
Proof.
  intros HF. induction 1 as [|x l Hs IH Hx]; simpl; constructor.
  - exact IH.
  - rewrite Forall_forall in *. intros y Hy.
    apply in_map_iff in Hy. destruct Hy as [z [<- Hz]].
    rewrite !HF. apply Hx, Hz.
Qed.

(** The aggregation of a bin keeps the points and changes intensities
    only: apart from the intensities the result is the list sorted by m/z
    (stably), so it has the length of the list and ascending m/z; and two
    points of the result with equal m/z have equal intensities. *)
Theorem aggregate_changes_only_intensity (l : list point) :
  map (set_intensity 0) (aggregate l)
  = map (set_intensity 0) (sorted p_mz l) /\
  length (aggregate l) = length l /\
  StronglySorted (fun a b => (p_mz a <= p_mz b)%Qc) (aggregate l) /\
  (forall p q,
      In p (aggregate l) -> In q (aggregate l) ->
      p_mz p = p_mz q -> p_intensity p = p_intensity q).
Proof.
  rewrite aggregate_mz_totals. split; [|split; [|split]].
  - rewrite map_map. apply map_ext. intros p. reflexivity.
  - rewrite length_map. apply sorted_length.
  - apply StronglySorted_map_mz; [reflexivity | apply sorted_StronglySorted].
  - intros p q Hp Hq E.
    apply in_map_iff in Hp. destruct Hp as [p0 [<- _]].
    apply in_map_iff in Hq. destruct Hq as [q0 [<- _]].
    unfold with_mz_total in *. simpl in *. rewrite E. reflexivity.
Qed.

Lemma mz_total_ge (l : list point) (p : point) :
  (forall q, In q l -> (0 <= p_intensity q)%Qc) ->
  In p l ->
  (p_intensity p <= mz_total l (p_mz p))%Qc.
Proof.
  unfold mz_total. induction l as [|x l IH]; intros Hpos Hin; [destruct Hin|].
  assert (Hl : forall q, In q l -> (0 <= p_intensity q)%Qc)
    by (intros q Hq; apply Hpos; right; exact Hq).
  assert (Hrest : (0 <= sum_intensity
                         (filter (fun q => Qc_eqb (p_mz q) (p_mz p)) l))%Qc).
  { clear IH Hin. induction l as [|y l IHl]; simpl; [apply Qcle_refl|].
    assert (Hy : (0 <= p_intensity y)%Qc) by (apply Hl; left; reflexivity).
    assert (Hl' : forall q, In q l -> (0 <= p_intensity q)%Qc)
      by (intros q Hq; apply Hl; right; exact Hq).
    assert (Hpos' : forall q, In q (x :: l) -> (0 <= p_intensity q)%Qc)
      by (intros q [Hq|Hq]; [apply Hpos; left; exact Hq | apply Hl', Hq]).
    specialize (IHl Hpos' Hl').
    destruct (Qc_eqb (p_mz y) (p_mz p)); simpl; [|exact IHl]. qc_lra. }
  simpl. destruct Hin as [->|Hin].
  - assert (E : Qc_eqb (p_mz p) (p_mz p) = true)
      by (apply Qc_eqb_eq; reflexivity).
    rewrite E. simpl. qc_lra.
  - specialize (IH Hl Hin).
    assert (Hx : (0 <= p_intensity x)%Qc) by (apply Hpos; left; reflexivity).
    destruct (Qc_eqb (p_mz x) (p_mz p)); simpl; [|exact IH]. qc_lra.
Qed.

Lemma sum_intensity_le_map (F : point -> point) (l : list point) :
  (forall p, In p l -> (p_intensity p <= p_intensity (F p))%Qc) ->
  (sum_intensity l <= sum_intensity (map F l))%Qc.
Proof.
  induction l as [|x l IH]; intros H; simpl; [apply Qcle_refl|].
  apply Qcplus_le_compat.
  - apply H. left. reflexivity.
  - apply IH. intros p Hp. apply H. right. exact Hp.
Qed.

(** When no intensity is negative the aggregation never loses intensity:
    every point leaves with at least the intensity it came with, and the
    total after is at least the total before. *)
Theorem aggregate_never_loses_intensity (l : list point) :
  (forall q, In q l -> (0 <= p_intensity q)%Qc) ->
  (forall p, In p l -> (p_intensity p <= p_intensity (with_mz_total l p))%Qc) /\
  (sum_intensity l <= sum_intensity (aggregate l))%Qc.
Proof.
  intros Hpos.
  assert (H : forall p, In p l ->
                (p_intensity p <= p_intensity (with_mz_total l p))%Qc).
  { intros p Hp. unfold with_mz_total. simpl. apply mz_total_ge; assumption. }
  split; [exact H|].
  rewrite aggregate_mz_totals.
  rewrite (sum_intensity_perm (map (with_mz_total l) (sorted p_mz l))
             (map (with_mz_total l) l))
    by (apply Permutation_map, sorted_perm).
  apply sum_intensity_le_map. exact H.
Qed.

(** The theorem at two points of equal m/z. *)
Lemma aggregate_never_loses_intensity_witness :
  (sum_intensity twin_points <= sum_intensity (aggregate twin_points))%Qc.
Proof.
  apply (aggregate_never_loses_intensity twin_points).
  intros q [<-|[<-|[]]]; apply Qc_leb_le; vm_compute; reflexivity.
Defined.

(** ** The point accumulators [bins] and [bins2] *)

Lemma aggregate_nil : aggregate [] = [].
Proof.
  reflexivity.
Qed.

Lemma erase_aggregate_perm (t : list point) :
  Permutation (map (set_intensity 0) (aggregate t)) (map (set_intensity 0) t).
Proof.
  rewrite aggregate_mz_totals, map_map.
  apply Permutation_map with (f := fun p => set_intensity 0 (with_mz_total t p)).
  apply sorted_perm.
Qed.

Lemma synthesize_bin_points (rt : Qc) (temp : list (list point)) (a : nat)
  (bs bs' : list (list point)) (es es' : list (list MSSpectrum)) :
  synthesize_bin rt temp a (bs, es) = Ok (bs', es') ->
  Permutation (concat bs') (concat bs ++ aggregate (nth a temp [])).
Proof.
  unfold synthesize_bin. intros H.
  destruct (nth a temp []) as [|x t] eqn:E.
  - simpl in H. inversion H; subst. rewrite aggregate_nil, app_nil_r.
    apply Permutation_refl.
  - simpl length in H. cbn [Nat.eqb] in H.
    bind_inv H. rename a0 into k, Ha into Hk.
    bind_inv H. inversion H; subst.
    apply py_index_lt in Hk. apply concat_update_app. exact Hk.
Qed.

Lemma synthesize_loop_points (rt : Qc) (temp : list (list point)) (n : nat) :
  forall (a : nat) (bs bs' : list (list point))
         (es es' : list (list MSSpectrum)),
    for_each (synthesize_bin rt temp) (seq a n) (bs, es) = Ok (bs', es') ->
    Permutation (concat bs')
      (concat bs ++ flat_map (fun i => aggregate (nth i temp [])) (seq a n)).
Proof.
  induction n as [|n IH]; intros a bs bs' es es' H.
  - simpl in H. inversion H; subst. simpl. rewrite app_nil_r.
    apply Permutation_refl.
  - cbn [seq for_each] in H. bind_inv H. destruct a0 as [bs1 es1].
    apply synthesize_bin_points in Ha. apply IH in H.
    eapply perm_trans; [exact H|]. simpl flat_map.
    rewrite app_assoc. apply Permutation_app_tail. exact Ha.
Qed.

Lemma map_nth_seq_shift {A : Type} (d : A) (l : list A) :
  forall pre : list A,
    map (fun i => nth i (pre ++ l) d) (seq (length pre) (length l)) = l.
Proof.
  induction l as [|x l IH]; intros pre; [reflexivity|].
  simpl. rewrite nth_middle. f_equal.
  replace (pre ++ x :: l) with ((pre ++ [x]) ++ l)
    by (rewrite <- app_assoc; reflexivity).
  replace (S (length pre)) with (length (pre ++ [x]))
    by (rewrite length_app; simpl; lia).
  apply IH.
Qed.

Lemma erase_flat_map_aggregate (temp : list (list point)) :
  Permutation
    (map (set_intensity 0)
       (flat_map (fun i => aggregate (nth i temp [])) (seq 0 (length temp))))
    (map (set_intensity 0) (concat temp)).
Proof.
  rewrite flat_map_concat_map.
  rewrite <- (map_map (fun i => nth i temp []) aggregate).
  pose proof (map_nth_seq_shift [] temp []) as E. simpl in E. rewrite E.
  clear E. induction temp as [|t temp IH]; simpl; [constructor|].
  rewrite !map_app. apply Permutation_app; [apply erase_aggregate_perm|].
  exact IH.
Qed.

(** One call of [bin_spectrum]: each pass's accumulators receive the
    points of the scan, once each, with only the intensity changed. *)
Lemma bin_spectrum_points (g g' : globals) (spec : MSSpectrum) :
  bin_spectrum g spec = Ok g' ->
  Permutation (map (set_intensity 0) (concat (bins g')))
    (map (set_intensity 0) (concat (bins g) ++ get_points spec)) /\
  Permutation (map (set_intensity 0) (concat (bins2 g')))
    (map (set_intensity 0) (concat (bins2 g) ++ get_points spec)).
Proof.
  unfold bin_spectrum. intros H.
  bind_inv H. destruct a as [tb tb2]. rename Ha into Hassign.
  bind_inv H. destruct a as [bs es]. rename Ha into H1.
  bind_inv H. destruct a as [bs2 es2]. rename Ha into H2.
  inversion H; subst; clear H. cbn [bins bins2].
  unfold assign_points in Hassign. apply assign_loop_spec in Hassign.
  destruct Hassign as [[L1 P1] [L2 P2]].
  rewrite repeat_length in L1, L2.
  rewrite concat_repeat_nil in P1, P2. simpl in P1, P2.
  pose proof (sorted_perm p_im (get_points spec)) as PS.
  apply synthesize_loop_points in H1, H2.
  rewrite <- L1 in H1. rewrite <- L2 in H2.
  split.
  - eapply perm_trans; [apply Permutation_map, H1|]. rewrite !map_app.
    apply Permutation_app_head.
    eapply perm_trans; [apply erase_flat_map_aggregate|].
    apply Permutation_map. eapply perm_trans; eassumption.
  - eapply perm_trans; [apply Permutation_map, H2|]. rewrite !map_app.
    apply Permutation_app_head.
    eapply perm_trans; [apply erase_flat_map_aggregate|].
    apply Permutation_map. eapply perm_trans; eassumption.
Qed.

Lemma process_loop_points (spectra : list MSSpectrum) :
  forall g g' : globals,
    for_each process_spectrum spectra g = Ok g' ->
    Permutation (map (set_intensity 0) (concat (bins g')))
      (map (set_intensity 0)
         (concat (bins g) ++ flat_map get_points (ms1_only spectra))) /\
    Permutation (map (set_intensity 0) (concat (bins2 g')))
      (map (set_intensity 0)
         (concat (bins2 g) ++ flat_map get_points (ms1_only spectra))).
Proof.
  induction spectra as [|s spectra IH]; intros g g' H.
  - simpl in H. inversion H; subst. simpl. rewrite !app_nil_r.
    split; apply Permutation_refl.
  - cbn [for_each] in H. bind_inv H. rename a into g1.
    apply IH in H. destruct H as [Q1 Q2].
    unfold process_spectrum in Ha. simpl ms1_only.
    destruct (getMSLevel s =? 1)%nat eqn:E; simpl in Ha.
    + apply bin_spectrum_points in Ha. destruct Ha as [R1 R2].
      simpl flat_map. rewrite !map_app in *. split.
      * eapply perm_trans; [exact Q1|]. rewrite app_assoc.
        apply Permutation_app_tail. exact R1.
      * eapply perm_trans; [exact Q2|]. rewrite app_assoc.
        apply Permutation_app_tail. exact R2.
    + inversion Ha; subst g1. split; assumption.
Qed.

Lemma setup_bins_points (g g' : globals) (spectra : list MSSpectrum) :
  setup_bins g spectra = Ok g' ->
  concat (bins g') = concat (bins g) /\ concat (bins2 g') = concat (bins2 g).
Proof.
  unfold setup_bins. destruct (get_extrema spectra) as [f l]. intros H.
  bind_inv H. bind_inv H. inversion H; subst. simpl.
  rewrite !concat_app, !concat_repeat_nil, !app_nil_r. auto.
Qed.

(** After a run, the accumulators of each pass hold the points of the MS1
    scans, each exactly once, with only the intensities changed; so each
    pass holds as many points as the MS1 scans have. *)
Theorem run_accumulates_ms1_points (n : Z) (spectra : list MSSpectrum)
  (g : globals) :
  run n spectra = Ok g ->
  Permutation (map (set_intensity 0) (concat (bins g)))
    (map (set_intensity 0) (flat_map get_points (ms1_only spectra))) /\
  Permutation (map (set_intensity 0) (concat (bins2 g)))
    (map (set_intensity 0) (flat_map get_points (ms1_only spectra))) /\
  length (concat (bins g)) = length (flat_map get_points (ms1_only spectra)) /\
  length (concat (bins2 g)) = length (flat_map get_points (ms1_only spectra)).
Proof.
  intros H. unfold run in H. bind_inv H. rename a into g0.
  apply setup_bins_points in Ha. simpl in Ha. destruct Ha as [E1 E2].
  apply process_loop_points in H. rewrite E1, E2 in H. simpl in H.
  destruct H as [P1 P2]. split; [exact P1|]. split; [exact P2|].
  apply Permutation_length in P1, P2. rewrite !length_map in P1, P2. auto.
Qed.

(** The theorem at two bins and two scans of one point. *)
Lemma run_accumulates_ms1_points_witness :
  exists g,
    run 2 two_scans = Ok g /\
    length (concat (bins g)) = length (flat_map get_points (ms1_only two_scans)).
Proof.
  destruct (run 2 two_scans) as [g|e] eqn:E.
  - exists g. split; [reflexivity|].
    exact (proj1 (proj2 (proj2 (run_accumulates_ms1_points 2 two_scans g E)))).
  - vm_compute in E. discriminate E.
Defined.

(** ** The spectra a run leaves in the bins *)

Lemma StronglySorted_peaks (l : list point) :
  StronglySorted (fun a b => (p_mz a <= p_mz b)%Qc) l ->
  StronglySorted (fun a b => (getPos a <= getPos b)%Qc)
    (map (fun p => mkPeak (p_mz p) (p_intensity p)) l).
Proof.
  induction 1 as [|x l Hs IH Hx]; simpl; constructor.
  - exact IH.
  - rewrite Forall_forall in *. intros y Hy.
    apply in_map_iff in Hy. destruct Hy as [z [<- Hz]]. simpl.
    apply Hx, Hz.
Qed.

Lemma aggregate_StronglySorted (l : list point) :
  StronglySorted (fun a b => (p_mz a <= p_mz b)%Qc) (aggregate l).
Proof.
  rewrite aggregate_mz_totals.
  apply StronglySorted_map_mz; [reflexivity | apply sorted_StronglySorted].
Qed.

Lemma aggregate_length (l : list point) : length (aggregate l) = length l.
Proof.
  rewrite aggregate_mz_totals, length_map. apply sorted_length.
Qed.

Lemma appended_spectrum (rt : Qc) (temp : list (list point)) (i : nat)
  (s : MSSpectrum) :
  In s (appended rt temp i) ->
  getMSLevel s = 1 /\
  peaks s <> [] /\
  length (fda s) = length (peaks s) /\
  StronglySorted (fun a b => (getPos a <= getPos b)%Qc) (peaks s) /\
  getRT s = rt.
Proof.
  unfold appended.
  destruct (length (nth i temp []) =? 0)%nat eqn:E; [intros []|].
  intros [<-|[]]. apply Nat.eqb_neq in E. unfold build_spectrum. simpl.
  split; [reflexivity|]. split; [|split; [|split]].
  - intros H. apply (f_equal (@length Peak1D)) in H.
    rewrite length_map, aggregate_length in H. simpl in H. contradiction.
  - rewrite !length_map. reflexivity.
  - apply StronglySorted_peaks, aggregate_StronglySorted.
  - reflexivity.
Qed.

Lemma scan_spectra_spectrum (g : globals) (src s : MSSpectrum) (i : nat) :
  In s (scan_spectra g src i) \/ In s (scan_spectra2 g src i) ->
  getMSLevel s = 1 /\
  peaks s <> [] /\
  length (fda s) = length (peaks s) /\
  StronglySorted (fun a b => (getPos a <= getPos b)%Qc) (peaks s) /\
  getRT s = getRT src.
Proof.
  unfold scan_spectra, scan_spectra2.
  destruct (assign_points g (sorted p_im (get_points src))) as [[tb tb2]|e];
    intros [H|H]; try destruct H; eapply appended_spectrum; eassumption.
Qed.

Lemma process_loop_lengths (spectra : list MSSpectrum) :
  forall g g' : globals,
    for_each process_spectrum spectra g = Ok g' ->
    length (exps g') = length (exps g) /\
    length (exps2 g') = length (exps2 g).
Proof.
  induction spectra as [|s spectra IH]; intros g g' H.
  - simpl in H. inversion H; subst. auto.
  - cbn [for_each] in H. bind_inv H. rename a into g1.
    apply IH in H. destruct H as [L1 L2].
    unfold process_spectrum in Ha.
    destruct (getMSLevel s =? 1)%nat; simpl in Ha.
    + apply bin_spectrum_spec in Ha.
      destruct Ha as [_ [[_ M1] [[_ M2] _]]]. split; congruence.
    + inversion Ha; subst g1. auto.
Qed.

(** Every spectrum a completed run leaves in a bin of either pass is of MS
    level 1, has at least one peak and as many ion mobilities as peaks,
    has its peaks in ascending m/z, and carries the retention time of an
    MS1 scan of the input. *)
Theorem run_spectra_well_formed (n : Z) (spectra : list MSSpectrum)
  (g : globals) :
  run n spectra = Ok g ->
  forall (i : nat) (s : MSSpectrum),
    In s (nth i (exps g) []) \/ In s (nth i (exps2 g) []) ->
    well_formed_spectrum spectra s.
Proof.
  intros H i s Hin. unfold run in H. bind_inv H. rename a into g0.
  apply setup_bins_spectra in Ha. simpl in Ha. destruct Ha as [Hn [E1 E2]].
  pose proof (process_loop_lengths spectra g0 g H) as [L1 L2].
  apply process_loop_spec in H. destruct H as [_ [N1 N2]].
  rewrite Hn in N1, N2. rewrite E1 in L1. rewrite E2 in L2.
  rewrite repeat_length in L1, L2.
  assert (Hsrc : exists src,
             In src (ms1_only spectra) /\
             (In s (scan_spectra g0 src i) \/ In s (scan_spectra2 g0 src i))).
  { destruct Hin as [Hin|Hin].
    - destruct (Nat.lt_ge_cases i (Z.to_nat n)) as [Hi|Hi].
      + rewrite (N1 i Hi), E1, nth_repeat in Hin. simpl in Hin.
        apply in_flat_map in Hin. destruct Hin as [src [H1 H2]].
        exists src. auto.
      + rewrite nth_overflow in Hin by lia. destruct Hin.
    - destruct (Nat.lt_ge_cases i (Z.to_nat (n + 1))) as [Hi|Hi].
      + rewrite (N2 i Hi), E2, nth_repeat in Hin. simpl in Hin.
        apply in_flat_map in Hin. destruct Hin as [src [H1 H2]].
        exists src. auto.
      + rewrite nth_overflow in Hin by lia. destruct Hin. }
  destruct Hsrc as [src [Hsrc Hs]].
  apply scan_spectra_spectrum in Hs.
  destruct Hs as [A [B [C [D E]]]].
  unfold well_formed_spectrum. repeat split; auto.
  exists src. auto.
Qed.

(** The theorem at two bins and two scans of one point. *)
Lemma run_spectra_well_formed_witness :
  exists g,
    run 2 two_scans = Ok g /\
    forall s, In s (nth 0 (exps g) []) -> well_formed_spectrum two_scans s.
Proof.
  destruct (run 2 two_scans) as [g|e] eqn:E.
  - exists g. split; [reflexivity|]. intros s Hs.
    apply (run_spectra_well_formed 2 two_scans g E 0 s). left. exact Hs.
  - vm_compute in E. discriminate E.
Defined.

(** ** An experiment without samples *)

Lemma no_ims_no_points (spectra : list MSSpectrum) :
  all_ims spectra = [] ->
  Forall (fun sp => getMSLevel sp <> 1 \/ get_points sp = []) spectra.
Proof.
  unfold all_ims. intros H. apply map_eq_nil in H.
  apply Forall_forall. intros sp Hsp. right.
  destruct (get_points sp) as [|p l] eqn:E; [reflexivity|]. exfalso.
  assert (Hin : In p (flat_map get_points spectra)).
  { apply in_flat_map. exists sp. split; [exact Hsp|].
    rewrite E. left. reflexivity. }
  rewrite H in Hin. destruct Hin.
Qed.

(** When no scan has a sample and the number of bins is not zero, the run
    on spectra that carry a float data array completes: the extrema stay
    at their initial values (inf, -1), and every bin of both passes is
    left empty. *)
Lemma run_no_points (n : Z) (spectra : list MSSpectrum) :
  all_ims spectra = [] ->
  n <> 0%Z ->
  exists g,
    run n spectra = Ok g /\
    first_im g = PInf /\ last_im g = Fin (- (1))%Qc /\
    bins g = repeat [] (Z.to_nat n) /\ exps g = repeat [] (Z.to_nat n) /\
    bins2 g = repeat [] (Z.to_nat (n + 1)) /\
    exps2 g = repeat [] (Z.to_nat (n + 1)).
Proof.
  intros Hno Hn. unfold run, setup_bins.
  rewrite (proj1 (get_extrema_bounds spectra) Hno).
  cbn [fsub num_bins initial]. unfold fdiv at 1.
  assert (E : Qc_eqb (Qc_of_Z n) 0 = false)
    by (apply Qc_eqb_neq, Qc_of_Z_neq_0; exact Hn).
  rewrite E. cbn [bind].
  assert (E2 : Qc_eqb (Qc_of_Z 2) 0 = false) by reflexivity.
  unfold fdiv. rewrite E2.
  destruct (Qc_ltb 0 (Qc_of_Z n)); cbn [bind];
    (rewrite process_skipped by (apply no_ims_no_points; exact Hno));
    (eexists; split; [reflexivity|]; simpl; repeat split; reflexivity).
Qed.

(** The first float data array of a spectrum, or the [IndexError] of the
    access when the spectrum carries none. *)
Lemma first_array_spec (spec : Spectrum) :
  match getFloatDataArrays spec with
  | [] => Arrays.first_array spec = Raise IndexError
  | ims :: _ => Arrays.first_array spec = Ok ims
  end.
Proof.
  unfold Arrays.first_array. destruct (getFloatDataArrays spec); reflexivity.
Qed.

Lemma get_points_no_array (spec : Spectrum) :
  getFloatDataArrays spec = [] -> Arrays.get_points spec = Raise IndexError.
Proof.
  intros H. pose proof (first_array_spec spec) as F. rewrite H in F.
  unfold Arrays.get_points. rewrite F. reflexivity.
Qed.

(** On a spectrum that carries a float data array the points are those
    the binner's [get_points] gives. *)
Lemma get_points_view (spec : Spectrum) (ims : list Qc)
  (rest : list (list Qc)) :
  getFloatDataArrays spec = ims :: rest ->
  Arrays.get_points spec = Ok (get_points (view spec ims)).
Proof.
  intros H. pose proof (first_array_spec spec) as F. rewrite H in F.
  unfold Arrays.get_points. rewrite F. reflexivity.
Qed.

Lemma get_points_views (spec : Spectrum) :
  getFloatDataArrays spec <> [] ->
  Arrays.get_points spec
  = Ok (get_points (view spec (hd [] (getFloatDataArrays spec)))).
Proof.
  intros H. destruct (getFloatDataArrays spec) as [|ims rest] eqn:E;
    [congruence|].
  apply (get_points_view spec ims rest E).
Qed.

Lemma extrema_loop_refines (spectra : list Spectrum) :
  Forall (fun spec => getFloatDataArrays spec <> []) spectra ->
  forall acc,
    for_each
      (fun spec acc =>
         new_points <- Arrays.get_points spec ;;
         Ok (fold_left extrema_point new_points acc))
      spectra acc
    = Ok (fold_left
            (fun acc spec => fold_left extrema_point (get_points spec) acc)
            (views spectra) acc).
Proof.
  induction 1 as [|spec spectra Hs _ IH]; intros acc; [reflexivity|].
  cbn [for_each views map fold_left].
  rewrite (get_points_views spec Hs). cbn [bind]. apply IH.
Qed.

Lemma extrema_loop_raises (spectra : list Spectrum) :
  Exists (fun spec => getFloatDataArrays spec = []) spectra ->
  forall acc,
    for_each
      (fun spec acc =>
         new_points <- Arrays.get_points spec ;;
         Ok (fold_left extrema_point new_points acc))
      spectra acc
    = Raise IndexError.
Proof.
  induction spectra as [|spec spectra IH]; intros H acc;
    [inversion H|].
  cbn [for_each].
  destruct (getFloatDataArrays spec) as [|ims rest] eqn:E.
  - rewrite (get_points_no_array spec E). reflexivity.
  - rewrite (get_points_view spec ims rest E). cbn [bind].
    apply IH. inversion H as [? ? H0|? ? H0]; subst; [congruence | exact H0].
Qed.

Lemma setup_bins_refines (g : globals) (spectra : list Spectrum) :
  Forall (fun spec => getFloatDataArrays spec <> []) spectra ->
  Arrays.setup_bins g spectra = setup_bins g (views spectra).
Proof.
  intros H. unfold Arrays.setup_bins, Arrays.get_extrema, setup_bins.
  rewrite (extrema_loop_refines spectra H). fold (get_extrema (views spectra)).
  destruct (get_extrema (views spectra)) as [f l]. reflexivity.
Qed.

Lemma process_loop_refines (spectra : list Spectrum) :
  Forall (fun spec => getFloatDataArrays spec <> []) spectra ->
  forall g,
    for_each Arrays.process_spectrum spectra g
    = for_each process_spectrum (views spectra) g.
Proof.
  induction 1 as [|spec spectra Hs _ IH]; intros g; [reflexivity|].
  cbn [for_each views map].
  assert (E : Arrays.process_spectrum spec g
              = process_spectrum
                  (view spec (hd [] (getFloatDataArrays spec))) g).
  { unfold Arrays.process_spectrum, process_spectrum.
    cbn [view getMSLevel].
    destruct (negb (ms_level spec =? 1)); [reflexivity|].
    unfold Arrays.bin_spectrum, bin_spectrum.
    rewrite (get_points_views spec Hs). reflexivity. }
  rewrite E.
  destruct (process_spectrum (view spec (hd [] (getFloatDataArrays spec))) g);
    cbn [bind]; [apply IH | reflexivity].
Qed.

(** The program on spectra that all carry a float data array is the
    binner on their views. *)
Lemma run_refines (n : Z) (spectra : list Spectrum) :
  Forall (fun spec => getFloatDataArrays spec <> []) spectra ->
  Arrays.run n spectra = run n (views spectra).
Proof.
  intros H. unfold Arrays.run, run. rewrite (setup_bins_refines _ _ H).
  destruct (setup_bins (initial n) (views spectra)); cbn [bind];
    [apply (process_loop_refines spectra H) | reflexivity].
Qed.

Lemma run_raises (n : Z) (spectra : list Spectrum) :
  Exists (fun spec => getFloatDataArrays spec = []) spectra ->
  Arrays.run n spectra = Raise IndexError.
Proof.
  intros H. unfold Arrays.run, Arrays.setup_bins, Arrays.get_extrema.
  rewrite (extrema_loop_raises spectra H). reflexivity.
Qed.

Lemma views_no_points (spectra : list Spectrum) :
  Forall (fun spec => get_peaks spec = [] \/
                      hd [] (getFloatDataArrays spec) = []) spectra ->
  all_ims (views spectra) = [].
Proof.
  unfold all_ims. induction 1 as [|spec spectra Hs _ IH]; [reflexivity|].
  cbn [views map flat_map]. fold (views spectra).
  assert (E : get_points (view spec (hd [] (getFloatDataArrays spec))) = []).
  { unfold get_points, view. cbn [peaks fda].
    destruct Hs as [-> | ->]; [reflexivity|].
    rewrite combine_nil. reflexivity. }
  rewrite E. exact IH.
Qed.

(** A scan that carries no float data array, of whatever MS level and
    with or without peaks, makes the run fail with [IndexError] while the
    bins are set up, before any scan is binned.  When every scan carries
    one, the run is that of the binner on the scans with their first
    array; and if then no scan has a sample (no peaks, or an empty array)
    and the number of bins is not zero, the run completes, the extrema
    stay at their initial values (inf, -1) and every bin of both passes
    is left empty. *)
Theorem run_without_samples (n : Z) (spectra : list Spectrum) :
  (Exists (fun spec => getFloatDataArrays spec = []) spectra ->
   Arrays.run n spectra = Raise IndexError) /\
  (Forall (fun spec => getFloatDataArrays spec <> []) spectra ->
   Arrays.run n spectra = run n (views spectra)) /\
  (Forall (fun spec => getFloatDataArrays spec <> []) spectra ->
   Forall (fun spec => get_peaks spec = [] \/
                       hd [] (getFloatDataArrays spec) = []) spectra ->
   n <> 0%Z ->
   exists g,
     Arrays.run n spectra = Ok g /\
     first_im g = PInf /\ last_im g = Fin (- (1))%Qc /\
     bins g = repeat [] (Z.to_nat n) /\ exps g = repeat [] (Z.to_nat n) /\
     bins2 g = repeat [] (Z.to_nat (n + 1)) /\
     exps2 g = repeat [] (Z.to_nat (n + 1))).
Proof.
  split; [apply run_raises|]. split; [apply run_refines|].
  intros Hall Hno Hn. rewrite (run_refines n spectra Hall).
  apply run_no_points; [apply views_no_points; exact Hno | exact Hn].
Qed.

(** The theorem at a scan without peaks: without a float data array, and
    with an empty one. *)
Lemma run_without_samples_witness :
  Arrays.run 3 [bare_scan] = Raise IndexError /\
  exists g, Arrays.run 3 [hollow_scan] = Ok g /\ exps g = repeat [] 3.
Proof.
  split.
  - apply (proj1 (run_without_samples 3 [bare_scan])).
    constructor. reflexivity.
  - destruct (proj2 (proj2 (run_without_samples 3 [hollow_scan])))
      as [g [E [_ [_ [_ [H _]]]]]].
    + constructor; [discriminate | constructor].
    + constructor; [left; reflexivity | constructor].
    + discriminate.
    + exists g. split; assumption.
Defined.

(** ** The bins cover the range of the experiment *)

Lemma get_extrema_upper (spectra : list MSSpectrum) (lo : pyfloat) (l : Qc) :
  get_extrema spectra = (lo, Fin l) ->
  forall s p, In s spectra -> In p (get_points s) -> (p_im p <= l)%Qc.
Proof.
  intros He s p Hs Hp.
  assert (Hin : In (p_im p) (all_ims spectra)).
  { unfold all_ims. apply in_map. apply in_flat_map. exists s. auto. }
  destruct (get_extrema_bounds spectra) as [_ H].
  destruct H as [lo' [hi' [E [B _]]]].
  - intros E0. rewrite E0 in Hin. exact Hin.
  - rewrite He in E. inversion E; subst. apply B. exact Hin.
Qed.

(** With at least one bin and extrema [first_im < last_im], [setup_bins]
    gives bins of positive width that end exactly at [last_im], and every
    sample of the experiment gets a primary index [k] in range such that
    its ion mobility lies between [first_im + k * bin_size] and
    [first_im + (k + 1) * bin_size]. *)
Theorem setup_bins_coverage (n : Z) (spectra : list MSSpectrum) (f l : Qc) :
  (1 <= n)%Z ->
  get_extrema spectra = (Fin f, Fin l) ->
  (f < l)%Qc ->
  exists (g : globals) (b : Qc),
    setup_bins (initial n) spectra = Ok g /\
    bin_size g = Fin b /\ (0 < b)%Qc /\
    (f + Qc_of_Z n * b)%Qc = l /\
    forall s p,
      In s spectra -> In p (get_points s) ->
      exists k : Z,
        primary_bin_idx g p = Ok k /\ (0 <= k < n)%Z /\
        (f + Qc_of_Z k * b <= p_im p)%Qc /\
        (p_im p <= f + Qc_of_Z (k + 1) * b)%Qc.
Proof.
  intros Hn He Hfl.
  destruct (setup_bins_finite (initial n) spectra f l ltac:(simpl; lia) He)
    as [g [E [Hf [_ [Hnb [Hb _]]]]]].
  simpl in Hnb, Hb.
  set (b := ((l - f) / Qc_of_Z n)%Qc) in *.
  assert (Hn0 : Qc_of_Z n <> 0%Qc) by (apply Qc_of_Z_neq_0; lia).
  assert (Hpos : (0 < b)%Qc).
  { apply Qcdiv_pos; [|apply Qc_of_Z_pos; lia].
    unfold Qcminus. apply -> Qclt_minus_iff. exact Hfl. }
  assert (Hend : (f + Qc_of_Z n * b)%Qc = l).
  { unfold b. field. exact Hn0. }
  exists g, b. split; [exact E|]. split; [exact Hb|]. split; [exact Hpos|].
  split; [exact Hend|].
  intros s p Hs Hp.
  pose proof (get_extrema_lower spectra f (Fin l) He s p Hs Hp) as Hlo.
  pose proof (get_extrema_upper spectra (Fin f) l He s p Hs Hp) as Hhi.
  destruct (primary_bin_idx_in_range g p f b Hf Hb Hpos ltac:(lia) Hlo)
    as [Hidx Hr].
  rewrite Hnb in Hidx, Hr.
  exists (clamped_floor_idx f b n (p_im p)).
  split; [exact Hidx|]. split; [exact Hr|].
  assert (H0 : (0 <= Qfloor ((p_im p - f) / b)%Qc)%Z).
  { assert (Hq : (0 <= (p_im p - f) / b)%Qc)
      by (apply Qcdiv_nonneg; [apply Qcminus_nonneg; exact Hlo | exact Hpos]).
    destruct (Qc_trunc_nonneg _ Hq) as [Et H]. rewrite <- Et. exact H. }
  unfold clamped_floor_idx in *.
  set (a := Qfloor ((p_im p - f) / b)%Qc) in *.
  split.
  - apply (scaled_floor_ge f b (p_im p) _ Hpos). fold a. lia.
  - destruct (Z_lt_le_dec a n) as [Ha|Ha].
    + apply Qclt_le_weak.
      apply (scaled_floor_lt f b (p_im p) _ Hpos). fold a. lia.
    + replace (Z.max 0 (Z.min a (n - 1)) + 1)%Z with n by lia.
      rewrite Hend. exact Hhi.
Qed.

(** The theorem at two bins over the two scans at ion mobility 0 and 4. *)
Lemma setup_bins_coverage_witness :
  exists (g : globals) (b : Qc),
    setup_bins (initial 2) two_scans = Ok g /\
    bin_size g = Fin b /\ (0 < b)%Qc /\ (0 + Qc_of_Z 2 * b)%Qc = Qc_of_Z 4.
Proof.
  destruct (setup_bins_coverage 2 two_scans 0%Qc (Qc_of_Z 4))
    as [g [b [E [Hb [Hpos [Hend _]]]]]].
  - lia.
  - reflexivity.
  - reflexivity.
  - exists g, b. auto.
Defined.

(** ** The points of a spectrum *)

Lemma zip_points_spec (rt : Qc) (pks : list Peak1D) :
  forall ims : list Qc,
    let pts := Arrays.zip_points rt pks ims in
    length pts = Nat.min (length pks) (length ims) /\
    map p_im pts = firstn (length pks) ims /\
    map (fun p => mkPeak (p_mz p) (p_intensity p)) pts
    = firstn (length ims) pks /\
    Forall (fun p => p_rt p = rt) pts.
Proof.
  unfold Arrays.zip_points.
  induction pks as [|[pos int] pks IH]; intros ims; cbn zeta.
  - simpl. rewrite firstn_nil. auto.
  - destruct ims as [|im ims]; simpl; [auto|].
    destruct (IH ims) as [H1 [H2 [H3 H4]]]. cbn zeta in *.
    rewrite H1, H2, H3. auto.
Qed.

(** [get_points_pp] raises [IndexError] when the unpicked spectrum carries
    no float data array, whatever the picked one holds.  Otherwise it
    pairs the peaks of the picked spectrum with the ion mobilities of the
    first array of the unpicked one by position: there are as many points
    as the shorter of the two, their ion mobilities are the first of the
    array, their peaks the first of the picked spectrum, and all carry
    the retention time of the unpicked spectrum; a difference in length
    raises nothing.  On one and the same spectrum it is [get_points],
    which on a spectrum with a float data array gives the points the
    binner works on. *)
Theorem get_points_pp_by_position (spec_pp spec : Spectrum) :
  (getFloatDataArrays spec = [] ->
   Arrays.get_points_pp spec_pp spec = Raise IndexError) /\
  (forall ims rest,
      getFloatDataArrays spec = ims :: rest ->
      exists pts,
        Arrays.get_points_pp spec_pp spec = Ok pts /\
        length pts = Nat.min (length (get_peaks spec_pp)) (length ims) /\
        map p_im pts = firstn (length (get_peaks spec_pp)) ims /\
        map (fun p => mkPeak (p_mz p) (p_intensity p)) pts
        = firstn (length ims) (get_peaks spec_pp) /\
        Forall (fun p => p_rt p = ret_time spec) pts) /\
  Arrays.get_points_pp spec spec = Arrays.get_points spec /\
  (forall ims rest,
      getFloatDataArrays spec = ims :: rest ->
      Arrays.get_points spec = Ok (get_points (view spec ims))).
Proof.
  pose proof (first_array_spec spec) as F.
  split; [|split; [|split]].
  - intros H. rewrite H in F. unfold Arrays.get_points_pp. rewrite F.
    reflexivity.
  - intros ims rest H. rewrite H in F. unfold Arrays.get_points_pp.
    rewrite F. cbn [bind]. eexists. split; [reflexivity|].
    apply (zip_points_spec (ret_time spec) (get_peaks spec_pp) ims).
  - reflexivity.
  - intros ims rest H. apply (get_points_view spec ims rest H).
Qed.

(** The theorem at a scan without float data array and at one with
    one. *)
Lemma get_points_pp_by_position_witness :
  Arrays.get_points_pp bare_scan bare_scan = Raise IndexError /\
  exists pts, Arrays.get_points_pp flat_scan hollow_scan = Ok pts.
Proof.
  split.
  - apply (proj1 (get_points_pp_by_position bare_scan bare_scan)).
    reflexivity.
  - destruct (proj1 (proj2 (get_points_pp_by_position flat_scan hollow_scan))
                [] [] eq_refl) as [pts [E _]].
    exists pts. exact E.
Defined.

(** ** Similar features *)

Lemma Qcabs_0 : Qcabs 0 = 0%Qc.
Proof.
  apply Qc_is_canon. reflexivity.
Qed.

Lemma Qcminus_diag (x : Qc) : (x - x)%Qc = 0%Qc.
Proof.
  ring.
Qed.

(** [similar_features] is reflexive and symmetric, and it is not
    transitive: features at retention times 0, 4 and 8 with the same m/z
    are similar to their neighbour, and the outer two are not similar. *)
Theorem similar_features_not_transitive :
  (forall a, similar_features a a = true) /\
  (forall a b, similar_features a b = similar_features b a) /\
  (similar_features (mkFeature 0 0) (mkFeature (Qc_of_Z 4) 0) = true /\
   similar_features (mkFeature (Qc_of_Z 4) 0) (mkFeature (Qc_of_Z 8) 0) = true /\
   similar_features (mkFeature 0 0) (mkFeature (Qc_of_Z 8) 0) = false).
Proof.
  split; [|split].
  - intros a. unfold similar_features. rewrite !Qcminus_diag, Qcabs_0.
    reflexivity.
  - intros a b. unfold similar_features.
    rewrite (Qcabs_Qcminus (featRT a)), (Qcabs_Qcminus (featMZ a)).
    reflexivity.
  - repeat split; vm_compute; reflexivity.
Qed.

(** ** The areas *)

(** [bb_area] multiplies the width of the box by the product of its two
    y bounds, not by their difference: it is the width times the absolute
    values of the two bounds, and it is zero exactly when the box has no
    width or one of its y bounds is zero. *)
Theorem bb_area_product_of_bounds (box : DBoundingBox2) :
  bb_area box
  = (Qcabs (fst (minPosition box) - fst (maxPosition box))
     * (Qcabs (snd (minPosition box)) * Qcabs (snd (maxPosition box))))%Qc /\
  (bb_area box = 0%Qc <->
   fst (minPosition box) = fst (maxPosition box) \/
   snd (minPosition box) = 0%Qc \/ snd (maxPosition box) = 0%Qc).
Proof.
  unfold bb_area. cbv zeta. rewrite Qcabs_Qcmult. split; [reflexivity|].
  split.
  - intros H. apply Qcmult_integral in H. destruct H as [H|H].
    + left. apply Qcabs_null in H.
      assert (E : fst (minPosition box)
                  = (fst (minPosition box) - fst (maxPosition box)
                     + fst (maxPosition box))%Qc) by ring.
      rewrite E, H. ring.
    + right. apply Qcmult_integral in H.
      destruct H as [H|H]; apply Qcabs_null in H; auto.
  - intros [H|[H|H]]; rewrite H.
    + rewrite Qcminus_diag, Qcabs_0. ring.
    + rewrite Qcabs_0. ring.
    + rewrite Qcabs_0. ring.
Qed.

Lemma hull_fold_sum (hull : list (Qc * Qc)) (l : list nat) :
  forall acc : Qc,
    fold_left (hull_step hull) l acc
    = fold_left (fun acc i => (acc + shoelace_term hull i)%Qc) l acc.
Proof.
  induction l as [|i l IH]; intros acc; [reflexivity|].
  simpl. rewrite IH. f_equal. unfold hull_step, shoelace_term. ring.
Qed.

Lemma hull_area_sum (hull : list (Qc * Qc)) :
  hull_area hull
  = (Qcabs (sum_range (shoelace_term hull) 0 (length hull)) / Qc_of_Z 2)%Qc.
Proof.
  unfold hull_area, sum_range. rewrite hull_fold_sum. reflexivity.
Qed.

Lemma Qc_two : Qc_of_Z 2 = (1 + 1)%Qc.
Proof.
  apply Qc_is_canon. reflexivity.
Qed.

Lemma Qc_zero_half : (Qcabs 0 / Qc_of_Z 2)%Qc = 0%Qc.
Proof.
  rewrite Qcabs_0. unfold Qcdiv. apply Qcmult_0_l.
Qed.

(** A hull of fewer than three points has area zero. *)
Theorem hull_area_degenerate (hull : list (Qc * Qc)) :
  length hull < 3 -> hull_area hull = 0%Qc.
Proof.
  intros H. rewrite hull_area_sum.
  destruct hull as [|[x0 y0] [|[x1 y1] [|pt hull]]]; simpl in H; try lia.
  - apply Qc_zero_half.
  - unfold sum_range, shoelace_term, hull_at. simpl.
    replace (0 + (x0 * y0 - y0 * x0))%Qc with 0%Qc by ring.
    apply Qc_zero_half.
  - unfold sum_range, shoelace_term, hull_at. simpl.
    replace (0 + (x0 * y1 - y0 * x1) + (x1 * y0 - y1 * x0))%Qc with 0%Qc
      by ring.
    apply Qc_zero_half.
Qed.

(** The theorem at a segment. *)
Lemma hull_area_degenerate_witness :
  hull_area [(0%Qc, 0%Qc); (1%Qc, 1%Qc)] = 0%Qc.
Proof.
  apply hull_area_degenerate. simpl. lia.
Defined.

Lemma Qcabs_double (u : Qc) : Qcabs (u + u) = (Qcabs u + Qcabs u)%Qc.
Proof.
  replace (u + u)%Qc with ((1 + 1) * u)%Qc by ring.
  rewrite Qcabs_Qcmult.
  replace (Qcabs (1 + 1)) with (1 + 1)%Qc
    by (apply Qc_is_canon; reflexivity).
  ring.
Qed.

(** The area of the corners of a box, taken in order, is its width times
    its height. *)
Theorem hull_area_box (x0 y0 x1 y1 : Qc) :
  hull_area (box_corners x0 y0 x1 y1)
  = (Qcabs (x1 - x0) * Qcabs (y1 - y0))%Qc.
Proof.
  rewrite hull_area_sum.
  unfold box_corners, sum_range, shoelace_term, hull_at. simpl.
  replace (0 + (x0 * y0 - y0 * x1) + (x1 * y1 - y0 * x1)
           + (x1 * y1 - y1 * x0) + (x0 * y0 - y1 * x0))%Qc
    with ((x1 - x0) * (y1 - y0) + (x1 - x0) * (y1 - y0))%Qc by ring.
  rewrite Qcabs_double, Qcabs_Qcmult, Qc_two. field.
  apply Qc_eqb_neq. reflexivity.
Qed.

(** Summing over the successors around a cycle is summing over the
    cycle. *)
Lemma sum_range_cyclic (f : nat -> Qc) (n : nat) :
  sum_range (fun i => f ((i + 1) mod n)) 0 n = sum_range f 0 n.
Proof.
  destruct n as [|m]; [reflexivity|].
  rewrite sum_range_last, sum_range_first.
  rewrite (sum_range_ext (fun i => f ((i + 1) mod S m)) (fun i => f (S i)))
    by (intros k Hk; rewrite Nat.mod_small by lia; f_equal; lia).
  rewrite sum_range_shift. cbn [plus].
  replace (m + 1) with (S m) by lia. rewrite Nat.Div0.mod_same.
  apply Qcplus_comm.
Qed.

Lemma hull_at_translate (a b : Qc) (hull : list (Qc * Qc)) (i : nat) :
  i < length hull ->
  hull_at (translate a b hull) i
  = (fst (hull_at hull i) + a, snd (hull_at hull i) + b)%Qc.
Proof.
  intros Hi. unfold hull_at, translate.
  rewrite (nth_indep _ _ ((fun pt => (fst pt + a, snd pt + b)%Qc) (0%Qc, 0%Qc)))
    by (rewrite length_map; exact Hi).
  apply (map_nth (fun pt => (fst pt + a, snd pt + b)%Qc)).
Qed.

(** The area of a hull does not change when the hull is moved. *)
Theorem hull_area_translate (a b : Qc) (hull : list (Qc * Qc)) :
  hull_area (translate a b hull) = hull_area hull.
Proof.
  rewrite !hull_area_sum. f_equal. f_equal.
  assert (Hlen : length (translate a b hull) = length hull)
    by (unfold translate; apply length_map).
  rewrite Hlen.
  set (n := length hull).
  set (X := fun i => fst (hull_at hull i)).
  set (Y := fun i => snd (hull_at hull i)).
  rewrite (sum_range_ext (shoelace_term (translate a b hull))
             (fun i => (shoelace_term hull i
                        + (a * Y ((i + 1) mod n)
                           + ((- a) * Y i
                              + (b * X i + (- b) * X ((i + 1) mod n)))))%Qc)).
  - rewrite sum_range_plus. rewrite sum_range_plus.
    rewrite (sum_range_plus (fun k => (- a * Y k)%Qc)).
    rewrite (sum_range_plus (fun k => (b * X k)%Qc)).
    rewrite (sum_range_scale a (fun i => Y ((i + 1) mod n))).
    rewrite (sum_range_scale (- a) Y), (sum_range_scale b X).
    rewrite (sum_range_scale (- b) (fun i => X ((i + 1) mod n))).
    rewrite (sum_range_cyclic Y n), (sum_range_cyclic X n). ring.
  - intros i Hi. unfold shoelace_term. rewrite Hlen. fold n.
    assert (Hn : (i + 1) mod n < n) by (apply Nat.mod_upper_bound; lia).
    rewrite !hull_at_translate by (fold n; lia).
    unfold X, Y. cbn [fst snd]. ring.
Qed.

(** ** The shape of an accepted span *)

(** One iteration of a walk either stops before the sample, or takes a
    sample that is within the window and does not rise above its
    neighbour, unless the walk concedes. *)
Lemma walk_body_shape (cfg : config) (spec : list Peak1D) (picked : list bool)
  (i : nat) (d : direction) (j : nat) (st : walk_state) :
  walk_body cfg spec picked i d j st = Break st \/
  (within_window cfg spec i j /\
   falls_from cfg spec i (toward_seed d j) j /\
   exists flag thr,
     ctl_state (walk_body cfg spec picked i d j st)
     = taken spec d j flag thr st).
Proof.
  unfold walk_body, within_window, falls_from, intensity_at.
  destruct (nth j picked false); [left; reflexivity|].
  destruct (fgt _ (window_size cfg)) eqn:Ew; [left; reflexivity|].
  destruct (Qc_ltb _ _) eqn:Ec.
  - destruct (strict cfg) eqn:Es; [left; reflexivity|].
    destruct (sflag st) eqn:Ef; [left; reflexivity|].
    destruct (toward_seed d j =? i)%nat eqn:Ei; [left; reflexivity|].
    right. split; [reflexivity|]. split.
    + right. split; [reflexivity|]. apply Nat.eqb_neq. exact Ei.
    + exists true, (threshold st + 1)%Z.
      simpl orb. cbv iota. rewrite <- Ef at 1. apply take_state.
  - right. split; [reflexivity|]. split.
    + left. apply Qc_ltb_ge. exact Ec.
    + exists (sflag st), (threshold st). apply take_state.
Qed.

Lemma left_walk_shape (cfg : config) (spec : list Peak1D) (picked : list bool)
  (i : nat) :
  forall (b : nat) (st : walk_state),
    bound st = b ->
    left_shape cfg spec i st ->
    left_shape cfg spec i
      (for_break (walk_body cfg spec picked i Leftwards) (rev (seq 0 b)) st).
Proof.
  induction b as [|b IH]; intros st Hb Hinv; [exact Hinv|].
  rewrite rev_seq_S. cbn [for_break].
  destruct (walk_body_shape cfg spec picked i Leftwards b st)
    as [E|[Hw [Hf [flag [thr E]]]]].
  - rewrite E. exact Hinv.
  - assert (Hinv' : left_shape cfg spec i (taken spec Leftwards b flag thr st)).
    { destruct Hinv as [H1 [H2 [H3 H4]]]. unfold left_shape, taken.
      cbn [bound n_picked away]. rewrite Hb in *.
      replace (S b - 1) with b by lia.
      split; [lia|]. split; [rewrite H2; lia|]. split.
      - intros k Hk. destruct (Nat.eq_dec k b) as [->|Hne]; [exact Hw|].
        apply H3. lia.
      - intros k Hk. destruct (Nat.eq_dec k b) as [->|Hne].
        + cbn [toward_seed] in Hf. rewrite Nat.add_1_r in Hf. exact Hf.
        + apply H4. lia. }
    assert (Hb' : bound (taken spec Leftwards b flag thr st) = b).
    { unfold taken. cbn [bound away]. lia. }
    destruct (walk_body cfg spec picked i Leftwards b st) as [s'|s'];
      simpl in E; subst s'.
    + apply IH; assumption.
    + exact Hinv'.
Qed.

Lemma right_walk_shape (cfg : config) (spec : list Peak1D)
  (picked : list bool) (i : nat) :
  forall (m b : nat) (st : walk_state),
    bound st = b ->
    right_shape cfg spec i st ->
    right_shape cfg spec i
      (for_break (walk_body cfg spec picked i Rightwards) (seq (S b) m) st).
Proof.
  induction m as [|m IH]; intros b st Hb Hinv; [exact Hinv|].
  cbn [seq for_break].
  destruct (walk_body_shape cfg spec picked i Rightwards (S b) st)
    as [E|[Hw [Hf [flag [thr E]]]]].
  - rewrite E. exact Hinv.
  - assert (Hinv' : right_shape cfg spec i
                      (taken spec Rightwards (S b) flag thr st)).
    { destruct Hinv as [H1 [H2 [H3 H4]]]. unfold right_shape, taken.
      cbn [bound n_picked away]. rewrite Hb in *.
      replace (b + 1) with (S b) by lia.
      split; [lia|]. split; [rewrite H2; lia|]. split.
      - intros k Hk. destruct (Nat.eq_dec k (S b)) as [->|Hne]; [exact Hw|].
        apply H3. lia.
      - intros k Hk. destruct (Nat.eq_dec k (S b)) as [->|Hne].
        + exact Hf.
        + apply H4. lia. }
    assert (Hb' : bound (taken spec Rightwards (S b) flag thr st) = S b).
    { unfold taken. cbn [bound away]. lia. }
    destruct (walk_body cfg spec picked i Rightwards (S b) st) as [s'|s'];
      simpl in E; subst s'.
    + apply IH; assumption.
    + exact Hinv'.
Qed.

Lemma walk_threshold (cfg : config) (spec : list Peak1D) (picked : list bool)
  (i : nat) (d : direction) (t0 : Qc) :
  (min_req cfg <= threshold (walk cfg spec picked i d t0))%Z.
Proof.
  assert (H : concession_inv cfg (walk cfg spec picked i d t0)).
  { unfold walk. apply for_break_invariant.
    - intros j s. apply walk_body_concession.
    - left. split; reflexivity. }
  destruct H as [[_ T]|[_ [_ T]]]; rewrite T; lia.
Qed.

(** An accepted seed: the shape of its span. *)
Lemma expand_shape (cfg : config) (spec : list Peak1D) (picked : list bool)
  (i low high : nat) (total : Qc) :
  i < length spec ->
  nth i picked false = false ->
  expand cfg spec picked i = Some (low, high, total) ->
  seed_span cfg spec i (low, high).
Proof.
  intros Hi Hp H.
  destruct (expand_spec cfg spec picked i low high total Hi Hp H)
    as [_ [Hhigh _]].
  unfold expand in H.
  set (t0 := getIntensity (peak_at spec i)) in H.
  pose proof (walk_threshold cfg spec picked i Leftwards t0) as TL.
  assert (HL : left_shape cfg spec i (walk cfg spec picked i Leftwards t0)).
  { unfold walk, walk_range. apply left_walk_shape; [reflexivity|].
    unfold left_shape. cbn [bound n_picked].
    split; [lia|]. split; [lia|]. split; intros k Hk; lia. }
  set (l := walk cfg spec picked i Leftwards t0) in *.
  destruct (n_picked l <? threshold l)%Z eqn:EL; [discriminate|].
  pose proof (walk_threshold cfg spec picked i Rightwards (total_intensity l))
    as TR.
  assert (HR : right_shape cfg spec i
                 (walk cfg spec picked i Rightwards (total_intensity l))).
  { unfold walk, walk_range. rewrite Nat.add_1_r.
    apply right_walk_shape; [reflexivity|].
    unfold right_shape. cbn [bound n_picked].
    split; [lia|]. split; [lia|]. split; intros k Hk; lia. }
  set (r := walk cfg spec picked i Rightwards (total_intensity l)) in *.
  destruct (n_picked r <? threshold r)%Z eqn:ER; [discriminate|].
  inversion H; subst low high total; clear H.
  apply Z.ltb_ge in EL, ER.
  destruct HL as [L1 [L2 [L3 L4]]]. destruct HR as [R1 [R2 [R3 R4]]].
  unfold seed_span, in_span. cbn [fst snd].
  split; [lia|]. split; [exact Hhigh|]. split; [lia|]. split; [lia|].
  split; [|split].
  - intros k Hk Hne. destruct (Nat.lt_trichotomy k i) as [Hlt|[->|Hgt]].
    + apply L3. lia.
    + congruence.
    + apply R3. lia.
  - exact L4.
  - exact R4.
Qed.

(** The spans the loop over the seeds accepts keep a property that every
    accepted seed gives its span. *)
Lemma pick_loop_spans (P : nat * nat -> Prop) (cfg : config)
  (spec : list Peak1D) (order : list nat) :
  (forall i pk low high total r,
      i < length spec -> nth i pk false = false ->
      expand cfg spec pk i = Some (low, high, total) ->
      for_each (mark_body spec total) (seq low (high + 1 - low)) (pk, 0%Qc)
      = Ok r ->
      P (low, high)) ->
  Forall (fun i => i < length spec) order ->
  forall st st' : pick_state,
    Forall P (spans st) ->
    for_each (pick_seed cfg spec) order st = Ok st' ->
    Forall P (spans st').
Proof.
  intros HP. induction 1 as [|i order Hi _ IH]; intros st st' Hinv H.
  - simpl in H. inversion H; subst. exact Hinv.
  - cbn [for_each] in H. bind_inv H.
    apply (IH a st'); [|exact H]. clear H IH.
    unfold pick_seed in Ha.
    destruct (nth i (picked st) false) eqn:Ep;
      [inversion Ha; subst; exact Hinv|].
    destruct (expand cfg spec (picked st) i) as [[[low high] total]|] eqn:Ee;
      [|inversion Ha; subst; exact Hinv].
    bind_inv Ha. destruct a0 as [picked' tp].
    inversion Ha; subst a; clear Ha. cbn [spans].
    constructor; [|exact Hinv].
    apply (HP i (picked st) low high total (picked', tp) Hi Ep Ee Ha0).
Qed.

Lemma pick_sorted_seeds (cfg : config) (spec : list Peak1D)
  (st : pick_state) :
  pick_sorted cfg spec = Ok st ->
  Forall (fun sp => exists i, seed_span cfg spec i sp) (spans st).
Proof.
  unfold pick_sorted. intros H.
  eapply pick_loop_spans; [| apply seed_order_in_range | | exact H].
  - intros i pk low high total r Hi Hp He _. exists i.
    apply (expand_shape cfg spec pk i low high total Hi Hp He).
  - constructor.
Qed.

(** Every accepted span lies around a seed with at least [min_req]
    samples on either side of it, so it holds at least [2 * min_req + 1]
    samples; and under a finite window every sample of the span is within
    the window of the seed. *)
Theorem accepted_span_extent (cfg : config) (spec : list Peak1D)
  (st : pick_state) (sp : nat * nat) :
  pick_sorted cfg spec = Ok st ->
  In sp (spans st) ->
  exists i,
    in_span i sp /\
    (min_req cfg <= Z.of_nat (i - fst sp))%Z /\
    (min_req cfg <= Z.of_nat (snd sp - i))%Z /\
    (2 * min_req cfg + 1 <= Z.of_nat (snd sp + 1 - fst sp))%Z /\
    (forall w k,
        window_size cfg = Fin w -> in_span k sp -> k <> i ->
        (Qcabs (getPos (peak_at spec k) - getPos (peak_at spec i)) <= w)%Qc).
Proof.
  intros H Hin. apply pick_sorted_seeds in H.
  rewrite Forall_forall in H. destruct (H sp Hin) as [i Hi].
  destruct Hi as [S1 [S2 [S3 [S4 [S5 _]]]]].
  exists i. split; [exact S1|]. split; [exact S3|]. split; [exact S4|].
  split; [lia|].
  intros w k Hw Hk Hne. specialize (S5 k Hk Hne).
  unfold within_window in S5. rewrite Hw in S5.
  unfold fgt, flt in S5. apply Qc_ltb_ge. exact S5.
Qed.

(** The theorem at three samples around a maximum. *)
Lemma accepted_span_extent_witness :
  exists i,
    in_span i (0, 2) /\
    (1 <= Z.of_nat (i - 0))%Z /\
    (1 <= Z.of_nat (2 - i))%Z /\
    (2 * 1 + 1 <= Z.of_nat (2 + 1 - 0))%Z /\
    (forall w k,
        PInf = Fin w -> in_span k (0, 2) -> k <> i ->
        (Qcabs (getPos (peak_at triple k) - getPos (peak_at triple i))
         <= w)%Qc).
Proof.
  destruct (pick_sorted default_config triple) as [st|e] eqn:E.
  - apply (accepted_span_extent default_config triple st (0, 2) E).
    vm_compute in E. injection E as <-. left. reflexivity.
  - vm_compute in E. discriminate E.
Defined.

Lemma expand_short (cfg : config) (spec : list Peak1D) (pk : list bool)
  (i : nat) :
  (Z.of_nat (length spec) < 2 * min_req cfg + 1)%Z ->
  i < length spec ->
  nth i pk false = false ->
  expand cfg spec pk i = None.
Proof.
  intros Hshort Hi Hp.
  destruct (expand cfg spec pk i) as [[[low high] total]|] eqn:E;
    [|reflexivity].
  apply (expand_shape cfg spec pk i low high total Hi Hp) in E.
  destruct E as [S1 [S2 [S3 [S4 _]]]]. cbn [fst snd] in *. lia.
Qed.

(** A spectrum of fewer than [2 * min_req + 1] peaks is picked to the
    empty spectrum: no seed has enough samples on both sides, nothing is
    marked and nothing is raised. *)
Theorem short_spectrum_yields_nothing (cfg : config) (spec : list Peak1D) :
  (Z.of_nat (length spec) < 2 * min_req cfg + 1)%Z ->
  pick_sorted cfg spec = Ok (nothing_picked spec).
Proof.
  intros Hshort. unfold pick_sorted. fold (nothing_picked spec).
  generalize (nothing_picked spec) as st.
  generalize (seed_order_in_range cfg spec).
  induction 1 as [|i order Hi _ IH]; intros st; [reflexivity|].
  cbn [for_each]. unfold pick_seed at 1.
  destruct (nth i (picked st) false) eqn:Ep; [apply IH|].
  rewrite (expand_short cfg spec (picked st) i Hshort Hi Ep). apply IH.
Qed.

(** The theorem at a spectrum of two peaks, with the default arguments. *)
Lemma short_spectrum_yields_nothing_witness :
  pick_sorted default_config (mkPeak 1 1 :: mkPeak (Qc_of_Z 2) 1 :: nil)
  = Ok (nothing_picked (mkPeak 1 1 :: mkPeak (Qc_of_Z 2) 1 :: nil)).
Proof.
  apply short_spectrum_yields_nothing. simpl. lia.
Defined.

Lemma chain_up (f : nat -> Qc) (low i : nat) :
  (forall k, low <= k < i -> (f k <= f (S k))%Qc) ->
  forall d k, k + d = i -> low <= k -> (f k <= f i)%Qc.
Proof.
  intros H. induction d as [|d IH]; intros k Hk Hl.
  - replace k with i by lia. apply Qcle_refl.
  - apply Qcle_trans with (f (S k)); [apply H; lia | apply IH; lia].
Qed.

Lemma chain_down (f : nat -> Qc) (i high : nat) :
  (forall k, i <= k < high -> (f (S k) <= f k)%Qc) ->
  forall d, i + d <= high -> (f (i + d)%nat <= f i)%Qc.
Proof.
  intros H. induction d as [|d IH]; intros Hd.
  - rewrite Nat.add_0_r. apply Qcle_refl.
  - apply Qcle_trans with (f (i + d)%nat); [|apply IH; lia].
    replace (i + S d) with (S (i + d)) by lia. apply H. lia.
Qed.

(** Every accepted span lies around a seed that is not smaller than its
    neighbours in the span, in either mode; and when the picker is strict
    the intensities of the span do not rise away from the seed, so the
    seed is a maximum of its span. *)
Theorem accepted_span_profile (cfg : config) (spec : list Peak1D)
  (st : pick_state) (sp : nat * nat) :
  pick_sorted cfg spec = Ok st ->
  In sp (spans st) ->
  exists i,
    in_span i sp /\
    (fst sp < i -> (intensity_at spec (i - 1) <= intensity_at spec i)%Qc) /\
    (i < snd sp -> (intensity_at spec (S i) <= intensity_at spec i)%Qc) /\
    (strict cfg = true ->
     (forall k, fst sp <= k < i ->
                (intensity_at spec k <= intensity_at spec (S k))%Qc) /\
     (forall k, i <= k < snd sp ->
                (intensity_at spec (S k) <= intensity_at spec k)%Qc) /\
     (forall k, in_span k sp ->
                (intensity_at spec k <= intensity_at spec i)%Qc)).
Proof.
  intros H Hin. apply pick_sorted_seeds in H.
  rewrite Forall_forall in H. destruct (H sp Hin) as [i Hi].
  destruct Hi as [S1 [_ [_ [_ [_ [S6 S7]]]]]].
  exists i. split; [exact S1|]. split; [|split].
  - intros Hl. destruct (S6 (i - 1)) as [L|[_ L]]; [lia | |].
    + replace (S (i - 1)) with i in L by lia. exact L.
    + exfalso. apply L. lia.
  - intros Hr. destruct (S7 (S i)) as [L|[_ L]]; [lia | |].
    + replace (S i - 1) with i in L by lia. exact L.
    + exfalso. apply L. lia.
  - intros Hs.
    assert (U : forall k, fst sp <= k < i ->
                (intensity_at spec k <= intensity_at spec (S k))%Qc).
    { intros k Hk. destruct (S6 k Hk) as [L|[L _]]; [exact L | congruence]. }
    assert (D : forall k, i <= k < snd sp ->
                (intensity_at spec (S k) <= intensity_at spec k)%Qc).
    { intros k Hk. destruct (S7 (S k)) as [L|[L _]]; [lia | | congruence].
      replace (S k - 1) with k in L by lia. exact L. }
    split; [exact U|]. split; [exact D|].
    intros k Hk. unfold in_span in Hk.
    destruct (le_lt_dec k i) as [Hle|Hgt].
    + apply (chain_up (intensity_at spec) (fst sp) i U (i - k) k); lia.
    + replace k with (i + (k - i)) by lia.
      apply (chain_down (intensity_at spec) i (snd sp) D). lia.
Qed.

(** The theorem at three samples around a maximum. *)
Lemma accepted_span_profile_witness :
  exists i,
    in_span i (0, 2) /\
    (0 < i -> (intensity_at triple (i - 1) <= intensity_at triple i)%Qc) /\
    (i < 2 -> (intensity_at triple (S i) <= intensity_at triple i)%Qc) /\
    (true = true ->
     (forall k, 0 <= k < i ->
                (intensity_at triple k <= intensity_at triple (S k))%Qc) /\
     (forall k, i <= k < 2 ->
                (intensity_at triple (S k) <= intensity_at triple k)%Qc) /\
     (forall k, in_span k (0, 2) ->
                (intensity_at triple k <= intensity_at triple i)%Qc)).
Proof.
  destruct (pick_sorted default_config triple) as [st|e] eqn:E.
  - apply (accepted_span_profile default_config triple st (0, 2) E).
    vm_compute in E. injection E as <-. left. reflexivity.
  - vm_compute in E. discriminate E.
Defined.

(** ** What the picker raises *)







(** ** How many peaks are emitted *)

Lemma span_samples_disjoint (a b : nat * nat) (k : nat) :
  disjoint a b -> In k (span_samples a) -> ~ In k (span_samples b).
Proof.
  unfold disjoint, span_samples. intros Hd Ha Hb.
  apply in_seq in Ha. apply in_seq in Hb. lia.
Qed.

Lemma span_samples_NoDup (l : list (nat * nat)) :
  ForallOrdPairs disjoint l -> NoDup (flat_map span_samples l).
Proof.
  induction 1 as [|a l Ha _ IH]; [constructor|].
  cbn [flat_map]. apply NoDup_app.
  - apply seq_NoDup.
  - exact IH.
  - intros k Hk Hin. apply in_flat_map in Hin.
    destruct Hin as [b [Hb Hkb]]. rewrite Forall_forall in Ha.
    apply (span_samples_disjoint a b k (Ha b Hb) Hk Hkb).
Qed.

Lemma span_samples_count (L : nat) (l : list (nat * nat)) :
  Forall (fun sp => L <= snd sp + 1 - fst sp) l ->
  length l * L <= length (flat_map span_samples l).
Proof.
  induction 1 as [|a l Ha _ IH]; [reflexivity|].
  cbn [flat_map length]. rewrite length_app.
  unfold span_samples at 1. rewrite length_seq. lia.
Qed.

Lemma disjoint_spans_count (L n : nat) (l : list (nat * nat)) :
  ForallOrdPairs disjoint l ->
  Forall (fun sp => L <= snd sp + 1 - fst sp /\ snd sp < n) l ->
  length l * L <= n.
Proof.
  intros Hd Hl.
  apply Nat.le_trans with (length (flat_map span_samples l)).
  - apply span_samples_count. eapply Forall_impl; [|exact Hl].
    intros sp [H _]. exact H.
  - rewrite <- (length_seq n 0). apply NoDup_incl_length.
    + apply span_samples_NoDup. exact Hd.
    + intros k Hk. apply in_flat_map in Hk. destruct Hk as [sp [Hsp Hk]].
      rewrite Forall_forall in Hl. destruct (Hl sp Hsp) as [_ Hn].
      unfold span_samples in Hk. apply in_seq in Hk. apply in_seq. lia.
Qed.

(** The picker emits at most one peak for every [2 * min_req + 1] samples
    of the spectrum, and never more peaks than samples. *)
Theorem emitted_peaks_bound (cfg : config) (spec : list Peak1D)
  (st : pick_state) :
  pick_sorted cfg spec = Ok st ->
  (Z.of_nat (length (new_spec st)) * Z.max 1 (2 * min_req cfg + 1)
   <= Z.of_nat (length spec))%Z.
Proof.
  intros H. pose proof (pick_sorted_seeds cfg spec st H) as Hs.
  apply pick_sorted_inv in H. destruct H as [_ [_ [I3 [_ I5]]]].
  rewrite I5, length_map, length_rev.
  set (L := Z.to_nat (Z.max 1 (2 * min_req cfg + 1))).
  assert (HL : Z.max 1 (2 * min_req cfg + 1) = Z.of_nat L)
    by (unfold L; lia).
  rewrite HL, <- Nat2Z.inj_mul. apply Nat2Z.inj_le.
  apply disjoint_spans_count; [exact I3|].
  eapply Forall_impl; [|exact Hs].
  intros sp [i [S1 [S2 [S3 [S4 _]]]]]. split; [lia | exact S2].
Qed.

(** The theorem at three samples around a maximum. *)
Lemma emitted_peaks_bound_witness :
  exists st,
    pick_sorted default_config triple = Ok st /\
    (Z.of_nat (length (new_spec st)) * Z.max 1 (2 * 1 + 1)
     <= Z.of_nat (length triple))%Z.
Proof.
  destruct (pick_sorted default_config triple) as [st|e] eqn:E.
  - exists st. split; [reflexivity|].
    exact (emitted_peaks_bound default_config triple st E).
  - vm_compute in E. discriminate E.
Defined.

(** ** Where an emitted peak lies *)

Lemma sum_range_le (f h : nat -> Qc) (n : nat) :
  forall a, (forall k, a <= k < a + n -> (f k <= h k)%Qc) ->
            (sum_range f a n <= sum_range h a n)%Qc.
Proof.
  induction n as [|n IH]; intros a H.
  - rewrite !sum_range_0. apply Qcle_refl.
  - rewrite !sum_range_first. apply Qcplus_le_compat.
    + apply H. lia.
    + apply IH. intros k Hk. apply H. lia.
Qed.

Lemma sum_range_const_0 (n : nat) :
  forall a, sum_range (fun _ => 0%Qc) a n = 0%Qc.
Proof.
  induction n as [|n IH]; intros a; [reflexivity|].
  rewrite sum_range_first, IH. ring.
Qed.

Lemma span_intensity_nonneg (spec : list Peak1D) (low high : nat) :
  (forall q, In q spec -> (0 <= getIntensity q)%Qc) ->
  high < length spec ->
  (0 <= span_intensity spec low high)%Qc.
Proof.
  intros Hpos Hh. unfold span_intensity.
  rewrite <- (sum_range_const_0 (high + 1 - low) low).
  apply sum_range_le. intros k Hk. unfold intensity_at, peak_at.
  apply Hpos. apply nth_In. lia.
Qed.

Lemma sorted_positions_nth (spec : list Peak1D) :
  StronglySorted (fun a b => (getPos a <= getPos b)%Qc) spec ->
  forall i j, i <= j -> j < length spec ->
              (getPos (peak_at spec i) <= getPos (peak_at spec j))%Qc.
Proof.
  induction 1 as [|x l _ IH Hx]; intros i j Hij Hj; [simpl in Hj; lia|].
  unfold peak_at in *. destruct j as [|j].
  - replace i with 0 by lia. apply Qcle_refl.
  - simpl in Hj. destruct i as [|i].
    + cbn [nth]. rewrite Forall_forall in Hx. apply Hx. apply nth_In. lia.
    + cbn [nth]. apply IH; lia.
Qed.

(** The weights of a span add up to one. *)
Lemma span_weights_total (spec : list Peak1D) (low high : nat) :
  span_intensity spec low high <> 0%Qc ->
  sum_range
    (fun k => (intensity_at spec k / span_intensity spec low high)%Qc)
    low (high + 1 - low) = 1%Qc.
Proof.
  intros Ht. set (T := span_intensity spec low high) in *.
  rewrite (sum_range_ext _ (fun k => (/ T * intensity_at spec k)%Qc))
    by (intros k _; unfold Qcdiv; ring).
  rewrite sum_range_scale. fold (span_intensity spec low high). fold T.
  apply Qcmult_inv_l. exact Ht.
Qed.

Lemma weighted_position_bounds (spec : list Peak1D) (low high : nat) :
  StronglySorted (fun a b => (getPos a <= getPos b)%Qc) spec ->
  (forall q, In q spec -> (0 <= getIntensity q)%Qc) ->
  low <= high -> high < length spec ->
  span_intensity spec low high <> 0%Qc ->
  (getPos (peak_at spec low) <= weighted_position spec low high)%Qc /\
  (weighted_position spec low high <= getPos (peak_at spec high))%Qc.
Proof.
  intros Hs Hpos Hl Hh Ht.
  pose proof (span_weights_total spec low high Ht) as Hw.
  assert (HT : (0 < span_intensity spec low high)%Qc).
  { destruct (Qcle_lt_or_eq _ _ (span_intensity_nonneg spec low high Hpos Hh))
      as [L|E]; [exact L | congruence]. }
  set (T := span_intensity spec low high) in *.
  assert (W : forall k, low <= k < low + (high + 1 - low) ->
                (0 <= intensity_at spec k / T)%Qc).
  { intros k Hk. apply Qcdiv_nonneg; [|exact HT].
    unfold intensity_at, peak_at. apply Hpos. apply nth_In. lia. }
  unfold weighted_position. fold T. split.
  - rewrite <- (Qcmult_1_r (getPos (peak_at spec low))), <- Hw.
    rewrite <- sum_range_scale. apply sum_range_le. intros k Hk.
    apply Qcmult_le_compat_r; [|apply W; exact Hk].
    apply sorted_positions_nth; [exact Hs | lia | lia].
  - rewrite <- (Qcmult_1_r (getPos (peak_at spec high))), <- Hw.
    rewrite <- sum_range_scale. apply sum_range_le. intros k Hk.
    apply Qcmult_le_compat_r; [|apply W; exact Hk].
    apply sorted_positions_nth; [exact Hs | lia | lia].
Qed.

(** The total of an accepted span is not zero: the division went
    through. *)
Lemma pick_sorted_totals (cfg : config) (spec : list Peak1D)
  (st : pick_state) :
  pick_sorted cfg spec = Ok st ->
  Forall (fun sp => span_intensity spec (fst sp) (snd sp) <> 0%Qc) (spans st).
Proof.
  unfold pick_sorted. intros H.
  eapply pick_loop_spans; [| apply seed_order_in_range | | exact H].
  - intros i pk low high total r Hi Hp He Hm. cbn [fst snd].
    destruct (expand_spec cfg spec pk i low high total Hi Hp He)
      as [Hspan [_ [_ Htot]]].
    replace (high + 1 - low) with (S (high - low)) in Hm by lia.
    cbn [seq for_each] in Hm. bind_inv Hm. clear Hm.
    destruct a as [pk1 tp1]. unfold mark_body, qdiv in Ha.
    rewrite <- Htot. apply Qc_eqb_neq.
    destruct (Qc_eqb total 0); [discriminate Ha | reflexivity].
  - constructor.
Qed.

(** On a spectrum sorted by position whose intensities are not negative,
    every emitted peak is the composite of an accepted span, has a
    positive intensity, and lies between the positions of the first and
    the last sample of its span. *)
Theorem emitted_peak_within_span (cfg : config) (spec : list Peak1D)
  (st : pick_state) (p : Peak1D) :
  StronglySorted (fun a b => (getPos a <= getPos b)%Qc) spec ->
  (forall q, In q spec -> (0 <= getIntensity q)%Qc) ->
  pick_sorted cfg spec = Ok st ->
  In p (new_spec st) ->
  exists sp,
    In sp (spans st) /\ p = composite spec sp /\
    (0 < getIntensity p)%Qc /\
    (getPos (peak_at spec (fst sp)) <= getPos p)%Qc /\
    (getPos p <= getPos (peak_at spec (snd sp)))%Qc.
Proof.
  intros Hs Hpos H Hp.
  pose proof (pick_sorted_totals cfg spec st H) as Ht.
  apply pick_sorted_inv in H. destruct H as [_ [_ [_ [I4 I5]]]].
  rewrite I5 in Hp. apply in_map_iff in Hp. destruct Hp as [sp [E Hin]].
  apply in_rev in Hin. exists sp. split; [exact Hin|].
  split; [symmetry; exact E|]. subst p.
  rewrite Forall_forall in Ht. specialize (Ht sp Hin).
  destruct (I4 sp Hin) as [Hl Hh].
  unfold composite. cbn [getPos getIntensity]. split.
  - destruct (Qcle_lt_or_eq _ _
                (span_intensity_nonneg spec (fst sp) (snd sp) Hpos Hh))
      as [L|E]; [exact L | congruence].
  - apply weighted_position_bounds; assumption.
Qed.

(** The theorem at three samples around a maximum. *)
Lemma emitted_peak_within_span_witness :
  exists st p sp,
    pick_sorted default_config triple = Ok st /\
    In sp (spans st) /\ p = composite triple sp /\
    (0 < getIntensity p)%Qc /\
    (getPos (peak_at triple (fst sp)) <= getPos p)%Qc /\
    (getPos p <= getPos (peak_at triple (snd sp)))%Qc.
Proof.
  destruct (pick_sorted default_config triple) as [st|e] eqn:E;
    [|vm_compute in E; discriminate E].
  destruct (new_spec st) as [|p l] eqn:En;
    [vm_compute in E; injection E as <-; discriminate En|].
  destruct (emitted_peak_within_span default_config triple st p) as [sp Hsp].
  - repeat constructor; apply Qc_leb_le; vm_compute; reflexivity.
  - intros q [H|[H|[H|[]]]]; subst q; apply Qc_leb_le; vm_compute;
      reflexivity.
  - exact E.
  - rewrite En. left. reflexivity.
  - exists st, p, sp. split; [reflexivity | exact Hsp].
Defined.

(** ** The order of the emitted peaks *)



Lemma StronglySorted_map_in {A B : Type} (R : A -> A -> Prop)
  (R' : B -> B -> Prop) (f : A -> B) (l : list A) :
  StronglySorted R l ->
  (forall a b, In a l -> In b l -> R a b -> R' (f a) (f b)) ->
  StronglySorted R' (map f l).
Proof.
  induction 1 as [|x l Hl IH Hx]; intros H; simpl; [constructor|].
  constructor.
  - apply IH. intros a b Ha Hb. apply H; right; assumption.
  - apply Forall_forall. intros y Hy. apply in_map_iff in Hy.
    destruct Hy as [a [<- Ha]]. rewrite Forall_forall in Hx.
    apply H; [left; reflexivity | right; exact Ha | apply Hx; exact Ha].
Qed.





(** ** The order of the seeds *)

Lemma pair_gt_false (x y : Qc * nat) :
  pair_gt x y = false <->
  (fst x < fst y)%Qc \/ (fst x = fst y /\ snd x <= snd y).
Proof.
  unfold pair_gt. rewrite orb_false_iff, andb_false_iff.
  rewrite Qc_ltb_ge, Qc_eqb_neq, Nat.ltb_ge. split.
  - intros [Hle [Hne|Hk]].
    + left. destruct (Qcle_lt_or_eq _ _ Hle) as [L|E]; [exact L | congruence].
    + destruct (Qcle_lt_or_eq _ _ Hle) as [L|E]; [left; exact L|].
      right. split; assumption.
  - intros [L|[E Hk]].
    + split; [apply Qclt_le_weak; exact L|].
      left. intros E. rewrite E in L. exact (Qclt_not_eq _ _ L eq_refl).
    + split; [rewrite E; apply Qcle_refl | right; exact Hk].
Qed.

Lemma pair_gt_true (x y : Qc * nat) :
  pair_gt x y = true -> pair_gt y x = false.
Proof.
  intros H. apply pair_gt_false.
  unfold pair_gt in H. apply orb_true_iff in H. destruct H as [H|H].
  - left. apply Qc_ltb_lt. exact H.
  - apply andb_true_iff in H. destruct H as [E K].
    apply Qc_eqb_eq in E. apply Nat.ltb_lt in K.
    right. split; [congruence | lia].
Qed.

Lemma pair_ge_trans (x y z : Qc * nat) :
  pair_gt y x = false -> pair_gt z y = false -> pair_gt z x = false.
Proof.
  rewrite !pair_gt_false. intros [L1|[E1 K1]] [L2|[E2 K2]].
  - left. apply Qclt_trans with (fst y); assumption.
  - left. rewrite E2. exact L1.
  - left. rewrite <- E1. exact L2.
  - right. split; [congruence | lia].
Qed.

Lemma insert_desc_perm (x : Qc * nat) (l : list (Qc * nat)) :
  Permutation (insert_desc x l) (x :: l).
Proof.
  induction l as [|y l IH]; simpl; [apply Permutation_refl|].
  destruct (pair_gt y x); [|apply Permutation_refl].
  eapply perm_trans; [apply perm_skip, IH | apply perm_swap].
Qed.

Lemma sorted_desc_perm (l : list (Qc * nat)) : Permutation (sorted_desc l) l.
Proof.
  induction l as [|x l IH]; simpl; [constructor|].
  eapply perm_trans; [apply insert_desc_perm | apply perm_skip, IH].
Qed.

Lemma insert_desc_sorted (x : Qc * nat) (l : list (Qc * nat)) :
  StronglySorted (fun a b => pair_gt b a = false) l ->
  StronglySorted (fun a b => pair_gt b a = false) (insert_desc x l).
Proof.
  induction 1 as [|y l Hl IH Hy]; simpl.
  - constructor; constructor.
  - destruct (pair_gt y x) eqn:E.
    + constructor; [exact IH|].
      apply Forall_forall. intros z Hz. apply insert_desc_In in Hz.
      destruct Hz as [->|Hz].
      * apply pair_gt_true. exact E.
      * rewrite Forall_forall in Hy. apply Hy. exact Hz.
    + constructor; [constructor; assumption|].
      constructor; [exact E|].
      apply Forall_forall. intros z Hz. rewrite Forall_forall in Hy.
      apply (pair_ge_trans x y z); [exact E | apply Hy; exact Hz].
Qed.

Lemma sorted_desc_sorted (l : list (Qc * nat)) :
  StronglySorted (fun a b => pair_gt b a = false) (sorted_desc l).
Proof.
  induction l as [|x l IH]; simpl; [constructor|].
  apply insert_desc_sorted. exact IH.
Qed.

(** The lookup table pairs every index with the intensity at it. *)
Lemma lookup_table_snd (spec : list Peak1D) :
  forall a, map snd (combine (map getIntensity spec) (seq a (length spec)))
            = seq a (length spec).
Proof.
  induction spec as [|p spec IH]; intros a; [reflexivity|].
  simpl. rewrite IH. reflexivity.
Qed.

Lemma lookup_table_fst (spec : list Peak1D) (q : Qc) (k : nat) :
  In (q, k) (combine (map getIntensity spec) (seq 0 (length spec))) ->
  q = intensity_at spec k.
Proof.
  unfold intensity_at, peak_at.
  replace k with (k - 0) at 2 by lia. generalize 0 as a.
  induction spec as [|p spec IH]; intros a H; [destruct H|].
  simpl in H. destruct H as [H|H].
  - inversion H; subst. rewrite Nat.sub_diag. reflexivity.
  - assert (Hk : S a <= k).
    { apply in_combine_r in H. apply in_seq in H. lia. }
    apply IH in H. rewrite H.
    replace (k - a) with (S (k - S a)) by lia. reflexivity.
Qed.

Lemma sorted_pairs_indices (spec : list Peak1D) (l : list (Qc * nat)) :
  StronglySorted (fun a b => pair_gt b a = false) l ->
  NoDup (map snd l) ->
  (forall p, In p l -> fst p = intensity_at spec (snd p)) ->
  StronglySorted (visited_before spec) (map snd l).
Proof.
  induction 1 as [|x l Hl IH Hx]; intros Hnd Hf; simpl; [constructor|].
  simpl in Hnd. inversion Hnd as [|? ? Hnot Hnd']; subst.
  constructor.
  - apply IH; [exact Hnd'|]. intros p Hp. apply Hf. right. exact Hp.
  - apply Forall_forall. intros k Hk. apply in_map_iff in Hk.
    destruct Hk as [y [<- Hy]]. rewrite Forall_forall in Hx.
    pose proof (Hx y Hy) as Hxy. apply pair_gt_false in Hxy.
    assert (Hne : snd y <> snd x).
    { intros E. apply Hnot. rewrite <- E. apply in_map. exact Hy. }
    rewrite (Hf x (or_introl eq_refl)), (Hf y (or_intror Hy)) in Hxy.
    unfold visited_before. destruct Hxy as [L|[E K]].
    + left. exact L.
    + right. split; [congruence | lia].
Qed.

(** Every index of the spectrum is a seed exactly once, in either mode;
    with [sequential=False] the seeds are visited by descending
    intensity, and of two samples of equal intensity the one with the
    higher index first. *)
Theorem seed_order_by_intensity (cfg : config) (spec : list Peak1D) :
  Permutation (seed_order cfg spec) (seq 0 (length spec)) /\
  (sequential cfg = false ->
   StronglySorted (visited_before spec) (seed_order cfg spec)).
Proof.
  unfold seed_order.
  set (table := combine (map getIntensity spec) (seq 0 (length spec))).
  assert (Hp : Permutation (map snd (sorted_desc table))
                 (seq 0 (length spec))).
  { rewrite <- (lookup_table_snd spec 0). fold table.
    apply Permutation_map. apply sorted_desc_perm. }
  split.
  - destruct (sequential cfg); [apply Permutation_refl | exact Hp].
  - intros Hs. rewrite Hs.
    apply sorted_pairs_indices.
    + apply sorted_desc_sorted.
    + apply (Permutation_NoDup (Permutation_sym Hp)). apply seq_NoDup.
    + intros [q k] Hin. cbn [fst snd].
      apply (lookup_table_fst spec q k).
      apply (Permutation_in _ (sorted_desc_perm table)). exact Hin.
Qed.

(** The theorem at three samples visited by descending intensity. *)
Lemma seed_order_by_intensity_witness :
  StronglySorted (visited_before triple) (seed_order by_intensity triple).
Proof.
  apply (proj2 (seed_order_by_intensity by_intensity triple)).
  reflexivity.
Defined.

(** ** The picked experiment *)

Lemma pick_loop_output (cfg : config) (spectra : list Spectrum) :
  forall acc out,
    for_each (pick_spectrum cfg) spectra acc = Ok out ->
    exists new,
      out = acc ++ new /\
      Forall2 (picked_from cfg) (ms1_spectra spectra) new.
Proof.
  induction spectra as [|spec spectra IH]; intros acc out H.
  - simpl in H. inversion H; subst. exists []. rewrite app_nil_r.
    split; [reflexivity | constructor].
  - cbn [for_each] in H. bind_inv H. unfold pick_spectrum in Ha.
    unfold ms1_spectra. cbn [filter]. fold (ms1_spectra spectra).
    destruct (ms_level spec =? 1) eqn:El; cbn [negb] in Ha.
    + bind_inv Ha. rename a0 into st. inversion Ha; subst a; clear Ha.
      destruct (IH _ out H) as [new [E F]]. rewrite <- app_assoc in E.
      eexists. split; [exact E|]. constructor; [|exact F].
      unfold picked_from.
      cbn [ms_level ret_time getFloatDataArrays get_peaks].
      repeat split. exists st. split; [exact Ha0 | reflexivity].
    + inversion Ha; subst a; clear Ha. apply (IH acc out H).
Qed.

Lemma filter_StronglySorted {A : Type} (R : A -> A -> Prop)
  (f : A -> bool) (l : list A) :
  StronglySorted R l -> StronglySorted R (filter f l).
Proof.
  induction 1 as [|x l Hl IH Hx]; simpl; [constructor|].
  destruct (f x); [|exact IH]. constructor; [exact IH|].
  apply Forall_forall. intros y Hy. apply filter_In in Hy.
  rewrite Forall_forall in Hx. apply Hx. apply Hy.
Qed.

Lemma filter_Permutation {A : Type} (f : A -> bool) (l l' : list A) :
  Permutation l l' -> Permutation (filter f l) (filter f l').
Proof.
  induction 1 as [|x l l' _ IH|x y l|l l1 l2 _ IH1 _ IH2]; simpl.
  - constructor.
  - destruct (f x); [apply perm_skip|]; exact IH.
  - destruct (f x), (f y); try apply Permutation_refl. apply perm_swap.
  - eapply perm_trans; eassumption.
Qed.

Lemma sortSpectra_ascending (spectra : list Spectrum) :
  StronglySorted (fun a b => (ret_time a <= ret_time b)%Qc)
    (sortSpectra spectra).
Proof.
  apply Sorted_StronglySorted.
  - intros a b c. apply Qcle_trans.
  - apply sorted_Sorted.
Qed.

(** The picked experiment holds one scan for every MS1 scan of the input,
    in ascending order of retention time whatever the order of the input
    (the order of the input when it is ascending already), each with the
    retention time of its scan and the peaks picked from it; scans of
    other levels are left out.  Every picked scan has the MS level 1 and
    carries no float data array, so the ion mobilities of the samples are
    not passed on and [get_points] raises [IndexError] on it. *)
Theorem peak_pick_output (cfg : config) (spectra out : list Spectrum) :
  peak_pick cfg spectra = Ok out ->
  Forall2 (picked_from cfg) (ms1_spectra (sortSpectra spectra)) out /\
  StronglySorted Qcle (map ret_time out) /\
  Permutation (map ret_time out) (map ret_time (ms1_spectra spectra)) /\
  (Sorted (fun a b => (ret_time a <= ret_time b)%Qc) spectra ->
   map ret_time out = map ret_time (ms1_spectra spectra)) /\
  Forall (fun s => ms_level s = 1 /\ getFloatDataArrays s = [] /\
                   Arrays.get_points s = Raise IndexError) out.
Proof.
  unfold peak_pick. intros H. apply pick_loop_output in H.
  destruct H as [new [E F]]. cbn [app] in E. subst new.
  assert (R : map ret_time out
              = map ret_time (ms1_spectra (sortSpectra spectra))).
  { clear - F. induction F as [|src s srcs ss Hs _ IH]; [reflexivity|].
    destruct Hs as [_ [Hr _]]. simpl. rewrite Hr, IH. reflexivity. }
  split; [exact F|]. split; [|split; [|split]].
  - rewrite R.
    apply (StronglySorted_map_in
             (fun a b => (ret_time a <= ret_time b)%Qc) Qcle ret_time).
    + apply filter_StronglySorted. apply sortSpectra_ascending.
    + intros a b _ _ L. exact L.
  - rewrite R. apply Permutation_map. apply filter_Permutation.
    apply sorted_perm.
  - intros Hs. rewrite R. unfold sortSpectra.
    rewrite (sorted_fixed ret_time spectra Hs). reflexivity.
  - clear R. induction F as [|src s srcs ss Hs _ IH]; [constructor|].
    constructor; [|exact IH]. destruct Hs as [L [_ [D _]]].
    split; [exact L|]. split; [exact D|].
    apply get_points_no_array. exact D.
Qed.

(** The theorem at an MS1 scan of three samples at retention time 2
    followed by an MS2 scan and an MS1 scan at retention time 1. *)
Lemma peak_pick_output_witness :
  exists out,
    peak_pick default_config
      (mkLoaded 1 (Qc_of_Z 2) triple nil
       :: mkLoaded 2 0 triple nil
       :: mkLoaded 1 1 triple nil :: nil) = Ok out /\
    StronglySorted Qcle (map ret_time out) /\
    length out = 2.
Proof.
  destruct (peak_pick default_config
              (mkLoaded 1 (Qc_of_Z 2) triple nil
               :: mkLoaded 2 0 triple nil
               :: mkLoaded 1 1 triple nil :: nil))
    as [out|e] eqn:E; [|vm_compute in E; discriminate E].
  exists out. split; [reflexivity|].
  split; [exact (proj1 (proj2 (peak_pick_output default_config _ out E)))|].
  vm_compute in E. injection E as <-. reflexivity.
Defined.

(** ** The intensity that is emitted *)

Lemma span_intensity_indicator (spec : list Peak1D) (low high n : nat) :
  low <= high -> high < n ->
  span_intensity spec low high
  = sum_range
      (intensity_if spec (fun k => (low <=? k) && (k <=? high))) 0 n.
Proof.
  intros Hl Hh. unfold span_intensity.
  replace n with (low + ((high + 1 - low) + (n - (high + 1)))) by lia.
  rewrite sum_range_app, sum_range_app. cbn [plus].
  rewrite (sum_range_ext _ (fun _ => 0%Qc) 0 low).
  - rewrite (sum_range_ext _ (fun _ => 0%Qc) (low + (high + 1 - low))).
    + rewrite !sum_range_const_0.
      rewrite (sum_range_ext
                 (intensity_if spec (fun k => (low <=? k) && (k <=? high)))
                 (intensity_at spec) low).
      * ring.
      * intros k Hk. unfold intensity_if.
        assert (E1 : (low <=? k) = true) by (apply Nat.leb_le; lia).
        assert (E2 : (k <=? high) = true) by (apply Nat.leb_le; lia).
        rewrite E1, E2. reflexivity.
    + intros k Hk. unfold intensity_if.
      assert (E2 : (k <=? high) = false) by (apply Nat.leb_gt; lia).
      rewrite E2, andb_false_r. reflexivity.
  - intros k Hk. unfold intensity_if.
    assert (E1 : (low <=? k) = false) by (apply Nat.leb_gt; lia).
    rewrite E1. reflexivity.
Qed.

Lemma covered_spec (l : list (nat * nat)) (k : nat) :
  covered l k = true <-> exists sp, In sp l /\ in_span k sp.
Proof.
  unfold covered, in_span. rewrite existsb_exists. split.
  - intros [sp [Hin H]]. apply andb_true_iff in H. destruct H as [H1 H2].
    apply Nat.leb_le in H1. apply Nat.leb_le in H2. exists sp. auto.
  - intros [sp [Hin [H1 H2]]]. exists sp. split; [exact Hin|].
    apply andb_true_iff. split; apply Nat.leb_le; assumption.
Qed.

Lemma span_sum_covered (spec : list Peak1D) (n : nat) (l : list (nat * nat)) :
  ForallOrdPairs disjoint l ->
  (forall sp, In sp l -> fst sp <= snd sp < n) ->
  span_sum spec l = sum_range (intensity_if spec (covered l)) 0 n.
Proof.
  induction 1 as [|a l Ha Hl IH]; intros Hn.
  - cbn [span_sum fold_right].
    rewrite (sum_range_ext _ (fun _ => 0%Qc)) by (intros k _; reflexivity).
    rewrite sum_range_const_0. reflexivity.
  - cbn [span_sum fold_right]. fold (span_sum spec l).
    rewrite IH by (intros sp Hsp; apply Hn; right; exact Hsp).
    destruct (Hn a (or_introl eq_refl)) as [H1 H2].
    rewrite (span_intensity_indicator spec (fst a) (snd a) n H1 H2).
    rewrite <- sum_range_plus. apply sum_range_ext. intros k _.
    unfold intensity_if. cbn [covered existsb]. fold (covered l k).
    destruct ((fst a <=? k) && (k <=? snd a)) eqn:Ea; cbn [orb].
    + destruct (covered l k) eqn:Ec; [|ring].
      exfalso. apply covered_spec in Ec. destruct Ec as [sp [Hsp Hk]].
      rewrite Forall_forall in Ha. specialize (Ha sp Hsp).
      apply andb_true_iff in Ea. destruct Ea as [E1 E2].
      apply Nat.leb_le in E1. apply Nat.leb_le in E2.
      unfold disjoint, in_span in *. lia.
    + destruct (covered l k); ring.
Qed.

Lemma span_sum_app (spec : list Peak1D) (l l' : list (nat * nat)) :
  span_sum spec (l ++ l') = (span_sum spec l + span_sum spec l')%Qc.
Proof.
  unfold span_sum. induction l as [|a l IH]; simpl.
  - ring.
  - rewrite IH. ring.
Qed.

Lemma span_sum_rev (spec : list Peak1D) (l : list (nat * nat)) :
  span_sum spec (rev l) = span_sum spec l.
Proof.
  induction l as [|a l IH]; [reflexivity|].
  simpl rev. rewrite span_sum_app, IH. unfold span_sum. simpl. ring.
Qed.

Lemma intensity_sum_composites (spec : list Peak1D) (l : list (nat * nat)) :
  intensity_sum (map (composite spec) l) = span_sum spec l.
Proof.
  unfold intensity_sum, span_sum.
  induction l as [|a l IH]; [reflexivity|].
  simpl. rewrite IH. reflexivity.
Qed.

Lemma intensity_sum_range (spec : list Peak1D) :
  intensity_sum spec = sum_range (intensity_at spec) 0 (length spec).
Proof.
  induction spec as [|p spec IH]; [reflexivity|].
  cbn [intensity_sum fold_right length]. fold (intensity_sum spec).
  rewrite sum_range_first, IH, <- sum_range_shift. reflexivity.
Qed.

(** The intensity the picker emits is the intensity of the samples it
    marked as picked: no intensity is created, and the intensity of the
    samples that end up in no span is lost.  On a spectrum without
    negative intensities the emitted total is at most the total of the
    spectrum. *)
Theorem emitted_intensity_is_picked (cfg : config) (spec : list Peak1D)
  (st : pick_state) :
  pick_sorted cfg spec = Ok st ->
  intensity_sum (new_spec st)
  = sum_range (intensity_if spec (fun k => nth k (picked st) false))
      0 (length spec) /\
  ((forall q, In q spec -> (0 <= getIntensity q)%Qc) ->
   (intensity_sum (new_spec st) <= intensity_sum spec)%Qc).
Proof.
  intros H. apply pick_sorted_inv in H. destruct H as [_ [I2 [I3 [I4 I5]]]].
  assert (E : intensity_sum (new_spec st)
              = sum_range (intensity_if spec (fun k => nth k (picked st) false))
                  0 (length spec)).
  { rewrite I5, intensity_sum_composites, span_sum_rev.
    rewrite (span_sum_covered spec (length spec) (spans st) I3 I4).
    apply sum_range_ext. intros k _. unfold intensity_if.
    replace (covered (spans st) k) with (nth k (picked st) false);
      [reflexivity|].
    destruct (nth k (picked st) false) eqn:Ep.
    - symmetry. apply covered_spec. apply I2. exact Ep.
    - destruct (covered (spans st) k) eqn:Ec; [|reflexivity].
      apply covered_spec in Ec. apply I2 in Ec. congruence. }
  split; [exact E|].
  intros Hpos. rewrite E, intensity_sum_range.
  apply sum_range_le. intros k Hk. unfold intensity_if.
  destruct (nth k (picked st) false); [apply Qcle_refl|].
  unfold intensity_at, peak_at. apply Hpos. apply nth_In. lia.
Qed.

(** The theorem at three samples around a maximum. *)
Lemma emitted_intensity_is_picked_witness :
  exists st,
    pick_sorted default_config triple = Ok st /\
    (intensity_sum (new_spec st) <= intensity_sum triple)%Qc.
Proof.
  destruct (pick_sorted default_config triple) as [st|e] eqn:E;
    [|vm_compute in E; discriminate E].
  exists st. split; [reflexivity|].
  apply (proj2 (emitted_intensity_is_picked default_config triple st E)).
  intros q [H|[H|[H|[]]]]; subst q; apply Qc_leb_le; vm_compute;
    reflexivity.
Defined.

(** ** The combined experiment *)

(** [combine_spectra] leaves in the first experiment its own spectra
    followed by those of the second, in their order; combining with an
    empty experiment changes nothing, and the spectra add up. *)
Theorem combine_spectra_appends (exp1 exp2 : list MSSpectrum) :
  combine_spectra exp1 exp2 = exp1 ++ exp2 /\
  length (combine_spectra exp1 exp2) = length exp1 + length exp2 /\
  (forall exp3,
      combine_spectra (combine_spectra exp1 exp2) exp3
      = combine_spectra exp1 (combine_spectra exp2 exp3)).
Proof.
  assert (E : forall e2 e1, combine_spectra e1 e2 = e1 ++ e2).
  { unfold combine_spectra. induction e2 as [|s e2 IH]; intros e1; simpl.
    - rewrite app_nil_r. reflexivity.
    - rewrite IH, <- app_assoc. reflexivity. }
  split; [apply E|]. split.
  - rewrite E. apply length_app.
  - intros exp3. rewrite !E. symmetry. apply app_assoc.
Qed.
